(** * qmodels.mg1: an M/G/1 queue on a discrete-event engine

    A shallow embedding of [qmodels/mg1.py]: the [mg1] class (constructor,
    [gen_arrivals], [customer]), the trial function [simrun] and the
    program entry.  The two process bodies are kept as statement lists
    that mirror the Python lines; they are run by a small-step model of
    the simulation engine the script is written against.

    Simulated time and variates are Python floats in the source; they are
    modelled by exact rationals ([Q]), so rounding is not part of the
    model. *)

From Stdlib Require Import QArith ZArith Lia Sorted.
From stdpp Require Import base list strings.

Set Default Proof Using "Type".

(** ** Errors and results *)

Inductive error :=
  | NameError (name : string)      (* a global name that is not bound *)
  | ValueError (what : string)     (* sleep with a negative offset *)
  | RuntimeError (what : string)   (* resource misuse: release without acquire *)
  | StatsError (what : string).    (* raised by a statistics routine *)

Inductive result (A : Type) :=
  | Ok (a : A)
  | Err (e : error).
Arguments Ok {A} a.
Arguments Err {A} e.

Definition bind {A B} (m : result A) (k : A -> result B) : result B :=
  match m with
  | Ok a => k a
  | Err e => Err e
  end.

(** ** Variate streams

    Modelled from the spec: [qmodels/rng.py] ([expon], [truncnorm]) is not
    part of the sources at hand.  Section 4.1 describes a generator as a
    lazy, infinite, non-restartable sequence of draws fixed by its
    parameters and its seed: a stream is the sequence with a read
    position, and [next] is Python's [next(g)]. *)

Inductive distribution :=
  | Expon (mean : Q) (seed : Z)        (* expon(mean, seed) *)
  | TruncNorm (a b : Q) (seed : Z).    (* truncnorm(a, b, seed) *)

Record stream := mkStream {
  dist : distribution;    (* what the generator was built with *)
  draws : nat -> Q;       (* its sequence of draws *)
  pos : nat               (* how many have been taken *)
}.

Definition next (g : stream) : Q * stream :=
  (draws g (pos g), mkStream (dist g) (draws g) (S (pos g))).

(** ** The statements of the two process bodies *)

Definition pid := nat.

Inductive method := m_gen_arrivals | m_customer.

Inductive stream_id := InterArrival | Service.

(** Which simulator object an expression [<x>.now] names. *)
Inductive sim_name :=
  | GlobalSim    (* the module-global name [sim] *)
  | SelfSim.     (* the instance attribute [self.sim] *)

Inductive stmt :=
  (* log.info(fmt % (<clock>.now, self.server.num_in_system(),
                     self.server.num_in_system() + delta)) *)
  | SLogInfo (fmt : string) (clock : sim_name) (delta : Z)
  (* self.server.acquire() *)
  | SAcquire
  (* self.sim.sleep(next(self.<stream>)) *)
  | SSleepNext (g : stream_id)
  (* self.server.release() *)
  | SRelease
  (* self.sim.process(self.<method>) *)
  | SProcess (m : method).

Inductive body :=
  | Once (code : list stmt)         (* a plain function body *)
  | WhileTrue (code : list stmt).   (* while True: code *)

Definition arrive_fmt : string := "%g: customer arrives (num_in_system=%d->%d)".

(** [mg1.gen_arrivals], lines 24-27. *)
Definition gen_arrivals : body :=
  WhileTrue [ SSleepNext InterArrival; SProcess m_customer ].

(** [mg1.customer], lines 29-36. *)
Definition customer : body :=
  Once [ SLogInfo "%g: customer arrives (num_in_system=%d->%d)" GlobalSim 1;
         SAcquire;
         SSleepNext Service;
         SLogInfo "%g: customer arrives (num_in_system=%d->%d)" GlobalSim (-1);
         SRelease ].

Definition method_body (m : method) : body :=
  match m with
  | m_gen_arrivals => gen_arrivals
  | m_customer => customer
  end.

Definition body_code (b : body) : list stmt :=
  match b with
  | Once c => c
  | WhileTrue c => c
  end.

(** ** The engine

    Modelled from the spec: the simulation engine ([simulus]) is an
    external package; sections 4.2, 5, 6 and 9 give its contract.  One
    simulator owns a clock, an event list ordered by time stamp (first in,
    first out among equal stamps) and its processes; a process runs
    until it sleeps, blocks in [acquire] or returns.  [simulator.run]
    handles the events stamped before the stop time and then sets the
    clock to the stop time.  The script only runs simulators that stand
    at time 0, so running "for 1000 time units" and "until time 1000" are
    the same thing here. *)

Record resource := mkResource {
  capacity : nat;
  arrivals : list (pid * Q);     (* everyone in the system, with arrival time *)
  in_service : list pid;         (* holders of a server slot *)
  waiting : list pid;            (* blocked in acquire, oldest first *)
  collect : option (list Q)      (* dc.system_times, when a collector is attached *)
}.

Definition new_resource (dc : option (list Q)) : resource :=
  mkResource 1 [] [] [] dc.

Definition num_in_system (r : resource) : Z := Z.of_nat (length (arrivals r)).

Definition arrival_of (p : pid) (r : resource) : option Q :=
  snd <$> List.find (fun e => Nat.eqb (fst e) p) (arrivals r).

Definition drop_pid (p : pid) (l : list pid) : list pid :=
  filter (fun q => q <> p) l.

Definition drop_arrival (p : pid) (l : list (pid * Q)) : list (pid * Q) :=
  filter (fun e => fst e <> p) l.

Definition member (p : pid) (l : list pid) : bool := bool_decide (p ∈ l).

(** [acquire]: the caller enters the system at time [t]; it is served at
    once when a slot is free ([true]) and joins the wait queue otherwise. *)
Definition acquire (t : Q) (p : pid) (r : resource) : resource * bool :=
  let arr := arrivals r ++ [(p, t)] in
  if Nat.ltb (length (in_service r)) (capacity r)
  then (mkResource (capacity r) arr (in_service r ++ [p]) (waiting r) (collect r), true)
  else (mkResource (capacity r) arr (in_service r) (waiting r ++ [p]) (collect r), false).

(** [release]: the caller leaves; its system time goes to the collector;
    the oldest waiter, if any, gets the slot and is to be resumed. *)
Definition release (t : Q) (p : pid) (r : resource) : result (resource * option pid) :=
  if member p (in_service r) then
    match arrival_of p r with
    | Some ta =>
        let arr := drop_arrival p (arrivals r) in
        let dc := (fun xs => xs ++ [(t - ta)%Q]) <$> collect r in
        let srv := drop_pid p (in_service r) in
        match waiting r with
        | w :: ws => Ok (mkResource (capacity r) arr (srv ++ [w]) ws dc, Some w)
        | [] => Ok (mkResource (capacity r) arr srv [] dc, None)
        end
    | None => Err (RuntimeError "release: no arrival on record")
    end
  else Err (RuntimeError "release: resource not acquired").

Record process := mkProcess {
  p_method : method;
  p_code : list stmt     (* what is left to execute *)
}.

(** A simulator together with the [mg1] instance built on it
    ([self.inter_arrival_time], [self.service_time], [self.server]); the
    script builds exactly one queue on each simulator it creates. *)
Record simulator := mkSim {
  now : Q;
  eventlist : list (Q * pid);
  processes : list process;
  running : option pid;
  inter_arrival_time : stream;
  service_time : stream;
  server : resource
}.

(** Insert behind every event that is not later. *)
Fixpoint schedule (t : Q) (p : pid) (evs : list (Q * pid)) : list (Q * pid) :=
  match evs with
  | [] => [(t, p)]
  | (t', p') :: rest =>
      if Qlt_le_dec t t' then (t, p) :: evs else (t', p') :: schedule t p rest
  end.

(** What the module-global name [sim] denotes while a simulator runs. *)
Inductive global_sim :=
  | Unbound                  (* no global of that name *)
  | ThisSim                  (* the simulator that is running *)
  | OtherSim (clock : Q).    (* another simulator, which stands at [clock] *)

Record log_record := mkLog {
  lr_fmt : string;
  lr_now : Q;
  lr_before : Z;
  lr_after : Z
}.

(** What one step does, as seen from outside. *)
Inductive label :=
  | LWake (p : pid) (t : Q)             (* the scheduler resumes p at time t *)
  | LLog (p : pid) (m : log_record)
  | LAcquire (p : pid) (t : Q) (granted : bool)   (* called at time t *)
  | LSleep (p : pid) (g : stream_id) (d : Q)
  | LRelease (p : pid) (t : Q) (resumed : option pid)
  | LSpawn (p : pid) (m : method) (child : pid)
  | LLoop (p : pid)                     (* back to the head of while True *)
  | LReturn (p : pid).                  (* the process function returns *)

Definition set_code (p : pid) (pr : process) (c : list stmt) (ps : list process) :=
  <[p := mkProcess (p_method pr) c]> ps.

Definition eval_now (g : global_sim) (x : sim_name) (s : simulator) : result Q :=
  match x with
  | SelfSim => Ok (now s)
  | GlobalSim =>
      match g with
      | Unbound => Err (NameError "sim")
      | ThisSim => Ok (now s)
      | OtherSim c => Ok c
      end
  end.

Definition get_stream (g : stream_id) (s : simulator) : stream :=
  match g with
  | InterArrival => inter_arrival_time s
  | Service => service_time s
  end.

Definition set_stream (g : stream_id) (x : stream) (s : simulator) : stream * stream :=
  match g with
  | InterArrival => (x, service_time s)
  | Service => (inter_arrival_time s, x)
  end.

(** One statement of the running process [p], whose remaining code is
    [st :: k]. *)
Definition exec (g : global_sim) (p : pid) (pr : process) (st : stmt) (k : list stmt)
    (s : simulator) : result (label * simulator) :=
  let ps := set_code p pr k (processes s) in
  match st with
  | SLogInfo fmt x delta =>
      bind (eval_now g x s) (fun t =>
        let n := num_in_system (server s) in
        Ok (LLog p (mkLog fmt t n (n + delta)),
            mkSim (now s) (eventlist s) ps (running s)
                  (inter_arrival_time s) (service_time s) (server s)))
  | SAcquire =>
      let '(r, granted) := acquire (now s) p (server s) in
      Ok (LAcquire p (now s) granted,
          mkSim (now s) (eventlist s) ps (if granted then Some p else None)
                (inter_arrival_time s) (service_time s) r)
  | SSleepNext sid =>
      let '(d, x) := next (get_stream sid s) in
      if Qlt_le_dec d 0 then Err (ValueError "sleep: negative offset")
      else
        let '(ia, sv) := set_stream sid x s in
        Ok (LSleep p sid d,
            mkSim (now s) (schedule (now s + d) p (eventlist s)) ps None ia sv (server s))
  | SRelease =>
      bind (release (now s) p (server s)) (fun '(r, resumed) =>
        let evs := match resumed with
                   | Some w => schedule (now s) w (eventlist s)
                   | None => eventlist s
                   end in
        Ok (LRelease p (now s) resumed,
            mkSim (now s) evs ps (running s)
                  (inter_arrival_time s) (service_time s) r))
  | SProcess m =>
      let child := length (processes s) in
      Ok (LSpawn p m child,
          mkSim (now s) (schedule (now s) child (eventlist s))
                (ps ++ [mkProcess m (body_code (method_body m))]) (running s)
                (inter_arrival_time s) (service_time s) (server s))
  end.

Inductive outcome :=
  | Step (l : label) (s : simulator)
  | Idle                   (* nothing runs and the event list is empty *)
  | Crash (e : error).

(** One step of a simulator: the running process executes its next
    statement; when nothing runs, the earliest event is taken, the clock
    jumps to its stamp and its process resumes. *)
Definition step (g : global_sim) (s : simulator) : outcome :=
  match running s with
  | Some p =>
      match processes s !! p with
      | Some pr =>
          match p_code pr with
          | st :: k =>
              match exec g p pr st k s with
              | Ok (l, s') => Step l s'
              | Err e => Crash e
              end
          | [] =>
              match method_body (p_method pr) with
              | WhileTrue c =>
                  Step (LLoop p)
                    (mkSim (now s) (eventlist s) (set_code p pr c (processes s)) (running s)
                           (inter_arrival_time s) (service_time s) (server s))
              | Once _ =>
                  Step (LReturn p)
                    (mkSim (now s) (eventlist s) (processes s) None
                           (inter_arrival_time s) (service_time s) (server s))
              end
          end
      | None => Crash (RuntimeError "no such process")
      end
  | None =>
      match eventlist s with
      | (t, p) :: evs =>
          Step (LWake p t)
            (mkSim t evs (processes s) (Some p)
                   (inter_arrival_time s) (service_time s) (server s))
      | [] => Idle
      end
  end.

(** Is there work left before the stop time? *)
Definition pending (until : Q) (s : simulator) : bool :=
  match running s with
  | Some _ => true
  | None =>
      match eventlist s with
      | (t, _) :: _ => if Qlt_le_dec t until then true else false
      | [] => false
      end
  end.

Inductive run_result :=
  | Finished (tr : list label) (s : simulator)
  | Raised (tr : list label) (e : error)
  | OutOfFuel.

(** [simulator.run(until)]; [tr] collects the labels, oldest first. *)
Fixpoint run_loop (fuel : nat) (g : global_sim) (until : Q) (tr : list label)
    (s : simulator) : run_result :=
  if pending until s then
    match fuel with
    | O => OutOfFuel
    | S fuel' =>
        match step g s with
        | Step l s' => run_loop fuel' g until (tr ++ [l]) s'
        | Idle => Finished tr s
        | Crash e => Raised tr e
        end
    end
  else
    Finished tr (mkSim until (eventlist s) (processes s) (running s)
                       (inter_arrival_time s) (service_time s) (server s)).

Definition run (fuel : nat) (g : global_sim) (until : Q) (s : simulator) : run_result :=
  run_loop fuel g until [] s.

(** ** What the script takes from outside

    Python's [random], the engine's seeding of a simulator's random
    source, the two generators of [qmodels.rng], the collector's [mean],
    NumPy's [mean] and [percentile] and the [%] formatting of floats are
    not in the sources; the model takes them as parameters.  A random
    source is a state with a [randrange] that stays below its bound;
    a float result is a value of an unspecified type [value]. *)

Record Externals := mkExternals {
  rng : Type;
  (* random.seed(n): the process-wide source after seeding *)
  seed : Z -> rng;
  (* r.randrange(n) *)
  randrange : Z -> rng -> Z * rng;
  randrange_bound : forall n r, (0 < n)%Z -> (0 <= fst (randrange n r) < n)%Z;
  (* the random source of a new simulator of the given name, drawn from
     the process-wide source, and that source afterwards *)
  simulator_rng : option string -> rng -> rng * rng;
  (* qmodels.rng.expon(mean, seed) and truncnorm(a, b, seed): the draws *)
  expon : Q -> Z -> nat -> Q;
  truncnorm : Q -> Q -> Z -> nat -> Q;
  value : Type;
  (* dc.system_times.mean() *)
  ds_mean : list Q -> result value;
  (* z.mean(), np.percentile(z, q) *)
  np_mean : list value -> value;
  np_percentile : list value -> Z -> value;
  (* '%.1f' % b and '%.4f' % v *)
  fmt_1f : Q -> string;
  fmt_4f : value -> string
}.

Section Program.

Context (E : Externals).

(** A simulator object: the engine state and [sim.rng()]. *)
Record sim_object := mkObj {
  the_rng : rng E;
  state : simulator
}.

(** The Python process: the [random] module's source, the module-global
    name [sim] (a reference into the heap), the simulator objects
    created so far, the logger's level, and what has been logged and
    printed.  [history] keeps, for each simulator step taken, the
    simulator and the label; it is an observation, no code reads it. *)
Record world := mkWorld {
  py_random : rng E;
  global_sim_ref : option nat;
  heap : list sim_object;
  log_level : Z;
  log_out : list log_record;
  stdout : list string;
  history : list (nat * label)
}.

Inductive exec_result (A : Type) :=
  | Returns (a : A) (w : world)
  | Raises (e : error) (w : world)
  | Timeout.
Arguments Returns {A} a w.
Arguments Raises {A} e w.
Arguments Timeout {A}.

Definition M (A : Type) := world -> exec_result A.

Definition ret {A} (a : A) : M A := fun w => Returns a w.

Definition mbind {A B} (m : M A) (k : A -> M B) : M B :=
  fun w =>
    match m w with
    | Returns a w' => k a w'
    | Raises e w' => Raises e w'
    | Timeout => Timeout
    end.

Notation "x <- m ;; k" := (mbind m (fun x => k))
  (at level 100, m at next level, right associativity).
Notation "m ;;; k" := (mbind m (fun _ => k))
  (at level 100, right associativity).

Definition DEBUG : Z := 10.
Definition INFO : Z := 20.
Definition WARNING : Z := 30.

(** [logging.getLogger(__name__).setLevel(l)] *)
Definition setLevel (l : Z) : M unit := fun w =>
  Returns tt (mkWorld (py_random w) (global_sim_ref w) (heap w) l
                      (log_out w) (stdout w) (history w)).

(** [random.seed(n)] *)
Definition random_seed (n : Z) : M unit := fun w =>
  Returns tt (mkWorld (seed E n) (global_sim_ref w) (heap w) (log_level w)
                      (log_out w) (stdout w) (history w)).

(** [print(line)] *)
Definition print (line : string) : M unit := fun w =>
  Returns tt (mkWorld (py_random w) (global_sim_ref w) (heap w) (log_level w)
                      (log_out w) (stdout w ++ [line]) (history w)).

(** The module-level assignment [sim = <object i>]. *)
Definition bind_global_sim (i : nat) : M unit := fun w =>
  Returns tt (mkWorld (py_random w) (Some i) (heap w) (log_level w)
                      (log_out w) (stdout w) (history w)).

(** A simulator before any queue is built on it; the three [mg1] fields
    are placeholders that [mg1.__init__] overwrites. *)
Definition empty_simulator : simulator :=
  mkSim 0 [] [] None (mkStream (Expon 0 0) (fun _ => 0%Q) 0)
        (mkStream (TruncNorm 0 0 0) (fun _ => 0%Q) 0) (new_resource None).

(** [simulus.simulator(name)]: a new object at the end of the heap. *)
Definition new_simulator (name : option string) : M nat := fun w =>
  let '(r, py) := simulator_rng E name (py_random w) in
  Returns (length (heap w))
    (mkWorld py (global_sim_ref w) (heap w ++ [mkObj r empty_simulator])
             (log_level w) (log_out w) (stdout w) (history w)).

(** [mg1.__init__(self, sim, mean_iat, svtime_a, svtime_b, dc)], lines
    15-22, on a simulator object: two seeds from [sim.rng()], the two
    streams, the server with the collector, and the arrival process. *)
Definition mg1_init (o : sim_object) (mean_iat svtime_a svtime_b : Q)
    (dc : option (list Q)) : sim_object :=
  let '(seed1, r1) := randrange E (2 ^ 32) (the_rng o) in
  let iat := mkStream (Expon mean_iat seed1) (expon E mean_iat seed1) 0 in
  let '(seed2, r2) := randrange E (2 ^ 32) r1 in
  let svt := mkStream (TruncNorm svtime_a svtime_b seed2)
                      (truncnorm E svtime_a svtime_b seed2) 0 in
  let s := state o in
  let child := length (processes s) in
  mkObj r2
    (mkSim (now s) (schedule (now s) child (eventlist s))
           (processes s ++ [mkProcess m_gen_arrivals (body_code gen_arrivals)])
           (running s) iat svt (new_resource dc)).

(** [q = mg1(sim, ...)] for the object at heap index [i]. *)
Definition mg1 (i : nat) (mean_iat svtime_a svtime_b : Q) (dc : option (list Q)) : M unit :=
  fun w =>
    match heap w !! i with
    | Some o =>
        Returns tt
          (mkWorld (py_random w) (global_sim_ref w)
                   (<[i := mg1_init o mean_iat svtime_a svtime_b dc]> (heap w))
                   (log_level w) (log_out w) (stdout w) (history w))
    | None => Raises (RuntimeError "no such simulator") w
    end.

(** What the global name [sim] denotes for the code of simulator [i]. *)
Definition resolve_global (i : nat) (w : world) : global_sim :=
  match global_sim_ref w with
  | None => Unbound
  | Some j =>
      if Nat.eqb j i then ThisSim
      else match heap w !! j with
           | Some o => OtherSim (now (state o))
           | None => Unbound
           end
  end.

Definition log_records (tr : list label) : list log_record :=
  omap (fun l => match l with LLog _ m => Some m | _ => None end) tr.

(** The logger passes an info record on when its level is at most INFO. *)
Definition emitted (level : Z) (tr : list label) : list log_record :=
  if (level <=? INFO)%Z then log_records tr else [].

Definition after_run (i : nat) (o : sim_object) (tr : list label) (s : simulator)
    (w : world) : world :=
  mkWorld (py_random w) (global_sim_ref w) (<[i := mkObj (the_rng o) s]> (heap w))
          (log_level w) (log_out w ++ emitted (log_level w) tr) (stdout w)
          (history w ++ ((fun l => (i, l)) <$> tr)).

(** [sim.run(until)] for the object at heap index [i]. *)
Definition sim_run (fuel : nat) (i : nat) (until : Q) : M unit := fun w =>
  match heap w !! i with
  | Some o =>
      match run fuel (resolve_global i w) until (state o) with
      | Finished tr s => Returns tt (after_run i o tr s w)
      | Raised tr e => Raises e w
      | OutOfFuel => Timeout
      end
  | None => Raises (RuntimeError "no such simulator") w
  end.

(** [dc.system_times] of the collector attached to the server of object [i]. *)
Definition system_times (i : nat) (w : world) : list Q :=
  match heap w !! i with
  | Some o => default [] (collect (server (state o)))
  | None => []
  end.

Definition lift_result {A} (r : result A) : M A := fun w =>
  match r with
  | Ok a => Returns a w
  | Err e => Raises e w
  end.

(** [simrun(a, b)], lines 38-43.  [sim] is a local name here. *)
Definition simrun (fuel : nat) (a b : Q) : M (value E) :=
  sim <- new_simulator None ;;
  let dc := Some [] in
  mg1 sim 1.2 a b dc ;;;
  sim_run fuel sim 1000 ;;;
  (fun w => lift_result (ds_mean E (system_times sim w)) w).

(** [np.linspace(start, stop, num)]: [num] points, the last one [stop]. *)
Definition linspace (start stop : Q) (num : nat) : list Q :=
  let step := ((stop - start) / inject_Z (Z.of_nat (num - 1)))%Q in
  match num with
  | O => []
  | S n => ((fun i => (inject_Z (Z.of_nat i) * step + start)%Q) <$> seq 0 n) ++ [stop]
  end.

Definition tab : string := String (Ascii.ascii_of_nat 9) EmptyString.

Definition header : string := "b" +:+ tab +:+ "mean" +:+ tab +:+ "low" +:+ tab +:+ "high".

(** '%.1f\t%.4f\t%.4f\t%.4f' % (b, z.mean(), np.percentile(z, 5), np.percentile(z, 95)) *)
Definition row (b : Q) (z : list (value E)) : string :=
  fmt_1f E b +:+ tab +:+ fmt_4f E (np_mean E z) +:+ tab +:+
  fmt_4f E (np_percentile E z 5) +:+ tab +:+ fmt_4f E (np_percentile E z 95).

(** [for _ in range(n): z.append(simrun(a, b))] *)
Fixpoint trials (fuel : nat) (n : nat) (a b : Q) (z : list (value E)) : M (list (value E)) :=
  match n with
  | O => ret z
  | S n' =>
      v <- simrun fuel a b ;;
      trials fuel n' a b (z ++ [v])
  end.

(** [for b in x: ...], lines 60-70. *)
Fixpoint sweep (fuel : nat) (x : list Q) : M unit :=
  match x with
  | [] => ret tt
  | b :: x' =>
      z <- trials fuel 25 0 b [] ;;
      print (row b z) ;;;
      sweep fuel x'
  end.

(** The program entry, lines 45-70.  [basicConfig] installs the handler
    that prints what the logger passes on; it has no state of its own in
    the model. *)
Definition main (fuel : nat) : M unit :=
  setLevel DEBUG ;;;
  random_seed 13579 ;;;
  sim <- new_simulator (Some "mg1") ;;
  bind_global_sim sim ;;;
  mg1 sim 1.2 0 0.8 None ;;;
  sim_run fuel sim 10 ;;;
  setLevel WARNING ;;;
  let x := linspace 0.1 3.0 10 in
  print header ;;;
  sweep fuel x.

End Program.

Arguments Returns {E A} a w.
Arguments Raises {E A} e w.
Arguments Timeout {E A}.
Arguments mkObj {E} the_rng state.
Arguments the_rng {E} s.
Arguments state {E} s.
Arguments mkWorld {E} py_random global_sim_ref heap log_level log_out stdout history.
Arguments py_random {E} w.
Arguments global_sim_ref {E} w.
Arguments heap {E} w.
Arguments log_level {E} w.
Arguments log_out {E} w.
Arguments stdout {E} w.
Arguments history {E} w.
Arguments ret {E A} a w.
Arguments mbind {E A B} m k w.
Arguments lift_result {E A} r w.

Notation "x <- m ;; k" := (mbind m (fun x => k))
  (at level 100, m at next level, right associativity).
Notation "m ;;; k" := (mbind m (fun _ => k))
  (at level 100, right associativity).

(** ** A concrete set of externals

    Used to run the model on explicit inputs: a linear congruential
    random source, generators that replay given sequences of draws, the
    arithmetic mean (with a chosen outcome on the empty series), and
    formatting left blank. *)

Definition lcg (r : Z) : Z := ((r * 1103515245 + 12345) mod 2 ^ 64)%Z.

Definition lcg_randrange (n : Z) (r : Z) : Z * Z := ((lcg r mod n)%Z, lcg r).

Definition Qsum (l : list Q) : Q := fold_right Qplus 0%Q l.

Definition Qmean (l : list Q) : Q := Qred (Qsum l / inject_Z (Z.of_nat (length l))).

Definition replay (iat svt : nat -> Q) (empty_mean : result Q) : Externals :=
  {| rng := Z;
     seed := fun n => n;
     randrange := lcg_randrange;
     randrange_bound := fun n r Hn => Z.mod_pos_bound (lcg r) n Hn;
     simulator_rng := fun _ r => (lcg r, lcg (lcg r));
     expon := fun _ _ => iat;
     truncnorm := fun _ _ _ => svt;
     value := Q;
     ds_mean := fun l => match l with
                         | [] => empty_mean
                         | _ => Ok (Qmean l)
                         end;
     np_mean := Qmean;
     np_percentile := fun l _ => Qmean l;
     fmt_1f := fun _ => EmptyString;
     fmt_4f := fun _ => EmptyString |}.

Definition world0 (E : Externals) (r : rng E) : world E :=
  mkWorld r None [] WARNING [] [] [].

(** ** Runs of the engine, and what a process has done so far *)

(** The simulator right after [mg1.__init__] on a new simulator: clock 0,
    the arrival process (process 0) scheduled at time 0. *)
Definition fresh_queue (iat svt : stream) (dc : option (list Q)) : simulator :=
  mkSim 0 [(0%Q, 0)] [mkProcess m_gen_arrivals (body_code gen_arrivals)] None
        iat svt (new_resource dc).

(** [reach g s0 tr s]: from [s0] the engine gets to [s] through the steps
    labelled [tr], oldest first. *)
Inductive reach (g : global_sim) (s0 : simulator) : list label -> simulator -> Prop :=
  | reach_nil : reach g s0 [] s0
  | reach_step tr s l s' :
      reach g s0 tr s -> step g s = Step l s' -> reach g s0 (tr ++ [l]) s'.

(** A statement as an action, without the values it meets at run time. *)
Inductive action :=
  | ALog (fmt : string) (delta : Z)
  | AAcquire
  | ASleep (g : stream_id)
  | ARelease
  | AProcess (m : method).

Definition action_of_stmt (st : stmt) : action :=
  match st with
  | SLogInfo fmt _ delta => ALog fmt delta
  | SAcquire => AAcquire
  | SSleepNext g => ASleep g
  | SRelease => ARelease
  | SProcess m => AProcess m
  end.

Definition label_pid (l : label) : pid :=
  match l with
  | LWake p _ | LLog p _ | LAcquire p _ _ | LSleep p _ _ | LRelease p _ _
  | LSpawn p _ _ | LLoop p | LReturn p => p
  end.

Definition action_of_label (l : label) : option action :=
  match l with
  | LLog _ m => Some (ALog (lr_fmt m) (lr_after m - lr_before m))
  | LAcquire _ _ _ => Some AAcquire
  | LSleep _ g _ => Some (ASleep g)
  | LRelease _ _ _ => Some ARelease
  | LSpawn _ m _ => Some (AProcess m)
  | LWake _ _ | LLoop _ | LReturn _ => None
  end.

(** [n] steps from [s], or as many as there are; the labels are added to
    [tr]. *)
Fixpoint advance (n : nat) (g : global_sim) (tr : list label) (s : simulator)
    : list label * simulator :=
  match n with
  | O => (tr, s)
  | S n' =>
      match step g s with
      | Step l s' => advance n' g (tr ++ [l]) s'
      | _ => (tr, s)
      end
  end.

(** The statements process [p] has executed in [tr], in order. *)
Definition actions (p : pid) (tr : list label) : list action :=
  omap (fun l => if Nat.eqb (label_pid l) p then action_of_label l else None) tr.

Definition is_acquire (l : label) : bool :=
  match l with LAcquire _ _ _ => true | _ => false end.

Definition is_release (l : label) : bool :=
  match l with LRelease _ _ _ => true | _ => false end.

Definition is_spawn (l : label) : bool :=
  match l with LSpawn _ _ _ => true | _ => false end.

Definition count (f : label -> bool) (tr : list label) : nat :=
  length (List.filter f tr).

(** The time at which [p] called [acquire], read off the trace. *)
Fixpoint acquire_time (p : pid) (tr : list label) : option Q :=
  match tr with
  | [] => None
  | LAcquire q t _ :: rest => if Nat.eqb q p then Some t else acquire_time p rest
  | _ :: rest => acquire_time p rest
  end.

(** The system times the trace accounts for: one per release, the time of
    the release minus the time of the same process's acquire. *)
Definition samples_of (tr : list label) : list Q :=
  omap (fun l => match l with
                 | LRelease p t _ => (fun ta => (t - ta)%Q) <$> acquire_time p tr
                 | _ => None
                 end) tr.

(** ** The protocol between the processes and the server *)

Definition cust : list stmt := body_code customer.
Definition gen : list stmt := body_code gen_arrivals.

Definition arr_pids (r : resource) : list pid := fst <$> arrivals r.
Definition ev_pids (s : simulator) : list pid := snd <$> eventlist s.

(** Where a process stands with respect to the server, by the code it
    has left: a customer is outside before [acquire] and after [release],
    in service or waiting right after [acquire], and in service from its
    sleep on.  The arrival process never enters. *)
Definition proc_ok (r : resource) (p : pid) (pr : process) : Prop :=
  match p_method pr with
  | m_gen_arrivals =>
      (exists n, n <= 2 /\ p_code pr = drop n gen) /\ p ∉ arr_pids r
  | m_customer =>
      exists n, p_code pr = drop n cust /\
        match n with
        | 0 | 1 | 5 => p ∉ arr_pids r
        | 2 => p ∈ in_service r \/ p ∈ waiting r
        | 3 | 4 => p ∈ in_service r
        | _ => False
        end
  end.

Record Inv (s : simulator) : Prop := mkInv {
  inv_cap : capacity (server s) = 1;
  inv_srv : length (in_service (server s)) <= 1;
  inv_arr_nodup : NoDup (arr_pids (server s));
  inv_arr_perm : arr_pids (server s) ≡ₚ in_service (server s) ++ waiting (server s);
  inv_procs : forall p pr, processes s !! p = Some pr -> proc_ok (server s) p pr;
  inv_waiting : forall p, p ∈ waiting (server s) -> running s <> Some p /\ p ∉ ev_pids s;
  inv_ev_nodup : NoDup (ev_pids s);
  inv_ev_valid : forall p, p ∈ ev_pids s -> p < length (processes s);
  inv_run : forall p, running s = Some p -> p < length (processes s) /\ p ∉ ev_pids s;
  inv_arr_valid : forall p, p ∈ arr_pids (server s) -> p < length (processes s)
}.

(** ** What the trace says about the state *)

(** All a process of method [m] may ever do: a customer runs its body
    once, the arrival process runs its body [n] times over. *)
Definition script (m : method) (n : nat) : list action :=
  match m with
  | m_customer => action_of_stmt <$> cust
  | m_gen_arrivals => mjoin (replicate n (action_of_stmt <$> gen))
  end.

Record Hist (dc : option (list Q)) (tr : list label) (s : simulator) : Prop := mkHist {
  hist_pids : forall l, l ∈ tr -> label_pid l < length (processes s);
  hist_acts : forall p pr, processes s !! p = Some pr ->
    exists n, actions p tr ++ (action_of_stmt <$> p_code pr) = script (p_method pr) n;
  hist_gen : forall p pr, processes s !! p = Some pr ->
    (p_method pr = m_gen_arrivals <-> p = 0);
  hist_alive : running s = Some 0 \/ 0 ∈ ev_pids s;
  hist_count : length (arrivals (server s)) + count is_release tr = count is_acquire tr;
  hist_spawned : length (processes s) = S (count is_spawn tr);
  hist_arr : forall p ta, (p, ta) ∈ arrivals (server s) -> acquire_time p tr = Some ta;
  hist_rel : forall p t w, LRelease p t w ∈ tr -> is_Some (acquire_time p tr);
  hist_collect : collect (server s) = (fun xs => xs ++ samples_of tr) <$> dc
}.

(** ** Termination of a run *)

(** The time of the [k]-th arrival when the inter-arrival draws are [d]:
    the arrival process starts at time 0 and sleeps [d 0], [d 1], ... *)
Fixpoint arrival_clock (d : nat -> Q) (k : nat) : Q :=
  match k with
  | O => 0
  | S k' => arrival_clock d k' + d k'
  end.

(** A bound on the steps a process still takes by itself. *)
Definition weight (pr : process) : nat :=
  match p_method pr with
  | m_customer => 3 * length (p_code pr)
  | m_gen_arrivals =>
      match length (p_code pr) with
      | 0 => 1
      | 1 => 19
      | _ => 0
      end
  end.

(** A bound on the steps left before the stop time, when no more than
    [N] arrivals fit before it. *)
Definition fuel_bound (N : nat) (s : simulator) : nat :=
  sum_list (weight <$> processes s) + 2 * length (eventlist s)
  + (match running s with Some _ => 1 | None => 0 end) + 21 * (N - pos (inter_arrival_time s)).

(** What a run up to [until] keeps true about time: the arrival process
    (process 0) wakes at the arrival times of its stream, a running
    process runs before the stop time, and the draws stay those of the
    two given sequences. *)
Record Timed (until : Q) (di ds : nat -> Q) (s : simulator) : Prop := mkTimed {
  timed_event : forall t, (t, 0) ∈ eventlist s ->
                          t = arrival_clock di (pos (inter_arrival_time s));
  timed_running : running s = Some 0 ->
                  now s = arrival_clock di (pos (inter_arrival_time s));
  timed_before : forall p, running s = Some p -> (now s < until)%Q;
  timed_iat : draws (inter_arrival_time s) = di;
  timed_svt : draws (service_time s) = ds
}.

(** The simulator as [run] leaves it: the clock set to the stop time. *)
Definition stopped (until : Q) (s : simulator) : simulator :=
  mkSim until (eventlist s) (processes s) (running s)
        (inter_arrival_time s) (service_time s) (server s).

(** ** The program: what a trial builds and leaves behind *)

Section Trials.

Context (E : Externals).

(** The two seeds [mg1.__init__] draws from a random source, and the
    source afterwards. *)
Definition seed1 (r : rng E) : Z := fst (randrange E (2 ^ 32) r).
Definition seed2 (r : rng E) : Z :=
  fst (randrange E (2 ^ 32) (snd (randrange E (2 ^ 32) r))).
Definition rng_after (r : rng E) : rng E :=
  snd (randrange E (2 ^ 32) (snd (randrange E (2 ^ 32) r))).

(** The queue [mg1(sim, mean_iat, a, b, dc)] sets up on a new simulator
    whose random source is [r]. *)
Definition queue_of (r : rng E) (mean_iat a b : Q) (dc : option (list Q)) : simulator :=
  fresh_queue (mkStream (Expon mean_iat (seed1 r)) (expon E mean_iat (seed1 r)) 0)
              (mkStream (TruncNorm a b (seed2 r)) (truncnorm E a b (seed2 r)) 0)
              dc.

(** The world after a new simulator with queue state [s] has been
    created, run with trace [tr], and stored. *)
Definition world_after (name : option string) (w : world E) (tr : list label)
    (s : simulator) : world E :=
  let r := fst (simulator_rng E name (py_random w)) in
  let i := length (heap w) in
  mkWorld (snd (simulator_rng E name (py_random w))) (global_sim_ref w)
          (heap w ++ [mkObj (rng_after r) s])
          (log_level w) (log_out w ++ emitted (log_level w) tr) (stdout w)
          (history w ++ ((fun l => (i, l)) <$> tr)).

(** What the global name [sim] denotes for the code of the simulator
    that a trial started in world [w] creates. *)
Definition trial_global (w : world E) : global_sim :=
  match global_sim_ref w with
  | None => Unbound
  | Some j =>
      if Nat.eqb j (length (heap w)) then ThisSim
      else match heap w !! j with
           | Some o => OtherSim (now (state o))
           | None => Unbound
           end
  end.

(** The externals behave: no negative draw, the [N]-th arrival of every
    stream of mean 1.2 is not before time 1000, and the collector's mean
    gives a value. *)
Record behaved (N : nat) : Prop := mkBehaved {
  expon_nonneg : forall m s k, (0 <= expon E m s k)%Q;
  truncnorm_nonneg : forall a b s k, (0 <= truncnorm E a b s k)%Q;
  arrivals_pass : forall s, (1000 <= arrival_clock (expon E 1.2 s) N)%Q;
  mean_defined : forall l, exists v, ds_mean E l = Ok v
}.

(** A simulator object as a trial [simrun(a, b)] leaves it. *)
Definition trial_object (a b : Q) (o : sim_object E) : Prop :=
  now (state o) = 1000%Q /\
  (exists s1, dist (inter_arrival_time (state o)) = Expon 1.2 s1) /\
  (exists s2, dist (service_time (state o)) = TruncNorm a b s2).

(** The values [z] of the 25 trials for one [b], and the simulator
    objects [objs] they leave: each value is the mean of the samples in
    the collector of its object. *)
Definition trial_block (a b : Q) (z : list (value E)) (objs : list (sim_object E)) : Prop :=
  Forall2 (fun v o => trial_object a b o /\
                      ds_mean E (default [] (collect (server (state o)))) = Ok v)
          z objs.

(** The world after the demonstration run of the program entry, when
    that run went through trace [tr] and ended in state [s]. *)
Definition demo_world (w : world E) (tr : list label) (s : simulator) : world E :=
  let r := fst (simulator_rng E (Some "mg1") (seed E 13579)) in
  let i := length (heap w) in
  mkWorld (snd (simulator_rng E (Some "mg1") (seed E 13579))) (Some i)
          (heap w ++ [mkObj (rng_after r) s])
          WARNING (log_out w ++ emitted DEBUG tr) (stdout w)
          (history w ++ ((fun l => (i, l)) <$> tr)).

End Trials.

(** ** Explicit inputs *)

(** A queue whose inter-arrival draws are all [iat] and whose service
    draws are all [svt]. *)
Definition example_queue (iat svt : Q) (dc : option (list Q)) : simulator :=
  fresh_queue (mkStream (Expon 1.2 7) (fun _ => iat) 0)
              (mkStream (TruncNorm 0 0.8 9) (fun _ => svt) 0) dc.

Definition is_log (st : stmt) : bool :=
  match st with SLogInfo _ _ _ => true | _ => false end.

(** Forty steps of a queue with an arrival every time unit and three
    time units of service, run with the global [sim] bound to another
    simulator that stands at time 10. *)
Definition busy_run : list label * simulator :=
  advance 40 (OtherSim 10) [] (example_queue 1 3 (Some [])).

(** The differences between neighbours in a list. *)
Fixpoint gaps (l : list Q) : list Q :=
  match l with
  | x :: (y :: _) as rest => (y - x)%Q :: gaps rest
  | _ => []
  end.

(** Externals for explicit runs of the whole program: an arrival every
    400 time units, half a time unit of service, and 0 for the mean of an
    empty series. *)
Definition sparse : Externals := replay (fun _ => 400%Q) (fun _ => 0.5%Q) (Ok 0%Q).

(** Externals for a trial without arrivals: the first arrival would be at
    time 2000, and the mean of an empty series is an error. *)
Definition idle : Externals :=
  replay (fun _ => 2000%Q) (fun _ => 0.5%Q) (Err (StatsError "mean of an empty series")).

(** A world in which the global [sim] is bound to a simulator, as it is
    when the sweep starts. *)
Definition world1 (E : Externals) (r : rng E) : world E :=
  mkWorld r (Some 0) [mkObj r empty_simulator] WARNING [] [] [].

(** The run of a trial without arrivals. *)
Definition idle_trial : run_result :=
  run 5 (trial_global idle (world0 idle 0%Z)) 1000
      (queue_of idle (fst (simulator_rng idle None 0%Z)) 1.2 0 1 (Some [])).

(** ** Further observations on a trace *)

(** The processes that called [acquire], and those that called
    [release], in the order of the calls. *)
Definition acquirers (tr : list label) : list pid :=
  omap (fun l => match l with LAcquire p _ _ => Some p | _ => None end) tr.

Definition releasers (tr : list label) : list pid :=
  omap (fun l => match l with LRelease p _ _ => Some p | _ => None end) tr.

(** The durations of the sleeps on one stream, in order. *)
Definition sleeps (g : stream_id) (tr : list label) : list Q :=
  omap (fun l => match l with
                 | LSleep _ g' d => match g, g' with
                                    | InterArrival, InterArrival | Service, Service => Some d
                                    | _, _ => None
                                    end
                 | _ => None
                 end) tr.

(** The [n] draws of a sequence from index [k] on. *)
Definition draws_from (d : nat -> Q) (k n : nat) : list Q := d <$> seq k n.

(** The time stamps of the log records of a trace, in order. *)
Definition log_times (tr : list label) : list Q := lr_now <$> log_records tr.

(** Does a process still have its [acquire] ahead? *)
Definition before_acquire (pr : process) : bool :=
  existsb (fun st => match st with SAcquire => true | _ => false end) (p_code pr).

(** Events in the order of their time stamps. *)
Definition earlier (e1 e2 : Q * pid) : Prop := (fst e1 <= fst e2)%Q.

(** Time only moves on: the event list is in time order, nothing is
    scheduled in the past, and nobody in the system arrived in the
    future. *)
Record Mono (s : simulator) : Prop := mkMono {
  mono_sorted : StronglySorted earlier (eventlist s);
  mono_future : forall t p, (t, p) ∈ eventlist s -> (now s <= t)%Q;
  mono_arrived : forall p ta, (p, ta) ∈ arrivals (server s) -> (ta <= now s)%Q
}.

(** The arrival process keeps to its stream: it wakes at the arrival
    times of the inter-arrival draws [di], and the stream has given one
    draw per customer spawned, plus one when the process has slept and
    not yet spawned. *)
Record Arrivals (di : nat -> Q) (tr : list label) (s : simulator) : Prop := mkArrivals {
  arr_event : forall t, (t, 0) ∈ eventlist s ->
                        t = arrival_clock di (pos (inter_arrival_time s));
  arr_running : running s = Some 0 ->
                now s = arrival_clock di (pos (inter_arrival_time s));
  arr_draws : draws (inter_arrival_time s) = di;
  arr_pos : forall pr, processes s !! 0 = Some pr ->
              pos (inter_arrival_time s)
              = count is_spawn tr + match p_code pr with [_] => 1 | _ => 0 end
}.

(** Externals for a run of the whole program that logs: the first
    arrival is at time 4, the later ones 400 time units apart, and
    service takes half a time unit. *)
Definition early : Externals :=
  replay (fun k => match k with 0 => 4%Q | _ => 400%Q end) (fun _ => 0.5%Q) (Ok 0%Q).

(** The time a label is stamped with, when it has one. *)
Definition label_time (l : label) : option Q :=
  match l with
  | LWake _ t | LAcquire _ t _ | LRelease _ t _ => Some t
  | _ => None
  end.

Definition in_time (until : Q) (l : label) : Prop :=
  match label_time l with
  | Some t => (0 <= t < until)%Q
  | None => True
  end.

(** What a run up to [until] keeps true: a process only runs before the
    stop time, so everything in the trace happened before it, and the
    system times are below it. *)
Record Before (until : Q) (tr : list label) (s : simulator) : Prop := mkBefore {
  before_running : forall p, running s = Some p -> (now s < until)%Q;
  before_labels : Forall (in_time until) tr;
  before_arrived : forall p ta, (p, ta) ∈ arrivals (server s) -> (0 <= ta)%Q;
  before_samples : Forall (fun x => (x < until)%Q) (samples_of tr)
}.

Definition returned {E A} (r : exec_result E A) : bool :=
  match r with Returns _ _ => true | _ => false end.

(** The global name [sim] refers to a simulator that exists. *)
Definition bound_global {E} (w : world E) : Prop :=
  exists j o, global_sim_ref w = Some j /\ heap w !! j = Some o.

(** The errors the script lets through from outside: a negative draw
    handed to [sleep], and what the collector's [mean] raises. *)
Definition passed_on (E : Externals) (e : error) : Prop :=
  e = ValueError "sleep: negative offset" \/ exists xs, ds_mean E xs = Err e.

(** The durations of the sleeps of process [p], in order. *)
Definition sleeps_of (p : pid) (tr : list label) : list Q :=
  omap (fun l => match l with
                 | LSleep q _ d => if Nat.eqb q p then Some d else None
                 | _ => None
                 end) tr.

Definition is_asleep (a : action) : bool :=
  match a with ASleep _ => true | _ => false end.

(** A process in the system that has slept wakes, and runs again, no
    earlier than its arrival time plus the time it slept. *)
Definition Served (tr : list label) (s : simulator) : Prop :=
  forall p ta d, (p, ta) ∈ arrivals (server s) -> d ∈ sleeps_of p tr ->
    (forall t, (t, p) ∈ eventlist s -> (ta + d <= t)%Q) /\
    (running s = Some p -> (ta + d <= now s)%Q).

(** * Proofs *)

(** ** The invariant of the engine *)

Lemma member_spec p l : member p l = true <-> p ∈ l.
Proof. unfold member. apply bool_decide_eq_true. Qed.

Lemma schedule_perm t p evs : snd <$> schedule t p evs ≡ₚ p :: (snd <$> evs).
Proof.
  induction evs as [|[t' p'] rest IH]; simpl; [done|].
  destruct (Qlt_le_dec t t'); simpl; [done|].
  rewrite IH. apply perm_swap.
Qed.

Lemma elem_of_schedule t p evs q :
  q ∈ (snd <$> schedule t p evs) <-> q = p \/ q ∈ (snd <$> evs).
Proof. rewrite schedule_perm. apply elem_of_cons. Qed.

Lemma NoDup_schedule t p evs :
  NoDup (snd <$> evs) -> p ∉ (snd <$> evs) -> NoDup (snd <$> schedule t p evs).
Proof. intros. rewrite schedule_perm. by apply NoDup_cons. Qed.

Lemma elem_of_drop_pid q p l : q ∈ drop_pid p l <-> q ∈ l /\ q <> p.
Proof. unfold drop_pid. rewrite list_elem_of_filter. tauto. Qed.

Lemma drop_arrival_fst p l : fst <$> drop_arrival p l = drop_pid p (fst <$> l).
Proof.
  unfold drop_arrival, drop_pid. induction l as [|[q t] l IH]; [done|].
  rewrite fmap_cons. simpl. rewrite !filter_cons. simpl.
  destruct (decide (q <> p)); [rewrite fmap_cons; simpl; f_equal|]; exact IH.
Qed.

Lemma drop_pid_notin p l : p ∉ l -> drop_pid p l = l.
Proof.
  unfold drop_pid. induction l as [|q l IH]; [done|].
  rewrite not_elem_of_cons. intros [Hne Hl]. rewrite filter_cons.
  destruct (decide (q <> p)) as [|Hn]; [by rewrite IH|]. exfalso. apply Hn. congruence.
Qed.

Lemma length_drop_pid p l :
  NoDup l -> p ∈ l -> S (length (drop_pid p l)) = length l.
Proof.
  unfold drop_pid. induction 1 as [|q l Hq Hnd IH]; [by rewrite elem_of_nil|].
  rewrite elem_of_cons, filter_cons. intros [->|Hin].
  - destruct (decide (q <> q)); [done|]. simpl. f_equal.
    f_equal. by apply drop_pid_notin.
  - destruct (decide (q <> p)) as [|Hn]; simpl; [by rewrite IH|].
    exfalso. assert (q = p) by (destruct (decide (q = p)); [done|tauto]). congruence.
Qed.

Lemma arrival_of_Some p r : p ∈ arr_pids r -> is_Some (arrival_of p r).
Proof.
  unfold arr_pids, arrival_of. rewrite list_elem_of_fmap. intros ([q t] & -> & Hin).
  destruct (List.find _ _) as [e|] eqn:Hf; [by eexists|].
  apply list_elem_of_In in Hin. eapply find_none in Hf; [|exact Hin].
  simpl in Hf. by rewrite Nat.eqb_refl in Hf.
Qed.

Lemma singleton_of_short (p : pid) l : length l <= 1 -> p ∈ l -> l = [p].
Proof.
  destruct l as [|q [|q' l]]; simpl; intros Hl Hin; try lia.
  - by apply elem_of_nil in Hin.
  - apply list_elem_of_singleton in Hin. by subst.
Qed.

Lemma proc_ok_lookup_update r r' ps p pr k :
  (forall q qr, ps !! q = Some qr -> proc_ok r q qr) ->
  proc_ok r' p (mkProcess (p_method pr) k) ->
  (forall q qr, q <> p -> ps !! q = Some qr -> proc_ok r q qr -> proc_ok r' q qr) ->
  forall q qr, set_code p pr k ps !! q = Some qr -> proc_ok r' q qr.
Proof.
  intros Hall Hp Hother q qr. unfold set_code.
  destruct (decide (q = p)) as [->|Hne].
  - intros Hq. assert (p < length ps) as Hlt.
    { apply lookup_lt_Some in Hq. by rewrite length_insert in Hq. }
    rewrite list_lookup_insert_eq in Hq by done. by simplify_eq.
  - rewrite list_lookup_insert_ne by done. intros Hq. eapply Hother; eauto.
Qed.

(** A step that only moves the running process along its code. *)
Lemma inv_code_only s p pr k :
  Inv s ->
  proc_ok (server s) p (mkProcess (p_method pr) k) ->
  Inv (mkSim (now s) (eventlist s) (set_code p pr k (processes s)) (running s)
             (inter_arrival_time s) (service_time s) (server s)).
Proof.
  intros [] Hp. constructor; simpl; unfold ev_pids, set_code in *; simpl;
    rewrite ?length_insert; try done.
  eapply proc_ok_lookup_update; eauto.
Qed.

Lemma cust_phase n st k :
  drop n cust = st :: k ->
  k = drop (S n) cust /\
  match st with
  | SLogInfo _ _ _ => n = 0 \/ n = 3
  | SAcquire => n = 1
  | SSleepNext _ => n = 2
  | SRelease => n = 4
  | SProcess _ => False
  end.
Proof.
  do 5 (destruct n as [|n]; [vm_compute; intros; simplify_eq; auto|]).
  unfold cust; simpl. rewrite drop_nil. done.
Qed.

Lemma gen_phase n st k :
  drop n gen = st :: k ->
  k = drop (S n) gen /\
  match st with
  | SSleepNext g => n = 0 /\ g = InterArrival
  | SProcess m => n = 1 /\ m = m_customer
  | _ => False
  end.
Proof.
  do 2 (destruct n as [|n]; [vm_compute; intros; simplify_eq; auto|]).
  unfold gen; simpl. rewrite drop_nil. done.
Qed.

Lemma proc_ok_weaken r r' q qr :
  proc_ok r q qr ->
  (q ∈ arr_pids r' -> q ∈ arr_pids r) ->
  (q ∈ in_service r -> q ∈ in_service r') ->
  (q ∈ waiting r -> q ∈ in_service r' \/ q ∈ waiting r') ->
  proc_ok r' q qr.
Proof.
  unfold proc_ok. intros Hok Harr Hsrv Hwait. destruct (p_method qr).
  - destruct Hok as [Hn Hq]. split; [done|]. intros ?. apply Hq. auto.
  - destruct Hok as (n & Hc & Hn). exists n. split; [done|].
    destruct n as [|[|[|[|[|[|n]]]]]]; simpl in *; tauto.
Qed.

Lemma running_lookup s p :
  Inv s -> running s = Some p -> exists pr, processes s !! p = Some pr.
Proof.
  intros HI Hr. destruct (inv_run s HI p Hr) as [Hlt _].
  destruct (lookup_lt_is_Some_2 (processes s) p Hlt) as [pr Hpr]. eauto.
Qed.

Lemma waiting_in_arrivals s q :
  Inv s -> q ∈ waiting (server s) -> q ∈ arr_pids (server s).
Proof.
  intros HI Hq. rewrite (inv_arr_perm s HI). apply elem_of_app. by right.
Qed.

Lemma serving_in_arrivals s q :
  Inv s -> q ∈ in_service (server s) -> q ∈ arr_pids (server s).
Proof.
  intros HI Hq. rewrite (inv_arr_perm s HI). apply elem_of_app. by left.
Qed.

Lemma inv_acquire s p pr k :
  Inv s -> running s = Some p -> processes s !! p = Some pr ->
  p_code pr = SAcquire :: k ->
  let '(r, granted) := acquire (now s) p (server s) in
  Inv (mkSim (now s) (eventlist s) (set_code p pr k (processes s))
             (if granted then Some p else None)
             (inter_arrival_time s) (service_time s) r).
Proof.
  intros HI Hrun Hpr Hcode.
  pose proof (inv_procs s HI p pr Hpr) as Hok.
  destruct (inv_run s HI p Hrun) as [Hlt Hnev].
  assert (p_method pr = m_customer /\ k = drop 2 cust /\ p ∉ arr_pids (server s))
    as (Hm & -> & Hnarr).
  { unfold proc_ok in Hok. destruct (p_method pr).
    - destruct Hok as [(n & _ & Hn) _]. rewrite Hcode in Hn.
      symmetry in Hn. by apply gen_phase in Hn as [_ ?].
    - destruct Hok as (n & Hn & Hph). rewrite Hcode in Hn.
      symmetry in Hn. apply cust_phase in Hn as [-> ->]. done. }
  destruct HI. unfold acquire. rewrite inv_cap0.
  destruct (length (in_service (server s)) <? 1)%nat eqn:Hfree.
  - apply Nat.ltb_lt in Hfree.
    assert (in_service (server s) = []) as Hempty
      by (destruct (in_service (server s)); simpl in *; [done|lia]).
    constructor; simpl; unfold ev_pids, arr_pids, set_code in *; simpl;
      rewrite ?length_insert, ?fmap_app, ?Hempty; simpl; try done.
    + apply NoDup_app. split_and!; [done| |apply NoDup_singleton].
      intros x Hx Hx'. apply list_elem_of_singleton in Hx'. by subst.
    + rewrite inv_arr_perm0, Hempty. simpl. symmetry. apply Permutation_cons_append.
    + eapply proc_ok_lookup_update; eauto.
      * unfold proc_ok. rewrite Hm. simpl. exists 2. split; [done|].
        left. simpl. apply list_elem_of_singleton. done.
      * intros q qr Hne _ Hq. apply (proc_ok_weaken _ _ _ _ Hq); simpl.
        -- unfold arr_pids. simpl. rewrite fmap_app, elem_of_app. simpl.
           rewrite list_elem_of_singleton. intros [?|?]; [done|congruence].
        -- rewrite Hempty. by rewrite elem_of_nil.
        -- auto.
    + intros q Hq. rewrite <- Hrun. by apply inv_waiting0.
    + intros q [= <-]. done.
    + intros q. rewrite elem_of_app, list_elem_of_singleton. intros [?| ->]; auto.
  - apply Nat.ltb_ge in Hfree.
    constructor; simpl; unfold ev_pids, arr_pids, set_code in *; simpl;
      rewrite ?length_insert, ?fmap_app; simpl; try done.
    + apply NoDup_app. split_and!; [done| |apply NoDup_singleton].
      intros x Hx Hx'. apply list_elem_of_singleton in Hx'. by subst.
    + rewrite inv_arr_perm0. by rewrite (assoc_L (++)).
    + eapply proc_ok_lookup_update; eauto.
      * unfold proc_ok. rewrite Hm. simpl. exists 2. split; [done|].
        right. simpl. apply elem_of_app. right. by apply list_elem_of_singleton.
      * intros q qr Hne _ Hq. apply (proc_ok_weaken _ _ _ _ Hq); simpl.
        -- unfold arr_pids. simpl. rewrite fmap_app, elem_of_app. simpl.
           rewrite list_elem_of_singleton. intros [?|?]; [done|congruence].
        -- auto.
        -- intros ?. right. apply elem_of_app. by left.
    + intros q. rewrite elem_of_app, list_elem_of_singleton. intros [Hq| ->].
      * split; [done|]. by apply inv_waiting0.
      * done.
    + intros q. rewrite elem_of_app, list_elem_of_singleton. intros [?| ->]; auto.
Qed.

(** What the invariant says about the running process and its next
    statement. *)
Lemma running_customer s p pr st k :
  Inv s -> running s = Some p -> processes s !! p = Some pr ->
  p_code pr = st :: k -> p_method pr = m_customer ->
  exists n, drop n cust = st :: k /\ k = drop (S n) cust /\
    match n with
    | 0 | 1 => p ∉ arr_pids (server s)
    | 2 | 3 | 4 => p ∈ in_service (server s)
    | _ => False
    end.
Proof.
  intros HI Hrun Hpr Hcode Hm.
  pose proof (inv_procs s HI p pr Hpr) as Hok. unfold proc_ok in Hok.
  rewrite Hm in Hok. destruct Hok as (n & Hn & Hph). rewrite Hcode in Hn.
  exists n. split; [done|]. symmetry in Hn. split; [by apply cust_phase in Hn as [? _]|].
  destruct n as [|[|[|[|[|n]]]]]; try done.
  - destruct Hph as [?|Hw]; [done|]. by apply (inv_waiting s HI) in Hw as [? _].
  - unfold cust in Hn. simpl in Hn. by rewrite drop_nil in Hn.
Qed.

Lemma running_generator s p pr st k :
  Inv s -> processes s !! p = Some pr ->
  p_code pr = st :: k -> p_method pr = m_gen_arrivals ->
  exists n, drop n gen = st :: k /\ k = drop (S n) gen /\ S n <= 2 /\
            p ∉ arr_pids (server s).
Proof.
  intros HI Hpr Hcode Hm.
  pose proof (inv_procs s HI p pr Hpr) as Hok. unfold proc_ok in Hok.
  rewrite Hm in Hok. destruct Hok as [(n & Hle & Hn) Hnarr]. rewrite Hcode in Hn.
  exists n. split; [done|]. symmetry in Hn. split; [by apply gen_phase in Hn as [? _]|].
  split; [|done].
  destruct n as [|[|n]]; [lia|lia|].
  unfold gen in Hn. simpl in Hn. by rewrite drop_nil in Hn.
Qed.

Lemma inv_release s p pr k :
  Inv s -> running s = Some p -> processes s !! p = Some pr ->
  p_code pr = SRelease :: k ->
  exists r resumed,
    release (now s) p (server s) = Ok (r, resumed) /\
    Inv (mkSim (now s)
               (match resumed with
                | Some w => schedule (now s) w (eventlist s)
                | None => eventlist s
                end)
               (set_code p pr k (processes s)) (running s)
               (inter_arrival_time s) (service_time s) r).
Proof.
  intros HI Hrun Hpr Hcode.
  destruct (inv_run s HI p Hrun) as [Hlt Hnev].
  assert (p_method pr = m_customer) as Hm.
  { destruct (p_method pr) eqn:Hm; [|done].
    destruct (running_generator s p pr _ _ HI Hpr Hcode Hm) as (n & Hn & _).
    by apply gen_phase in Hn as [_ ?]. }
  destruct (running_customer s p pr _ _ HI Hrun Hpr Hcode Hm) as (n & Hn & -> & Hph).
  apply cust_phase in Hn as [_ ->]. simpl in Hph.
  pose proof (singleton_of_short p _ (inv_srv s HI) Hph) as Hsrv.
  pose proof (serving_in_arrivals s p HI Hph) as Harr.
  destruct (arrival_of_Some p _ Harr) as [ta Hta].
  assert (p ∉ waiting (server s)) as Hnw.
  { intros Hw. by apply (inv_waiting s HI) in Hw as [? _]. }
  assert (NoDup (waiting (server s))) as Hndw.
  { pose proof (inv_arr_nodup s HI) as Hnd. rewrite (inv_arr_perm s HI) in Hnd.
    by apply NoDup_app in Hnd as (_ & _ & ?). }
  assert (drop_pid p (arr_pids (server s)) ≡ₚ waiting (server s)) as Hperm.
  { unfold drop_pid. rewrite (inv_arr_perm s HI), Hsrv. simpl.
    rewrite filter_cons. destruct (decide (p <> p)); [done|].
    fold (drop_pid p (waiting (server s))). by rewrite drop_pid_notin. }
  unfold release. apply member_spec in Hph as Hmem. rewrite Hmem, Hta.
  destruct (waiting (server s)) as [|w ws] eqn:Hwait.
  - eexists _, _. split; [done|]. destruct HI.
    constructor; simpl; unfold ev_pids, arr_pids, set_code in *; simpl;
      rewrite ?length_insert, ?drop_arrival_fst, ?Hsrv; simpl; try done.
    + unfold drop_pid. rewrite filter_cons.
      destruct (decide (p <> p)); [done|]. simpl. lia.
    + by apply NoDup_filter.
    + unfold drop_pid at 2. rewrite filter_cons.
      destruct (decide (p <> p)); [done|]. by rewrite Hperm.
    + eapply proc_ok_lookup_update; eauto.
      * unfold proc_ok. rewrite Hm. simpl. exists 5. split; [done|].
        unfold arr_pids. simpl. rewrite drop_arrival_fst, elem_of_drop_pid. tauto.
      * intros q qr Hne _ Hq. apply (proc_ok_weaken _ _ _ _ Hq); simpl.
        -- unfold arr_pids. simpl. rewrite drop_arrival_fst, elem_of_drop_pid. tauto.
        -- rewrite Hsrv, list_elem_of_singleton. done.
        -- rewrite Hwait, elem_of_nil. done.
    + intros q. rewrite elem_of_nil. done.
    + intros q. rewrite elem_of_drop_pid. intros [? _]. auto.
  - assert (w ∈ waiting (server s)) as Hw by (rewrite Hwait; left).
    destruct (inv_waiting s HI w Hw) as [Hwrun Hwev].
    apply NoDup_cons in Hndw as [Hwws Hndws].
    eexists _, _. split; [done|]. destruct HI.
    constructor; simpl; unfold ev_pids, arr_pids, set_code in *; simpl;
      rewrite ?length_insert, ?drop_arrival_fst, ?Hsrv; simpl; try done.
    + unfold drop_pid. rewrite filter_cons.
      destruct (decide (p <> p)); [done|]. simpl. lia.
    + by apply NoDup_filter.
    + unfold drop_pid at 2. rewrite filter_cons.
      destruct (decide (p <> p)); [done|]. by rewrite Hperm.
    + eapply proc_ok_lookup_update; eauto.
      * unfold proc_ok. rewrite Hm. simpl. exists 5. split; [done|].
        unfold arr_pids. simpl. rewrite drop_arrival_fst, elem_of_drop_pid. tauto.
      * intros q qr Hne _ Hq. apply (proc_ok_weaken _ _ _ _ Hq); simpl.
        -- unfold arr_pids. simpl. rewrite drop_arrival_fst, elem_of_drop_pid. tauto.
        -- rewrite Hsrv, list_elem_of_singleton. done.
        -- rewrite Hwait, elem_of_cons. intros [->|?]; [left|by right].
           unfold drop_pid. rewrite filter_cons.
           destruct (decide (p <> p)); [done|]. simpl. by left.
    + intros q Hq. assert (q ∈ waiting (server s)) as Hq'
        by (rewrite Hwait; by right).
      destruct (inv_waiting0 q Hq') as [? Hqev]. split; [done|].
      rewrite elem_of_schedule. intros [->|?]; done.
    + by apply NoDup_schedule.
    + intros q. rewrite elem_of_schedule. intros [->|?]; [|by auto].
      apply inv_arr_valid0. rewrite inv_arr_perm0. apply elem_of_app. by right.
    + intros q Hq. rewrite Hrun in Hq. simplify_eq. split; [done|].
      rewrite elem_of_schedule. intros [->|?]; [|done]. by rewrite Hrun in Hwrun.
    + intros q. rewrite elem_of_drop_pid. intros [? _]. auto.
Qed.

Lemma running_not_waiting s p q :
  Inv s -> running s = Some p -> q ∈ waiting (server s) -> q <> p.
Proof. intros HI Hrun Hq ->. by apply (inv_waiting s HI) in Hq as [? _]. Qed.

Lemma proc_ok_next s p pr st k :
  Inv s -> running s = Some p -> processes s !! p = Some pr ->
  p_code pr = st :: k ->
  match st with SAcquire | SRelease => False | _ => True end ->
  proc_ok (server s) p (mkProcess (p_method pr) k).
Proof.
  intros HI Hrun Hpr Hcode Hst. unfold proc_ok. simpl.
  destruct (p_method pr) eqn:Hm.
  - destruct (running_generator s p pr _ _ HI Hpr Hcode Hm) as (n & Hn & -> & Hle & ?).
    split; [|done]. exists (S n). done.
  - destruct (running_customer s p pr _ _ HI Hrun Hpr Hcode Hm) as (n & Hn & -> & Hph).
    exists (S n). split; [done|]. apply cust_phase in Hn as [_ Hn].
    destruct st; try done; destruct n as [|[|[|[|[|n]]]]]; try done; lia.
Qed.

Lemma inv_sleep s p pr g k ia sv d :
  Inv s -> running s = Some p -> processes s !! p = Some pr ->
  p_code pr = SSleepNext g :: k ->
  Inv (mkSim (now s) (schedule (now s + d) p (eventlist s))
             (set_code p pr k (processes s)) None ia sv (server s)).
Proof.
  intros HI Hrun Hpr Hcode.
  pose proof (proc_ok_next s p pr _ _ HI Hrun Hpr Hcode I) as Hok.
  destruct (inv_run s HI p Hrun) as [Hlt Hnev].
  pose proof (running_not_waiting s p) as Hnw.
  destruct HI.
  constructor; simpl; unfold ev_pids, arr_pids, set_code in *; simpl;
    rewrite ?length_insert; try done.
  - eapply proc_ok_lookup_update; eauto.
  - intros q Hq. split; [done|]. rewrite elem_of_schedule.
    intros [->|?]; [by eapply Hnw|]. by apply inv_waiting0 in Hq as [_ ?].
  - by apply NoDup_schedule.
  - intros q. rewrite elem_of_schedule. intros [->|?]; auto.
Qed.

Lemma inv_spawn s p pr m k :
  Inv s -> running s = Some p -> processes s !! p = Some pr ->
  p_code pr = SProcess m :: k ->
  Inv (mkSim (now s) (schedule (now s) (length (processes s)) (eventlist s))
             (set_code p pr k (processes s) ++ [mkProcess m (body_code (method_body m))])
             (running s) (inter_arrival_time s) (service_time s) (server s)).
Proof.
  intros HI Hrun Hpr Hcode.
  pose proof (proc_ok_next s p pr _ _ HI Hrun Hpr Hcode I) as Hok.
  destruct (inv_run s HI p Hrun) as [Hlt Hnev].
  assert (m = m_customer) as ->.
  { destruct (p_method pr) eqn:Hm.
    - destruct (running_generator s p pr _ _ HI Hpr Hcode Hm) as (n & Hn & _).
      by apply gen_phase in Hn as [_ [_ ?]].
    - destruct (running_customer s p pr _ _ HI Hrun Hpr Hcode Hm) as (n & Hn & _).
      by apply cust_phase in Hn as [_ ?]. }
  pose proof (waiting_in_arrivals s) as Hwa.
  destruct HI.
  constructor; simpl; unfold ev_pids, arr_pids, set_code in *; simpl;
    rewrite ?length_app, ?length_insert; simpl; try done.
  - intros q qr Hq. apply lookup_app_Some in Hq as [Hq|[Hge Hq]].
    + revert q qr Hq. eapply proc_ok_lookup_update; eauto.
    + rewrite length_insert in Hge, Hq.
      destruct (q - length (processes s)) as [|?] eqn:Hd; [|done].
      simpl in Hq. simplify_eq. unfold proc_ok. simpl. exists 0. split; [done|].
      intros Hin. apply inv_arr_valid0 in Hin. lia.
  - intros q Hq. split; [by apply inv_waiting0|]. rewrite elem_of_schedule.
    intros [->|?]; [|by apply inv_waiting0 in Hq as [_ ?]].
    apply Hwa in Hq; [|by constructor]. apply inv_arr_valid0 in Hq. lia.
  - apply NoDup_schedule; [done|]. intros Hin. apply inv_ev_valid0 in Hin. lia.
  - intros q. rewrite elem_of_schedule. intros [->|Hin]; [lia|].
    apply inv_ev_valid0 in Hin. lia.
  - intros q Hq. rewrite Hrun in Hq. simplify_eq. split; [lia|].
    rewrite elem_of_schedule. intros [->|?]; [lia|done].
  - intros q Hin. apply inv_arr_valid0 in Hin. lia.
Qed.

Lemma inv_return s :
  Inv s ->
  Inv (mkSim (now s) (eventlist s) (processes s) None
             (inter_arrival_time s) (service_time s) (server s)).
Proof.
  intros []. constructor; simpl; unfold ev_pids in *; simpl; try done.
  intros q Hq. split; [done|]. by apply inv_waiting0 in Hq as [_ ?].
Qed.

Lemma inv_wake s t p evs :
  Inv s -> eventlist s = (t, p) :: evs ->
  Inv (mkSim t evs (processes s) (Some p)
             (inter_arrival_time s) (service_time s) (server s)).
Proof.
  intros [] Hev. unfold ev_pids in *. rewrite Hev in *. simpl in *.
  apply NoDup_cons in inv_ev_nodup0 as [Hp Hnd].
  constructor; simpl; unfold ev_pids; simpl; try done.
  - intros q Hq. apply inv_waiting0 in Hq as [_ Hq].
    apply not_elem_of_cons in Hq as [? ?]. split; [congruence|done].
  - intros q Hq. apply inv_ev_valid0. by right.
  - intros q [= <-]. split; [|done]. apply inv_ev_valid0. by left.
Qed.

(** The invariant is kept by every step. *)
Lemma step_inv g s l s' : Inv s -> step g s = Step l s' -> Inv s'.
Proof.
  intros HI. unfold step.
  destruct (running s) as [p|] eqn:Hrun.
  - destruct (running_lookup s p HI Hrun) as [pr Hpr]. rewrite Hpr.
    destruct (p_code pr) as [|st k] eqn:Hcode.
    + destruct (p_method pr) eqn:Hm; simpl; intros [= <- <-].
      * rewrite <- Hrun. apply inv_code_only; [done|].
        unfold proc_ok. simpl. rewrite Hm. split; [exists 0; split; [lia|done]|].
        pose proof (inv_procs s HI p pr Hpr) as Hok. unfold proc_ok in Hok.
        rewrite Hm in Hok. tauto.
      * by apply inv_return.
    + destruct st as [fmt x delta| |sid| |m]; simpl.
      * destruct (eval_now g x s); simpl; [|done]. intros [= <- <-].
        apply inv_code_only; [done|].
        by eapply proc_ok_next.
      * pose proof (inv_acquire s p pr k HI Hrun Hpr Hcode) as Ha.
        destruct (acquire (now s) p (server s)) as [r granted]. by intros [= <- <-].
      * destruct (Qlt_le_dec _ _); [done|].
        destruct sid; simpl; intros [= <- <-]; by eapply inv_sleep.
      * destruct (inv_release s p pr k HI Hrun Hpr Hcode) as (r & resumed & -> & Hr).
        simpl. by intros [= <- <-].
      * intros [= <- <-]. by eapply inv_spawn.
  - destruct (eventlist s) as [|[t p] evs] eqn:Hev; [done|].
    intros [= <- <-]. by eapply inv_wake.
Qed.

(** With the invariant, a step can only fail on the unbound global name
    or on a negative draw. *)
Lemma step_crash g s e :
  Inv s -> step g s = Crash e ->
  (g = Unbound /\ e = NameError "sim") \/ e = ValueError "sleep: negative offset".
Proof.
  intros HI. unfold step.
  destruct (running s) as [p|] eqn:Hrun.
  - destruct (running_lookup s p HI Hrun) as [pr Hpr]. rewrite Hpr.
    destruct (p_code pr) as [|st k] eqn:Hcode.
    + by destruct (method_body (p_method pr)).
    + destruct st as [fmt x delta| |sid| |m]; simpl.
      * destruct x, g; simpl; try done. intros [= <-]. by left.
      * by destruct (acquire (now s) p (server s)) as [r granted].
      * destruct (Qlt_le_dec _ _); [intros [= <-]; by right|].
        by destruct sid.
      * by destruct (inv_release s p pr k HI Hrun Hpr Hcode) as (r & resumed & -> & Hr).
      * done.
  - by destruct (eventlist s) as [|[t p] evs].
Qed.

Lemma inv_fresh iat svt dc : Inv (fresh_queue iat svt dc).
Proof.
  constructor; simpl; unfold ev_pids, arr_pids; simpl; try done.
  - lia.
  - constructor.
  - intros [|p] pr Hp; [|done]. simpl in Hp. simplify_eq.
    split; [exists 0; split; [lia|done]|]. apply not_elem_of_nil.
  - intros p. by rewrite elem_of_nil.
  - apply NoDup_singleton.
  - intros p. rewrite list_elem_of_singleton. intros ->. lia.
  - intros p. by rewrite elem_of_nil.
Qed.

Lemma reach_inv g s0 tr s : Inv s0 -> reach g s0 tr s -> Inv s.
Proof. intros H0. induction 1; [done|]. by eapply step_inv. Qed.

(** ** How a step shows in the process table and in the server *)

(** The process table after a step, by its label. *)
Lemma step_processes g s l s' :
  step g s = Step l s' ->
  match l with
  | LWake p t =>
      running s = None /\ processes s' = processes s /\
      exists evs, eventlist s = (t, p) :: evs
  | LReturn p =>
      running s = Some p /\ processes s' = processes s /\
      exists pr, processes s !! p = Some pr /\ p_code pr = [] /\
                 p_method pr = m_customer
  | LLoop p =>
      running s = Some p /\
      exists pr, processes s !! p = Some pr /\ p_code pr = [] /\
                 p_method pr = m_gen_arrivals /\
                 processes s' = set_code p pr gen (processes s)
  | LSpawn p m child =>
      running s = Some p /\ child = length (processes s) /\
      exists pr k, processes s !! p = Some pr /\ p_code pr = SProcess m :: k /\
                   processes s' = set_code p pr k (processes s)
                                    ++ [mkProcess m (body_code (method_body m))]
  | _ =>
      running s = Some (label_pid l) /\
      exists pr st k, processes s !! label_pid l = Some pr /\ p_code pr = st :: k /\
                      action_of_label l = Some (action_of_stmt st) /\
                      processes s' = set_code (label_pid l) pr k (processes s)
  end.
Proof.
  unfold step. destruct (running s) as [p|] eqn:Hrun.
  - destruct (processes s !! p) as [pr|] eqn:Hpr; [|done].
    destruct (p_code pr) as [|st k] eqn:Hcode.
    + destruct (p_method pr) eqn:Hm; simpl; intros [= <- <-]; simpl; eauto 10.
    + destruct st as [fmt x delta| |sid| |m]; simpl.
      * destruct (eval_now g x s); simpl; [|done]. intros [= <- <-]. simpl.
        split; [done|]. eexists _, _, _. split_and!; eauto. simpl. do 2 f_equal. lia.
      * destruct (acquire (now s) p (server s)) as [r granted].
        intros [= <- <-]. simpl. split; [done|]. eexists _, _, _. split_and!; eauto.
      * destruct (Qlt_le_dec _ _); [done|].
        destruct sid; simpl; intros [= <- <-]; simpl;
          (split; [done|]); eexists _, _, _; split_and!; eauto.
      * destruct (release (now s) p (server s)) as [[r resumed]|]; simpl; [|done].
        intros [= <- <-]. simpl. split; [done|]. eexists _, _, _. split_and!; eauto.
      * intros [= <- <-]. simpl. split_and!; eauto.
  - destruct (eventlist s) as [|[t p] evs]; [done|]. intros [= <- <-]. eauto.
Qed.

(** The scheduler's side of a step: who runs next and what is scheduled. *)
Lemma step_sched g s l s' :
  step g s = Step l s' ->
  match l with
  | LWake p t =>
      exists evs, eventlist s = (t, p) :: evs /\ eventlist s' = evs /\
                  running s' = Some p /\ now s' = t
  | LSleep p _ d =>
      now s' = now s /\ running s' = None /\
      eventlist s' = schedule (now s + d) p (eventlist s)
  | LSpawn _ _ child =>
      now s' = now s /\ running s' = running s /\
      eventlist s' = schedule (now s) child (eventlist s)
  | LRelease _ _ resumed =>
      now s' = now s /\ running s' = running s /\
      eventlist s' = match resumed with
                     | Some w => schedule (now s) w (eventlist s)
                     | None => eventlist s
                     end
  | LAcquire p _ granted =>
      now s' = now s /\ eventlist s' = eventlist s /\
      running s' = if granted then Some p else None
  | LReturn _ => now s' = now s /\ eventlist s' = eventlist s /\ running s' = None
  | LLog _ _ | LLoop _ =>
      now s' = now s /\ eventlist s' = eventlist s /\ running s' = running s
  end.
Proof.
  unfold step. destruct (running s) as [p|] eqn:Hrun.
  - destruct (processes s !! p) as [pr|] eqn:Hpr; [|done].
    destruct (p_code pr) as [|st k] eqn:Hcode.
    + destruct (method_body (p_method pr)); by intros [= <- <-].
    + destruct st as [fmt x delta| |sid| |m]; simpl.
      * destruct (eval_now g x s); simpl; [|done]. by intros [= <- <-].
      * destruct (acquire (now s) p (server s)) as [r granted]. by intros [= <- <-].
      * destruct (Qlt_le_dec _ _); [done|]. destruct sid; by intros [= <- <-].
      * destruct (release (now s) p (server s)) as [[r resumed]|]; simpl; [|done].
        by intros [= <- <-].
      * by intros [= <- <-].
  - destruct (eventlist s) as [|[t p] evs]; [done|]. intros [= <- <-]. eauto.
Qed.

(** The server after a step, by its label. *)
Lemma step_server g s l s' :
  step g s = Step l s' ->
  match l with
  | LAcquire p t granted =>
      t = now s /\ arrivals (server s') = arrivals (server s) ++ [(p, t)] /\
      collect (server s') = collect (server s)
  | LRelease p t resumed =>
      t = now s /\ p ∈ in_service (server s) /\
      resumed = head (waiting (server s)) /\
      exists ta, arrival_of p (server s) = Some ta /\
        arrivals (server s') = drop_arrival p (arrivals (server s)) /\
        collect (server s') = (fun xs => xs ++ [(t - ta)%Q]) <$> collect (server s)
  | _ => server s' = server s
  end.
Proof.
  unfold step. destruct (running s) as [p|] eqn:Hrun.
  - destruct (processes s !! p) as [pr|] eqn:Hpr; [|done].
    destruct (p_code pr) as [|st k] eqn:Hcode.
    + destruct (method_body (p_method pr)); by intros [= <- <-].
    + destruct st as [fmt x delta| |sid| |m]; simpl.
      * destruct (eval_now g x s); simpl; [|done]. by intros [= <- <-].
      * unfold acquire.
        destruct (_ <? _)%nat; intros [= <- <-]; simpl; done.
      * destruct (Qlt_le_dec _ _); [done|]. destruct sid; by intros [= <- <-].
      * unfold release. destruct (member p _) eqn:Hmem; [|done].
        apply member_spec in Hmem.
        destruct (arrival_of p _) as [ta|] eqn:Hta; [|done].
        destruct (waiting (server s)); simpl; intros [= <- <-]; simpl;
          (split; [done|]); (split; [done|]); (split; [done|]); by exists ta.
      * by intros [= <- <-].
  - destruct (eventlist s) as [|[t p] evs]; [done|]. by intros [= <- <-].
Qed.

Lemma actions_snoc p tr l :
  actions p (tr ++ [l]) =
  actions p tr ++ (if Nat.eqb (label_pid l) p then option_list (action_of_label l) else []).
Proof.
  unfold actions. rewrite omap_app. f_equal. simpl.
  destruct (Nat.eqb _ _); [|done]. by destruct (action_of_label l).
Qed.

Lemma actions_none p tr :
  (forall l, l ∈ tr -> label_pid l <> p) -> actions p tr = [].
Proof.
  induction tr as [|l tr IH]; [done|]. intros Hall. unfold actions. simpl.
  destruct (Nat.eqb_spec (label_pid l) p) as [Heq|_].
  - exfalso. eapply Hall; [by left|done].
  - apply IH. intros l' Hl'. apply Hall. by right.
Qed.

Lemma count_snoc f tr l :
  count f (tr ++ [l]) = count f tr + (if f l then 1 else 0).
Proof.
  unfold count. rewrite List.filter_app, length_app. simpl. by destruct (f l).
Qed.

Lemma acquire_time_app p tr tr' ta :
  acquire_time p tr = Some ta -> acquire_time p (tr ++ tr') = Some ta.
Proof.
  induction tr as [|l tr IH]; [done|]. simpl.
  destruct l; auto. destruct (Nat.eqb _ _); auto.
Qed.

Lemma acquire_time_actions p tr ta :
  acquire_time p tr = Some ta -> AAcquire ∈ actions p tr.
Proof.
  induction tr as [|l tr IH]; [done|]. unfold actions. simpl.
  destruct l; simpl; try (intros H; apply IH in H; destruct (Nat.eqb _ _); simpl;
    [try (by right); done|done]).
  - destruct (Nat.eqb_spec p0 p); simpl; [by left|done].
Qed.

Lemma acquire_time_snoc_fresh p tr t granted :
  acquire_time p tr = None ->
  acquire_time p (tr ++ [LAcquire p t granted]) = Some t.
Proof.
  induction tr as [|l tr IH]; simpl.
  - by rewrite Nat.eqb_refl.
  - destruct l; auto. destruct (Nat.eqb _ _); [done|auto].
Qed.

Lemma omap_ext_in {A B} (f g : A -> option B) (l : list A) :
  (forall x, x ∈ l -> f x = g x) -> omap f l = omap g l.
Proof.
  induction l as [|x l IH]; [done|]. intros Heq. simpl.
  rewrite (Heq x) by by left.
  assert (omap f l = omap g l) as Hl
    by (apply IH; intros y Hy; apply Heq; by right).
  destruct (g x); [f_equal|]; exact Hl.
Qed.

Lemma samples_of_snoc tr l :
  (forall p t w, LRelease p t w ∈ tr -> is_Some (acquire_time p tr)) ->
  samples_of (tr ++ [l]) =
  samples_of tr ++
    match l with
    | LRelease p t _ =>
        option_list ((fun ta => (t - ta)%Q) <$> acquire_time p (tr ++ [l]))
    | _ => []
    end.
Proof.
  intros Hrel. unfold samples_of. rewrite omap_app. f_equal.
  - apply omap_ext_in. intros l' Hl'. destruct l'; try done.
    destruct (Hrel _ _ _ Hl') as [ta Hta].
    by rewrite (acquire_time_app _ _ _ _ Hta), Hta.
  - simpl. destruct l; try done; by destruct (acquire_time _ _).
Qed.

Lemma step_length g s l s' :
  step g s = Step l s' -> length (processes s) <= length (processes s').
Proof.
  intros Hs. apply step_processes in Hs.
  destruct l; simpl in Hs;
    repeat match goal with
           | H : _ /\ _ |- _ => destruct H
           | H : exists _, _ |- _ => destruct H
           end;
    repeat match goal with H : processes s' = _ |- _ => rewrite H; clear H end;
    unfold set_code; rewrite ?length_app, ?length_insert; lia.
Qed.

Lemma step_pid_valid g s l s' :
  Inv s -> step g s = Step l s' -> label_pid l < length (processes s).
Proof.
  intros HI Hs. apply step_processes in Hs.
  destruct l; simpl in *;
    try (destruct Hs as [Hrun _]; by apply (inv_run s HI) in Hrun as [? _]).
  destruct Hs as (_ & _ & evs & Hev). apply (inv_ev_valid s HI).
  unfold ev_pids. rewrite Hev. by left.
Qed.

Lemma set_code_lookup q pr k ps p pr' :
  set_code q pr k ps !! p = Some pr' ->
  (p = q /\ pr' = mkProcess (p_method pr) k) \/ (p <> q /\ ps !! p = Some pr').
Proof.
  unfold set_code. destruct (decide (p = q)) as [->|Hne].
  - intros Hq. assert (q < length ps) as Hlt.
    { apply lookup_lt_Some in Hq. by rewrite length_insert in Hq. }
    rewrite list_lookup_insert_eq in Hq by done. left. by simplify_eq.
  - rewrite list_lookup_insert_ne by done. by right.
Qed.

Lemma spawn_customer s p pr m k :
  Inv s -> running s = Some p -> processes s !! p = Some pr ->
  p_code pr = SProcess m :: k ->
  m = m_customer /\ p_method pr = m_gen_arrivals.
Proof.
  intros HI Hrun Hpr Hcode. destruct (p_method pr) eqn:Hm.
  - destruct (running_generator s p pr _ _ HI Hpr Hcode Hm) as (n & Hn & _).
    by apply gen_phase in Hn as [_ [_ ?]].
  - destruct (running_customer s p pr _ _ HI Hrun Hpr Hcode Hm) as (n & Hn & _).
    by apply cust_phase in Hn as [_ ?].
Qed.

Lemma script_gen_more n :
  script m_gen_arrivals (S n) = script m_gen_arrivals n ++ (action_of_stmt <$> gen).
Proof. unfold script. by rewrite replicate_S_end, join_app. Qed.

(** A step extends what each process has done by the statement it
    executed, and keeps the rest. *)
Lemma step_hist_acts dc g s tr l s' :
  Inv s -> Hist dc tr s -> step g s = Step l s' ->
  forall p pr, processes s' !! p = Some pr ->
    (exists n, actions p (tr ++ [l]) ++ (action_of_stmt <$> p_code pr)
               = script (p_method pr) n) /\
    (p_method pr = m_gen_arrivals <-> p = 0).
Proof.
  intros HI HH Hs p pr' Hp. rewrite actions_snoc.
  pose proof (step_processes _ _ _ _ Hs) as Hsh.
  assert (forall q qr, processes s !! q = Some qr ->
            (label_pid l <> q \/ action_of_label l = None) ->
            (exists n, (actions q tr ++
               (if Nat.eqb (label_pid l) q then option_list (action_of_label l) else []))
               ++ (action_of_stmt <$> p_code qr) = script (p_method qr) n) /\
            (p_method qr = m_gen_arrivals <-> q = 0)) as Hsame.
  { intros q qr Hq Hl. split; [|by eapply hist_gen].
    destruct (hist_acts _ _ _ HH q qr Hq) as [n Hn]. exists n.
    destruct Hl as [Hl| ->]; [|destruct (Nat.eqb _ _)]; rewrite ?app_nil_r; try done.
    apply Nat.eqb_neq in Hl. rewrite Hl. by rewrite app_nil_r. }
  assert (forall prq st k, processes s !! label_pid l = Some prq ->
            p_code prq = st :: k ->
            action_of_label l = Some (action_of_stmt st) ->
            set_code (label_pid l) prq k (processes s) !! p = Some pr' ->
            (exists n, (actions p tr ++
               (if Nat.eqb (label_pid l) p then option_list (action_of_label l) else []))
               ++ (action_of_stmt <$> p_code pr') = script (p_method pr') n) /\
            (p_method pr' = m_gen_arrivals <-> p = 0)) as Hmove.
  { intros prq st k Hq Hcode Hact Hp'.
    apply set_code_lookup in Hp' as [[-> ->]|[Hne Hp']]; [|apply Hsame; auto].
    simpl. split; [|by eapply hist_gen].
    destruct (hist_acts _ _ _ HH _ prq Hq) as [n Hn]. exists n.
    rewrite Nat.eqb_refl, Hact. simpl. rewrite <- Hn, Hcode, fmap_cons.
    by rewrite <- (assoc_L (++)). }
  destruct l; simpl in Hsh.
  - destruct Hsh as (_ & Hps & _). rewrite Hps in Hp. apply Hsame; auto.
  - destruct Hsh as (_ & prq & st & k & ? & ? & ? & Hps). rewrite Hps in Hp.
    eapply Hmove; eauto.
  - destruct Hsh as (_ & prq & st & k & ? & ? & ? & Hps). rewrite Hps in Hp.
    eapply Hmove; eauto.
  - destruct Hsh as (_ & prq & st & k & ? & ? & ? & Hps). rewrite Hps in Hp.
    eapply Hmove; eauto.
  - destruct Hsh as (_ & prq & st & k & ? & ? & ? & Hps). rewrite Hps in Hp.
    eapply Hmove; eauto.
  - destruct Hsh as (Hrun & -> & prq & k & Hq & Hcode & Hps). rewrite Hps in Hp.
    apply lookup_app_Some in Hp as [Hp|[Hge Hp]].
    + eapply (Hmove prq (SProcess m) k); eauto.
    + unfold set_code in Hge, Hp. rewrite length_insert in Hge, Hp.
      destruct (p - length (processes s)) as [|?] eqn:Hd; [|done].
      simpl in Hp. simplify_eq. simpl.
      assert (p = length (processes s)) as -> by lia.
      destruct (spawn_customer s p0 prq m k HI Hrun Hq Hcode) as [-> _].
      apply lookup_lt_Some in Hq.
      rewrite actions_none.
      2:{ intros l Hl. apply (hist_pids _ _ _ HH) in Hl. lia. }
      assert ((p0 =? length (processes s)) = false) as -> by (apply Nat.eqb_neq; lia).
      simpl. split; [exists 0; reflexivity|]. split; [done|lia].
  - destruct Hsh as (_ & prq & Hq & Hcode & Hm & Hps). rewrite Hps in Hp.
    apply set_code_lookup in Hp as [[-> ->]|[Hne Hp]]; [|apply Hsame; auto].
    simpl. split; [|by eapply hist_gen]. rewrite Hm.
    destruct (hist_acts _ _ _ HH _ prq Hq) as [n Hn]. exists (S n).
    rewrite Nat.eqb_refl, app_nil_r, script_gen_more. f_equal.
    rewrite Hm, Hcode in Hn. simpl in Hn. by rewrite app_nil_r in Hn.
  - destruct Hsh as (_ & Hps & _). rewrite Hps in Hp. apply Hsame; auto.
Qed.

Lemma arrival_of_elem p r ta : arrival_of p r = Some ta -> (p, ta) ∈ arrivals r.
Proof.
  unfold arrival_of. destruct (List.find _ _) as [[q t]|] eqn:Hf; [|done].
  simpl. intros [= ->]. apply find_some in Hf as [Hin Heq]. simpl in Heq.
  apply Nat.eqb_eq in Heq as ->. by apply list_elem_of_In.
Qed.

(** The arrival process only sleeps, spawns and loops. *)
Lemma gen_labels dc g s tr l s' :
  Inv s -> Hist dc tr s -> step g s = Step l s' -> label_pid l = 0 ->
  match l with
  | LWake _ _ | LSleep _ _ _ | LSpawn _ _ _ | LLoop _ => True
  | _ => False
  end.
Proof.
  intros HI HH Hs Hl. pose proof (step_processes _ _ _ _ Hs) as Hsh.
  destruct l; simpl in *; try done; subst.
  - destruct Hsh as (_ & pr & st & k & Hq & Hcode & Hact & _).
    pose proof (proj2 (hist_gen _ _ _ HH 0 pr Hq) eq_refl) as Hm.
    destruct (running_generator s 0 pr _ _ HI Hq Hcode Hm) as (n & Hn & _).
    apply gen_phase in Hn as [_ Hn]. by destruct st.
  - destruct Hsh as (_ & pr & st & k & Hq & Hcode & Hact & _).
    pose proof (proj2 (hist_gen _ _ _ HH 0 pr Hq) eq_refl) as Hm.
    destruct (running_generator s 0 pr _ _ HI Hq Hcode Hm) as (n & Hn & _).
    apply gen_phase in Hn as [_ Hn]. by destruct st.
  - destruct Hsh as (_ & pr & st & k & Hq & Hcode & Hact & _).
    pose proof (proj2 (hist_gen _ _ _ HH 0 pr Hq) eq_refl) as Hm.
    destruct (running_generator s 0 pr _ _ HI Hq Hcode Hm) as (n & Hn & _).
    apply gen_phase in Hn as [_ Hn]. by destruct st.
  - destruct Hsh as (_ & _ & pr & Hq & _ & Hm).
    pose proof (proj2 (hist_gen _ _ _ HH 0 pr Hq) eq_refl). congruence.
Qed.

Lemma step_hist_alive dc g s tr l s' :
  Inv s -> Hist dc tr s -> step g s = Step l s' ->
  running s' = Some 0 \/ 0 ∈ ev_pids s'.
Proof.
  intros HI HH Hs. pose proof (gen_labels _ _ _ _ _ _ HI HH Hs) as Hgen.
  pose proof (step_sched _ _ _ _ Hs) as Hsc.
  pose proof (step_processes _ _ _ _ Hs) as Hsh.
  pose proof (hist_alive _ _ _ HH) as Halive.
  unfold ev_pids in *.
  assert (label_pid l <> 0 -> running s = Some (label_pid l) -> 0 ∈ (eventlist s).*2)
    as Hother.
  { intros Hne Hrun. destruct Halive as [Hr|?]; [|done]. congruence. }
  destruct l; simpl in *.
  - destruct Hsc as (evs & Hev & -> & -> & _). rewrite Hev in Halive. simpl in Halive.
    destruct Halive as [Hr|Hin]; [destruct Hsh; congruence|].
    apply elem_of_cons in Hin as [<-|?]; auto.
  - destruct Hsc as (_ & -> & ->). destruct Hsh as [Hrun _].
    destruct (decide (p = 0)) as [->|Hne]; [tauto|]. right. by apply Hother.
  - destruct Hsc as (_ & -> & _). destruct Hsh as [Hrun _].
    destruct (decide (p = 0)) as [->|Hne]; [tauto|]. right. by apply Hother.
  - destruct Hsc as (_ & _ & ->). destruct Hsh as [Hrun _]. right.
    apply elem_of_schedule.
    destruct (decide (p = 0)) as [->|Hne]; [by left|]. right. by apply Hother.
  - destruct Hsc as (_ & -> & ->). destruct Hsh as [Hrun _].
    destruct (decide (p = 0)) as [->|Hne]; [tauto|].
    right. destruct resumed; [apply elem_of_schedule; right|]; by apply Hother.
  - destruct Hsc as (_ & -> & ->). destruct Hsh as [Hrun _].
    destruct (decide (p = 0)) as [->|Hne]; [by left|].
    right. apply elem_of_schedule; right. by apply Hother.
  - destruct Hsc as (_ & -> & ->). destruct Hsh as [Hrun _].
    destruct (decide (p = 0)) as [->|Hne]; [by left|]. right. by apply Hother.
  - destruct Hsc as (_ & -> & _). destruct Hsh as [Hrun _].
    destruct (decide (p = 0)) as [->|Hne]; [tauto|]. right. by apply Hother.
Qed.

Lemma length_drop_arrival p l :
  NoDup (fst <$> l) -> p ∈ (fst <$> l) -> S (length (drop_arrival p l)) = length l.
Proof.
  intros Hnd Hin. rewrite <- (length_fmap fst (drop_arrival p l)), drop_arrival_fst.
  rewrite length_drop_pid by done. apply length_fmap.
Qed.

Lemma step_hist_count dc g s tr l s' :
  Inv s -> Hist dc tr s -> step g s = Step l s' ->
  length (arrivals (server s')) + count is_release (tr ++ [l])
  = count is_acquire (tr ++ [l]).
Proof.
  intros HI HH Hs. pose proof (step_server _ _ _ _ Hs) as Hsv.
  pose proof (hist_count _ _ _ HH) as Hc. rewrite !count_snoc.
  destruct l; simpl in *; rewrite ?Hsv; try lia.
  - destruct Hsv as (_ & -> & _). rewrite length_app. simpl. lia.
  - destruct Hsv as (_ & Hin & _ & ta & _ & -> & _).
    pose proof (length_drop_arrival p _ (inv_arr_nodup s HI)
                  (serving_in_arrivals s p HI Hin)). lia.
Qed.

Lemma step_hist_spawned dc g s tr l s' :
  Hist dc tr s -> step g s = Step l s' ->
  length (processes s') = S (count is_spawn (tr ++ [l])).
Proof.
  intros HH Hs. pose proof (step_processes _ _ _ _ Hs) as Hsh.
  pose proof (hist_spawned _ _ _ HH) as Hc. rewrite count_snoc.
  destruct l; simpl in Hsh;
    repeat match goal with
           | H : _ /\ _ |- _ => destruct H
           | H : exists _, _ |- _ => destruct H
           end;
    repeat match goal with H : processes s' = _ |- _ => rewrite H; clear H end;
    unfold set_code; rewrite ?length_app, ?length_insert; simpl; lia.
Qed.

(** A process about to call [acquire] has not called it before. *)
Lemma acquire_first dc s tr p pr k :
  Inv s -> Hist dc tr s -> running s = Some p -> processes s !! p = Some pr ->
  p_code pr = SAcquire :: k -> acquire_time p tr = None.
Proof.
  intros HI HH Hrun Hpr Hcode.
  destruct (acquire_time p tr) as [ta|] eqn:Hta; [|done]. exfalso.
  apply acquire_time_actions in Hta.
  assert (p_method pr = m_customer) as Hm.
  { destruct (p_method pr) eqn:Hm; [|done].
    destruct (running_generator s p pr _ _ HI Hpr Hcode Hm) as (n & Hn & _).
    by apply gen_phase in Hn as [_ ?]. }
  destruct (running_customer s p pr _ _ HI Hrun Hpr Hcode Hm) as (n & Hn & -> & _).
  apply cust_phase in Hn as [_ ->].
  destruct (hist_acts _ _ _ HH p pr Hpr) as [i Hi].
  rewrite Hm, Hcode in Hi. unfold script, cust in Hi. simpl in Hi.
  assert (actions p tr ++ [AAcquire; ASleep Service; ALog arrive_fmt (-1); ARelease]
          = [ALog arrive_fmt 1] ++
            [AAcquire; ASleep Service; ALog arrive_fmt (-1); ARelease]) as Hi'
    by exact Hi.
  apply app_inv_tail in Hi'. rewrite Hi' in Hta.
  by apply list_elem_of_singleton in Hta.
Qed.

Lemma step_hist_arr dc g s tr l s' :
  Inv s -> Hist dc tr s -> step g s = Step l s' ->
  forall p ta, (p, ta) ∈ arrivals (server s') -> acquire_time p (tr ++ [l]) = Some ta.
Proof.
  intros HI HH Hs q ta. pose proof (step_server _ _ _ _ Hs) as Hsv.
  pose proof (step_processes _ _ _ _ Hs) as Hsh.
  pose proof (hist_arr _ _ _ HH) as Harr.
  destruct l; simpl in *; rewrite ?Hsv; try (intros; apply acquire_time_app; by auto).
  - destruct Hsv as (-> & -> & _). rewrite elem_of_app, list_elem_of_singleton.
    intros [?|[= -> ->]]; [apply acquire_time_app; by auto|].
    destruct Hsh as (Hrun & pr & st & k & Hq & Hcode & Hact & _).
    apply acquire_time_snoc_fresh. destruct st; try done.
    by eapply acquire_first.
  - destruct Hsv as (_ & _ & _ & ta' & _ & -> & _). unfold drop_arrival.
    rewrite list_elem_of_filter. intros [_ ?]. apply acquire_time_app; by auto.
Qed.

Lemma step_hist_rel dc g s tr l s' :
  Hist dc tr s -> step g s = Step l s' ->
  forall p t w, LRelease p t w ∈ tr ++ [l] -> is_Some (acquire_time p (tr ++ [l])).
Proof.
  intros HH Hs p t w. pose proof (step_server _ _ _ _ Hs) as Hsv.
  rewrite elem_of_app, list_elem_of_singleton. intros [Hin| <-].
  - destruct (hist_rel _ _ _ HH _ _ _ Hin) as [ta Hta]. exists ta.
    by apply acquire_time_app.
  - simpl in Hsv. destruct Hsv as (_ & _ & _ & ta & Hta & _).
    apply arrival_of_elem, (hist_arr _ _ _ HH) in Hta. exists ta.
    by apply acquire_time_app.
Qed.

Lemma step_hist_collect dc g s tr l s' :
  Hist dc tr s -> step g s = Step l s' ->
  collect (server s') = (fun xs => xs ++ samples_of (tr ++ [l])) <$> dc.
Proof.
  intros HH Hs. pose proof (step_server _ _ _ _ Hs) as Hsv.
  rewrite (samples_of_snoc _ _ (hist_rel _ _ _ HH)).
  pose proof (hist_collect _ _ _ HH) as Hc.
  destruct l; simpl in *; rewrite ?Hsv, ?app_nil_r; try done.
  - by destruct Hsv as (_ & _ & ->).
  - destruct Hsv as (_ & _ & _ & ta & Hta & _ & ->).
    apply arrival_of_elem, (hist_arr _ _ _ HH) in Hta.
    rewrite (acquire_time_app _ _ _ _ Hta), Hc. simpl.
    destruct dc; simpl; [|done]. by rewrite (assoc_L (++)).
Qed.

(** The trace invariant is kept by every step. *)
Lemma step_hist dc g s tr l s' :
  Inv s -> Hist dc tr s -> step g s = Step l s' -> Hist dc (tr ++ [l]) s'.
Proof.
  intros HI HH Hs. constructor.
  - intros l'. rewrite elem_of_app, list_elem_of_singleton.
    pose proof (step_length _ _ _ _ Hs).
    intros [Hl'| ->].
    + apply (hist_pids _ _ _ HH) in Hl'. lia.
    + pose proof (step_pid_valid _ _ _ _ HI Hs). lia.
  - intros p pr Hp. by eapply step_hist_acts.
  - intros p pr Hp. by eapply step_hist_acts.
  - by eapply step_hist_alive.
  - by eapply step_hist_count.
  - by eapply step_hist_spawned.
  - by eapply step_hist_arr.
  - by eapply step_hist_rel.
  - by eapply step_hist_collect.
Qed.

Lemma hist_fresh iat svt dc : Hist dc [] (fresh_queue iat svt dc).
Proof.
  constructor; simpl; try done.
  - intros l Hl. by apply elem_of_nil in Hl.
  - intros [|p] pr Hp; [|done]. simpl in Hp. simplify_eq. by exists 1.
  - intros [|p] pr Hp; [|done]. simpl in Hp. by simplify_eq.
  - right. unfold ev_pids. simpl. by left.
  - intros p ta Hin. by apply elem_of_nil in Hin.
  - intros p t w Hin. by apply elem_of_nil in Hin.
  - destruct dc; simpl; [|done]. by rewrite app_nil_r.
Qed.

(** Both invariants hold all along every run of a new queue. *)
Lemma reach_fresh g iat svt dc tr s :
  reach g (fresh_queue iat svt dc) tr s -> Inv s /\ Hist dc tr s.
Proof.
  induction 1 as [|tr s l s' _ [HI HH] Hs].
  - split; [apply inv_fresh|apply hist_fresh].
  - split; [by eapply step_inv|by eapply step_hist].
Qed.

Lemma step_streams g s l s' :
  step g s = Step l s' ->
  match l with
  | LSleep p InterArrival d =>
      d = draws (inter_arrival_time s) (pos (inter_arrival_time s)) /\
      inter_arrival_time s' = snd (next (inter_arrival_time s)) /\
      service_time s' = service_time s
  | LSleep p Service d =>
      d = draws (service_time s) (pos (service_time s)) /\
      service_time s' = snd (next (service_time s)) /\
      inter_arrival_time s' = inter_arrival_time s
  | _ => inter_arrival_time s' = inter_arrival_time s /\
         service_time s' = service_time s
  end.
Proof.
  unfold step. destruct (running s) as [p|] eqn:Hrun.
  - destruct (processes s !! p) as [pr|] eqn:Hpr; [|done].
    destruct (p_code pr) as [|st k] eqn:Hcode.
    + destruct (method_body (p_method pr)); by intros [= <- <-].
    + destruct st as [fmt x delta| |sid| |m]; simpl.
      * destruct (eval_now g x s); simpl; [|done]. by intros [= <- <-].
      * destruct (acquire (now s) p (server s)) as [r granted]. by intros [= <- <-].
      * destruct (Qlt_le_dec _ _); [done|]. destruct sid; by intros [= <- <-].
      * destruct (release (now s) p (server s)) as [[r resumed]|]; simpl; [|done].
        by intros [= <- <-].
      * by intros [= <- <-].
  - destruct (eventlist s) as [|[t p] evs]; [done|]. by intros [= <- <-].
Qed.

Lemma elem_of_schedule_event t p evs e :
  e ∈ schedule t p evs <-> e = (t, p) \/ e ∈ evs.
Proof.
  induction evs as [|[t' p'] rest IH]; simpl.
  - rewrite list_elem_of_singleton, elem_of_nil. tauto.
  - destruct (Qlt_le_dec t t'); rewrite !elem_of_cons; [tauto|].
    rewrite IH. tauto.
Qed.

Lemma length_schedule t p evs : length (schedule t p evs) = S (length evs).
Proof.
  induction evs as [|[t' p'] rest IH]; simpl; [done|].
  destruct (Qlt_le_dec t t'); simpl; by rewrite ?IH.
Qed.

Lemma sum_list_insert {A} (f : A -> nat) p x y (l : list A) :
  l !! p = Some x ->
  sum_list (f <$> <[p := y]> l) + f x = sum_list (f <$> l) + f y.
Proof.
  revert p. induction l as [|z l IH]; intros [|p] Hp; simplify_eq/=.
  - lia.
  - specialize (IH p Hp). lia.
Qed.

Lemma sum_list_snoc (l : list nat) x : sum_list (l ++ [x]) = sum_list l + x.
Proof. induction l as [|y l IH]; simpl; lia. Qed.

Lemma sum_list_set_code p pr k ps :
  ps !! p = Some pr ->
  sum_list (weight <$> set_code p pr k ps) + weight pr
  = sum_list (weight <$> ps) + weight (mkProcess (p_method pr) k).
Proof. apply sum_list_insert. Qed.

Lemma arrival_clock_mono d :
  (forall k, (0 <= d k)%Q) ->
  forall i j, i <= j -> (arrival_clock d i <= arrival_clock d j)%Q.
Proof.
  intros Hd i j Hij. induction Hij as [|j Hij IH]; [apply Qle_refl|].
  simpl. eapply Qle_trans; [exact IH|].
  rewrite <- (Qplus_0_r (arrival_clock d j)) at 1.
  apply Qplus_le_r. apply Hd.
Qed.

Lemma gen_lookup dc tr s :
  Hist dc tr s -> exists pr, processes s !! 0 = Some pr /\ p_method pr = m_gen_arrivals.
Proof.
  intros HH. pose proof (hist_spawned _ _ _ HH) as Hlen.
  destruct (lookup_lt_is_Some_2 (processes s) 0) as [pr Hpr]; [lia|].
  exists pr. split; [done|]. by apply (hist_gen _ _ _ HH 0 pr Hpr).
Qed.

Lemma gen_not_in_system dc tr s :
  Inv s -> Hist dc tr s -> 0 ∉ arr_pids (server s).
Proof.
  intros HI HH. destruct (gen_lookup _ _ _ HH) as (pr & Hpr & Hm).
  pose proof (inv_procs s HI 0 pr Hpr) as Hok. unfold proc_ok in Hok.
  rewrite Hm in Hok. tauto.
Qed.

(** The next statement of the running process, by who runs. *)
Lemma running_code dc tr s p pr st k :
  Inv s -> Hist dc tr s -> running s = Some p -> processes s !! p = Some pr ->
  p_code pr = st :: k ->
  (p = 0 /\ p_method pr = m_gen_arrivals /\
     ((st = SSleepNext InterArrival /\ k = [SProcess m_customer]) \/
      (st = SProcess m_customer /\ k = [])))
  \/ (p <> 0 /\ p_method pr = m_customer /\
      match st with
      | SSleepNext g => g = Service
      | SProcess _ => False
      | _ => True
      end).
Proof.
  intros HI HH Hrun Hpr Hcode.
  pose proof (hist_gen _ _ _ HH p pr Hpr) as Hgen.
  destruct (p_method pr) eqn:Hm.
  - left. split; [tauto|]. split; [done|].
    destruct (running_generator s p pr _ _ HI Hpr Hcode Hm) as (n & Hn & -> & _).
    destruct n as [|[|n]]; unfold gen in *; simpl in *; simplify_eq; [tauto|tauto|].
    by rewrite drop_nil in Hn.
  - right. split; [intros ->; by destruct Hgen as [_ Hg]; specialize (Hg eq_refl)|].
    split; [done|].
    destruct (running_customer s p pr _ _ HI Hrun Hpr Hcode Hm) as (n & Hn & -> & _).
    destruct n as [|[|[|[|[|n]]]]]; unfold cust in *; simpl in *; simplify_eq; try done.
    by rewrite drop_nil in Hn.
Qed.

Lemma pending_wake until s t p evs :
  running s = None -> eventlist s = (t, p) :: evs ->
  pending until s = true -> (t < until)%Q.
Proof.
  unfold pending. intros -> ->. by destruct (Qlt_le_dec t until).
Qed.

(** A step taken before the stop time keeps the timing facts. *)
Lemma step_timed dc g until di ds s tr l s' :
  Inv s -> Hist dc tr s -> Timed until di ds s ->
  pending until s = true -> step g s = Step l s' ->
  Timed until di ds s'.
Proof.
  intros HI HH HT Hpend Hs.
  pose proof (step_sched _ _ _ _ Hs) as Hsc.
  pose proof (step_streams _ _ _ _ Hs) as Hst.
  pose proof (step_processes _ _ _ _ Hs) as Hsh.
  pose proof (step_server _ _ _ _ Hs) as Hsv.
  destruct HT as [Tev Trun Tbef Tiat Tsvt].
  destruct l; simpl in *.
  - destruct Hsc as (evs & Hev & Hev' & Hrun' & Hnow'). destruct Hst as [Hi Hv].
    destruct Hsh as (Hrun & _).
    constructor; rewrite ?Hi, ?Hv, ?Hev', ?Hrun', ?Hnow'; try done.
    + intros t' Hin. apply Tev. rewrite Hev. by right.
    + intros [= ->]. apply Tev. rewrite Hev. by left.
    + intros _ _. by eapply pending_wake.
  - destruct Hsc as (Hnow' & Hev' & Hrun'). destruct Hst as [Hi Hv].
    constructor; rewrite ?Hi, ?Hv, ?Hev', ?Hrun', ?Hnow'; done.
  - destruct Hsc as (Hnow' & Hev' & Hrun'). destruct Hst as [Hi Hv].
    destruct Hsh as (Hrun & _).
    constructor; rewrite ?Hi, ?Hv, ?Hev', ?Hrun', ?Hnow'; try done.
    + destruct granted; [|done]. intros [= ->]. by apply Trun.
    + destruct granted; [|done]. intros q _. by eapply Tbef.
  - destruct Hsc as (Hnow' & Hrun' & Hev').
    destruct Hsh as (Hrun & pr & st & k & Hpr & Hcode & Hact & _).
    destruct (inv_run s HI p Hrun) as [_ Hnev].
    destruct (running_code _ _ _ _ _ _ _ HI HH Hrun Hpr Hcode)
      as [(-> & _ & [[-> _]|[-> _]])|(Hne & _ & Hg)]; simpl in Hact; simplify_eq.
    + destruct Hst as (-> & Hi & Hv).
      constructor; rewrite ?Hi, ?Hv, ?Hev', ?Hrun', ?Hnow'; simpl; try done.
      intros t. rewrite elem_of_schedule_event. intros [[= ->]|Hin].
      * by rewrite Trun.
      * exfalso. apply Hnev. unfold ev_pids. apply list_elem_of_fmap. by exists (t, 0).
    + destruct st; simpl in Hact; simplify_eq. destruct Hst as (-> & Hv & Hi).
      constructor; rewrite ?Hi, ?Hv, ?Hev', ?Hrun', ?Hnow'; simpl; try done.
      intros t. rewrite elem_of_schedule_event. intros [[= _ Hz]|Hin]; [congruence|].
      by apply Tev.
  - destruct Hsc as (Hnow' & Hrun' & Hev'). destruct Hst as [Hi Hv].
    destruct Hsv as (_ & _ & Hres & _).
    constructor; rewrite ?Hi, ?Hv, ?Hev', ?Hrun', ?Hnow'; try done.
    destruct resumed as [w|]; [|done].
    intros t'. rewrite elem_of_schedule_event. intros [[= _ <-]|?]; [|by apply Tev].
    exfalso. apply (gen_not_in_system _ _ _ HI HH), waiting_in_arrivals; [done|].
    destruct (waiting (server s)); simplify_eq/=. by left.
  - destruct Hsc as (Hnow' & Hrun' & Hev'). destruct Hst as [Hi Hv].
    destruct Hsh as (Hrun & -> & _).
    constructor; rewrite ?Hi, ?Hv, ?Hev', ?Hrun', ?Hnow'; try done.
    intros t'. rewrite elem_of_schedule_event. intros [[= _ Hz]|?]; [|by apply Tev].
    pose proof (hist_spawned _ _ _ HH). lia.
  - destruct Hsc as (Hnow' & Hev' & Hrun'). destruct Hst as [Hi Hv].
    constructor; rewrite ?Hi, ?Hv, ?Hev', ?Hrun', ?Hnow'; done.
  - destruct Hsc as (Hnow' & Hev' & Hrun'). destruct Hst as [Hi Hv].
    constructor; rewrite ?Hi, ?Hv, ?Hev', ?Hrun', ?Hnow'; done.
Qed.

(** A step taken before the stop time lowers the bound. *)
Lemma step_decreases dc g until di ds N s tr l s' :
  Inv s -> Hist dc tr s -> Timed until di ds s ->
  (forall k, (0 <= di k)%Q) -> (until <= arrival_clock di N)%Q ->
  pending until s = true -> step g s = Step l s' ->
  fuel_bound N s' < fuel_bound N s.
Proof.
  intros HI HH HT Hdi HN Hpend Hs.
  pose proof (step_sched _ _ _ _ Hs) as Hsc.
  pose proof (step_streams _ _ _ _ Hs) as Hst.
  pose proof (step_processes _ _ _ _ Hs) as Hsh.
  unfold fuel_bound.
  assert (forall p pr st k, running s = Some p -> processes s !! p = Some pr ->
            p_code pr = st :: k -> p <> 0 ->
            sum_list (weight <$> set_code p pr k (processes s)) + 3
            = sum_list (weight <$> processes s)) as Hcust.
  { intros p pr st k Hrun Hpr Hcode Hne.
    pose proof (sum_list_set_code p pr k _ Hpr) as Hsum.
    destruct (running_code _ _ _ _ _ _ _ HI HH Hrun Hpr Hcode)
      as [(-> & _)|(_ & Hm & _)]; [done|].
    assert (weight pr = 3 * S (length k)) as Hw
      by (unfold weight; by rewrite Hm, Hcode).
    assert (weight (mkProcess (p_method pr) k) = 3 * length k) as Hw'
      by (unfold weight; simpl; by rewrite Hm).
    rewrite Hw, Hw' in Hsum. lia. }
  destruct l; simpl in *.
  - destruct Hsc as (evs & Hev & -> & -> & _). destruct Hst as [-> _].
    destruct Hsh as (-> & -> & _). rewrite Hev. simpl. lia.
  - destruct Hsc as (_ & -> & ->). destruct Hst as [-> _].
    destruct Hsh as (Hrun & pr & st & k & Hpr & Hcode & Hact & ->). rewrite Hrun.
    destruct (running_code _ _ _ _ _ _ _ HI HH Hrun Hpr Hcode)
      as [(-> & _ & [[-> _]|[-> _]])|(Hne & _)]; try done.
    pose proof (Hcust _ _ _ _ Hrun Hpr Hcode Hne). lia.
  - destruct Hsc as (_ & -> & ->). destruct Hst as [-> _].
    destruct Hsh as (Hrun & pr & st & k & Hpr & Hcode & Hact & ->). rewrite Hrun.
    destruct (running_code _ _ _ _ _ _ _ HI HH Hrun Hpr Hcode)
      as [(-> & _ & [[-> _]|[-> _]])|(Hne & _)]; try done.
    pose proof (Hcust _ _ _ _ Hrun Hpr Hcode Hne). destruct granted; lia.
  - destruct Hsc as (_ & -> & ->).
    destruct Hsh as (Hrun & pr & st & k & Hpr & Hcode & Hact & ->). rewrite Hrun.
    rewrite length_schedule.
    destruct (running_code _ _ _ _ _ _ _ HI HH Hrun Hpr Hcode)
      as [(-> & Hm & [[-> ->]|[-> _]])|(Hne & _ & Hg)]; simpl in Hact; simplify_eq.
    + destruct Hst as (_ & -> & _). simpl.
      pose proof (sum_list_set_code 0 pr [SProcess m_customer] _ Hpr) as Hsum.
      assert (weight pr = 0) as Hw by (unfold weight; by rewrite Hm, Hcode).
      assert (weight (mkProcess (p_method pr) [SProcess m_customer]) = 19) as Hw'
        by (unfold weight; simpl; by rewrite Hm).
      rewrite Hw, Hw' in Hsum.
      assert (pos (inter_arrival_time s) < N).
      { destruct (decide (pos (inter_arrival_time s) < N)) as [|Hge]; [done|].
        exfalso. apply (Qlt_not_le (now s) until); [by eapply (timed_before _ _ _ _ HT)|].
        rewrite (timed_running _ _ _ _ HT) by done.
        eapply Qle_trans; [exact HN|]. apply arrival_clock_mono; [done|lia]. }
      lia.
    + destruct st; simpl in Hact; simplify_eq. destruct Hst as (_ & _ & ->).
      pose proof (Hcust _ _ _ _ Hrun Hpr Hcode Hne). lia.
  - destruct Hsc as (_ & -> & ->). destruct Hst as [-> _].
    destruct Hsh as (Hrun & pr & st & k & Hpr & Hcode & Hact & ->). rewrite Hrun.
    destruct (running_code _ _ _ _ _ _ _ HI HH Hrun Hpr Hcode)
      as [(-> & _ & [[-> _]|[-> _]])|(Hne & _)]; try done.
    pose proof (Hcust _ _ _ _ Hrun Hpr Hcode Hne).
    destruct resumed; rewrite ?length_schedule; lia.
  - destruct Hsc as (_ & -> & ->). destruct Hst as [-> _].
    destruct Hsh as (Hrun & -> & pr & k & Hpr & Hcode & ->). rewrite Hrun.
    rewrite length_schedule, fmap_app. simpl. rewrite sum_list_snoc.
    destruct (running_code _ _ _ _ _ _ _ HI HH Hrun Hpr Hcode)
      as [(-> & Hm & [[? _]|[? ->]])|(Hne & _ & ?)]; simplify_eq.
    pose proof (sum_list_set_code 0 pr [] _ Hpr) as Hsum.
    assert (weight pr = 19) as Hw by (unfold weight; by rewrite Hm, Hcode).
    assert (weight (mkProcess (p_method pr) []) = 1) as Hw'
      by (unfold weight; simpl; by rewrite Hm).
    rewrite Hw, Hw' in Hsum.
    change (weight (mkProcess m_customer (body_code (method_body m_customer))))
      with 15. lia.
  - destruct Hsc as (_ & -> & ->). destruct Hst as [-> _].
    destruct Hsh as (Hrun & pr & Hpr & Hcode & Hm & ->). rewrite Hrun.
    pose proof (sum_list_set_code p pr gen _ Hpr) as Hsum.
    assert (weight pr = 1) as Hw by (unfold weight; by rewrite Hm, Hcode).
    assert (weight (mkProcess (p_method pr) gen) = 0) as Hw'
      by (unfold weight; simpl; by rewrite Hm).
    rewrite Hw, Hw' in Hsum. lia.
  - destruct Hsc as (_ & -> & ->). destruct Hst as [-> _].
    destruct Hsh as (Hrun & -> & _). rewrite Hrun. lia.
Qed.

(** Before the stop time the engine can always take a step, when the
    global [sim] is bound and no draw is negative. *)
Lemma step_total g until di ds s :
  Inv s -> Timed until di ds s -> g <> Unbound ->
  (forall k, (0 <= di k)%Q) -> (forall k, (0 <= ds k)%Q) ->
  pending until s = true -> exists l s', step g s = Step l s'.
Proof.
  intros HI HT Hg Hdi Hds Hpend. unfold step. unfold pending in Hpend.
  destruct (running s) as [p|] eqn:Hrun.
  - destruct (running_lookup s p HI Hrun) as [pr Hpr]. rewrite Hpr.
    destruct (p_code pr) as [|st k] eqn:Hcode.
    + destruct (method_body (p_method pr)); eauto.
    + destruct st as [fmt x delta| |sid| |m]; simpl.
      * destruct x, g; simpl; try done; eauto.
      * destruct (acquire (now s) p (server s)) as [r granted]. eauto.
      * destruct (Qlt_le_dec _ _) as [Hneg|_].
        -- exfalso. apply (Qlt_not_le _ _ Hneg).
           destruct sid; simpl;
             [rewrite (timed_iat _ _ _ _ HT)|rewrite (timed_svt _ _ _ _ HT)]; auto.
        -- destruct sid; simpl; eauto.
      * destruct (inv_release s p pr k HI Hrun Hpr Hcode) as (r & resumed & -> & _).
        simpl. eauto.
      * eauto.
  - destruct (eventlist s) as [|[t p] evs]; [done|]. eauto.
Qed.

Lemma run_loop_unfold fuel g until tr s :
  run_loop fuel g until tr s =
  if pending until s then
    match fuel with
    | O => OutOfFuel
    | S fuel' =>
        match step g s with
        | Step l s' => run_loop fuel' g until (tr ++ [l]) s'
        | Idle => Finished tr s
        | Crash e => Raised tr e
        end
    end
  else Finished tr (stopped until s).
Proof. by destruct fuel. Qed.

(** What a finished run went through. *)
Lemma run_loop_sound g until s0 fuel : forall tr s tr' s'',
  reach g s0 tr s ->
  run_loop fuel g until tr s = Finished tr' s'' ->
  exists s', reach g s0 tr' s' /\ pending until s' = false /\ s'' = stopped until s'.
Proof.
  induction fuel as [|fuel IH]; intros tr s tr' s'' Hreach; rewrite run_loop_unfold;
    destruct (pending until s) eqn:Hpend; try done;
    try (intros [= <- <-]; by eauto).
  destruct (step g s) as [l s'| |e] eqn:Hs; [| |done].
  - apply IH. by econstructor.
  - intros _. exfalso. unfold step, pending in *.
    destruct (running s) as [p|].
    + destruct (processes s !! p) as [pr|]; [|done].
      destruct (p_code pr) as [|st k].
      * by destruct (method_body _).
      * by destruct (exec g p pr st k s) as [[]|].
    + by destruct (eventlist s) as [|[]].
Qed.

Lemma timed_fresh until iat svt dc :
  pos iat = 0 -> Timed until (draws iat) (draws svt) (fresh_queue iat svt dc).
Proof.
  intros Hpos. constructor; simpl; try done.
  intros t Hin. apply list_elem_of_singleton in Hin. rewrite Hpos. simpl. congruence.
Qed.

Lemma fuel_bound_fresh N iat svt dc :
  pos iat = 0 -> fuel_bound N (fresh_queue iat svt dc) = 21 * N + 2.
Proof. intros Hpos. unfold fuel_bound. simpl. rewrite Hpos. lia. Qed.

(** With fuel up to the bound, the run loop finishes. *)
Lemma run_loop_finishes g until iat svt dc N :
  g <> Unbound ->
  (forall k, (0 <= draws iat k)%Q) -> (forall k, (0 <= draws svt k)%Q) ->
  (until <= arrival_clock (draws iat) N)%Q ->
  forall fuel tr s,
    reach g (fresh_queue iat svt dc) tr s ->
    Timed until (draws iat) (draws svt) s ->
    fuel_bound N s <= fuel ->
    exists tr' s', run_loop fuel g until tr s = Finished tr' (stopped until s') /\
                   reach g (fresh_queue iat svt dc) tr' s' /\
                   pending until s' = false.
Proof.
  intros Hg Hdi Hds HN. induction fuel as [|fuel IH]; intros tr s Hreach HT Hfuel;
    rewrite run_loop_unfold; destruct (pending until s) eqn:Hpend; eauto;
    destruct (reach_fresh _ _ _ _ _ _ Hreach) as [HI HH];
    destruct (step_total g until _ _ s HI HT Hg Hdi Hds Hpend) as (l & s' & Hs);
    pose proof (step_decreases _ _ _ _ _ _ _ _ _ _ HI HH HT Hdi HN Hpend Hs) as Hlt.
  - lia.
  - rewrite Hs. apply IH.
    + by econstructor.
    + by eapply step_timed.
    + lia.
Qed.

(** [run] on a new queue finishes when the global [sim] is bound, no
    draw is negative and the [N]-th arrival is not before the stop
    time; [21 * N + 2] steps are enough. *)
Lemma run_finishes g until iat svt dc N fuel :
  g <> Unbound -> pos iat = 0 ->
  (forall k, (0 <= draws iat k)%Q) -> (forall k, (0 <= draws svt k)%Q) ->
  (until <= arrival_clock (draws iat) N)%Q ->
  21 * N + 2 <= fuel ->
  exists tr s, run fuel g until (fresh_queue iat svt dc) = Finished tr (stopped until s) /\
               reach g (fresh_queue iat svt dc) tr s /\
               pending until s = false.
Proof.
  intros Hg Hpos Hdi Hds HN Hfuel. unfold run.
  eapply run_loop_finishes; eauto.
  - constructor.
  - by apply timed_fresh.
  - by rewrite fuel_bound_fresh.
Qed.

(** ** The program *)

Section TrialFacts.

Context (E : Externals).

Lemma mg1_init_fresh (r : rng E) m a b dc :
  mg1_init E (mkObj r empty_simulator) m a b dc
  = mkObj (rng_after E r) (queue_of E r m a b dc).
Proof.
  unfold mg1_init, rng_after, queue_of, seed1, seed2. simpl.
  destruct (randrange E (2 ^ 32) r) as [s1 r1]. simpl.
  by destruct (randrange E (2 ^ 32) r1) as [s2 r2].
Qed.

Lemma lookup_snoc {A} (l : list A) x : (l ++ [x]) !! length l = Some x.
Proof. by rewrite list_lookup_middle. Qed.

Lemma insert_snoc {A} (l : list A) x y : <[length l := y]> (l ++ [x]) = l ++ [y].
Proof.
  rewrite insert_app_r_alt by lia. by rewrite Nat.sub_diag.
Qed.

(** A new simulator, the queue on it, and one run, in one go. *)
Lemma new_mg1_run {A} name fuel m a b dc until (k : nat -> M E A) (w : world E) :
  (sim <- new_simulator E name ;;
   mg1 E sim m a b dc ;;; sim_run E fuel sim until ;;; k sim) w
  = let r := fst (simulator_rng E name (py_random w)) in
    let w1 := mkWorld (snd (simulator_rng E name (py_random w))) (global_sim_ref w)
                (heap w ++ [mkObj (rng_after E r) (queue_of E r m a b dc)])
                (log_level w) (log_out w) (stdout w) (history w) in
    match run fuel (resolve_global E (length (heap w)) w1) until (queue_of E r m a b dc) with
    | Finished tr s => k (length (heap w)) (world_after E name w tr s)
    | Raised tr e => Raises e w1
    | OutOfFuel => Timeout
    end.
Proof.
  unfold mbind, new_simulator, mg1, sim_run, ret, world_after. simpl.
  destruct (simulator_rng E name (py_random w)) as [r py]. simpl.
  rewrite lookup_snoc, insert_snoc, mg1_init_fresh. simpl.
  rewrite lookup_snoc. simpl.
  destruct (run _ _ _ _) as [tr s|tr e|]; try done.
  unfold after_run. simpl. by rewrite insert_snoc.
Qed.

Lemma system_times_after name (w : world E) tr s :
  system_times E (length (heap w)) (world_after E name w tr s)
  = default [] (collect (server s)).
Proof. unfold system_times, world_after. simpl. by rewrite lookup_snoc. Qed.

Lemma simrun_unfold fuel a b (w : world E) :
  simrun E fuel a b w
  = let r := fst (simulator_rng E None (py_random w)) in
    let w1 := mkWorld (snd (simulator_rng E None (py_random w))) (global_sim_ref w)
                (heap w ++ [mkObj (rng_after E r) (queue_of E r 1.2 a b (Some []))])
                (log_level w) (log_out w) (stdout w) (history w) in
    match run fuel (resolve_global E (length (heap w)) w1) 1000
              (queue_of E r 1.2 a b (Some [])) with
    | Finished tr s =>
        lift_result (ds_mean E (default [] (collect (server s))))
                    (world_after E None w tr s)
    | Raised tr e => Raises e w1
    | OutOfFuel => Timeout
    end.
Proof.
  unfold simrun. rewrite new_mg1_run. simpl.
  destruct (run _ _ _ _) as [tr s|tr e|]; try done.
  by rewrite system_times_after.
Qed.

(** Inside a trial the global name [sim], when bound, is another
    simulator than the trial's own. *)
Lemma resolve_global_other (w : world E) j o py x :
  global_sim_ref w = Some j -> heap w !! j = Some o ->
  resolve_global E (length (heap w))
    (mkWorld py (global_sim_ref w) (heap w ++ [x])
             (log_level w) (log_out w) (stdout w) (history w))
  = OtherSim (now (state o)).
Proof.
  intros Hj Ho. unfold resolve_global. simpl. rewrite Hj.
  pose proof (lookup_lt_Some _ _ _ Ho) as Hlt.
  destruct (Nat.eqb_spec j (length (heap w))) as [->|_]; [lia|].
  by rewrite lookup_app_l, Ho by done.
Qed.

Lemma resolve_global_unbound (w : world E) py x :
  global_sim_ref w = None ->
  resolve_global E (length (heap w))
    (mkWorld py (global_sim_ref w) (heap w ++ [x])
             (log_level w) (log_out w) (stdout w) (history w))
  = Unbound.
Proof. intros Hj. unfold resolve_global. simpl. by rewrite Hj. Qed.

(** The collector of a finished run holds the samples of its trace. *)
Lemma collected_samples g iat svt xs tr s :
  reach g (fresh_queue iat svt (Some xs)) tr s ->
  default [] (collect (server s)) = xs ++ samples_of tr.
Proof.
  intros Hr. apply reach_fresh in Hr as [_ HH].
  by rewrite (hist_collect _ _ _ HH).
Qed.

(** A trial, from start to end: when [sim] is bound, no draw is negative
    and the [N]-th arrival is not before time 1000, [21 * N + 2] steps
    are enough for [simrun] to get through its run; it leaves one new
    simulator object behind and passes on what [mean] gives on the
    samples of the run. *)
Lemma simrun_spec fuel a b (w : world E) j o N :
  global_sim_ref w = Some j -> heap w !! j = Some o ->
  (forall m s k, (0 <= expon E m s k)%Q) ->
  (forall a b s k, (0 <= truncnorm E a b s k)%Q) ->
  (forall s, (1000 <= arrival_clock (expon E 1.2 s) N)%Q) ->
  21 * N + 2 <= fuel ->
  let r := fst (simulator_rng E None (py_random w)) in
  exists tr s,
    reach (OtherSim (now (state o))) (queue_of E r 1.2 a b (Some [])) tr s /\
    pending 1000 s = false /\
    simrun E fuel a b w
    = lift_result (ds_mean E (samples_of tr)) (world_after E None w tr (stopped 1000 s)).
Proof.
  intros Hj Ho Hexp Htn HN Hfuel r. rewrite simrun_unfold. simpl.
  rewrite (resolve_global_other w j o) by done. fold r.
  destruct (run_finishes (OtherSim (now (state o))) 1000
              (mkStream (Expon 1.2 (seed1 E r)) (expon E 1.2 (seed1 E r)) 0)
              (mkStream (TruncNorm a b (seed2 E r)) (truncnorm E a b (seed2 E r)) 0)
              (Some []) N fuel) as (tr & s & Hrun & Hreach & Hpend); simpl; auto.
  exists tr, s. split; [done|]. split; [done|].
  unfold queue_of. rewrite Hrun. simpl.
  by rewrite (collected_samples _ _ _ _ _ _ Hreach).
Qed.

End TrialFacts.

Section SweepFacts.

Context (E : Externals).

(** The streams keep what they were built with. *)
Lemma reach_streams g s0 tr s :
  reach g s0 tr s ->
  dist (inter_arrival_time s) = dist (inter_arrival_time s0) /\
  dist (service_time s) = dist (service_time s0).
Proof.
  induction 1 as [|tr s l s' _ [IHi IHs] Hs]; [done|].
  apply step_streams in Hs.
  destruct l; try (destruct Hs as [-> ->]; done).
  destruct g0; destruct Hs as (_ & -> & ->); simpl; done.
Qed.

Lemma trial_object_after g r a b tr s rr :
  reach g (queue_of E r 1.2 a b (Some [])) tr s ->
  trial_object E a b (mkObj rr (stopped 1000 s)).
Proof.
  intros Hr. apply reach_streams in Hr as [Hi Hs]. unfold trial_object. simpl.
  rewrite Hi, Hs. simpl. eauto.
Qed.

(** The trials for one [b]: they all return, and each leaves its own
    simulator object at the end of the heap. *)
Lemma trials_spec N fuel a b j o :
  behaved E N -> 21 * N + 2 <= fuel ->
  forall n z (w : world E),
    global_sim_ref w = Some j -> heap w !! j = Some o ->
    exists vs objs w',
      trials E fuel n a b z w = Returns (z ++ vs) w' /\
      length vs = n /\ trial_block E a b vs objs /\
      heap w' = heap w ++ objs /\
      global_sim_ref w' = global_sim_ref w /\ stdout w' = stdout w /\
      log_level w' = log_level w.
Proof.
  intros HB Hfuel. induction n as [|n IH]; intros z w Hj Ho.
  - exists [], [], w. simpl. rewrite !app_nil_r. unfold ret. split_and!; try done.
    constructor.
  - destruct HB as [Hexp Htn HN Hmean].
    destruct (simrun_spec E fuel a b w j o N Hj Ho Hexp Htn HN Hfuel)
      as (tr & s & Hreach & _ & Hsim).
    destruct (Hmean (samples_of tr)) as [v Hv]. rewrite Hv in Hsim. simpl in Hsim.
    set (w1 := world_after E None w tr (stopped 1000 s)) in *.
    destruct (IH (z ++ [v]) w1) as (vs & objs & w' & Htr & Hlen & Hblk & Hheap & Hg & Hout & Hlv).
    { done. }
    { unfold w1, world_after. simpl. by rewrite lookup_app_l, Ho by (by eapply lookup_lt_Some). }
    exists (v :: vs), (mkObj (rng_after E (fst (simulator_rng E None (py_random w))))
                             (stopped 1000 s) :: objs), w'.
    split_and!.
    + simpl. unfold mbind. rewrite Hsim, Htr. by rewrite <- (assoc_L (++)).
    + simpl. by rewrite Hlen.
    + constructor; [|done]. split; [by eapply trial_object_after|].
      simpl. by rewrite (collected_samples _ _ _ _ _ _ Hreach).
    + rewrite Hheap. unfold w1, world_after. simpl. by rewrite <- (assoc_L (++)).
    + by rewrite Hg.
    + by rewrite Hout.
    + by rewrite Hlv.
Qed.

Lemma sweep_cons fuel b x :
  sweep E fuel (b :: x)
  = (z <- trials E fuel 25 0 b [] ;; print E (row E b z) ;;; sweep E fuel x).
Proof. reflexivity. Qed.

(** The sweep: one block of 25 trials and one printed row per [b]. *)
Lemma sweep_spec N fuel j o :
  behaved E N -> 21 * N + 2 <= fuel ->
  forall x (w : world E),
    global_sim_ref w = Some j -> heap w !! j = Some o ->
    exists zs blocks w',
      sweep E fuel x w = Returns tt w' /\
      Forall3 (fun b z objs => length z = 25 /\ trial_block E 0 b z objs) x zs blocks /\
      heap w' = heap w ++ mjoin blocks /\
      stdout w' = stdout w ++ zip_with (row E) x zs /\
      global_sim_ref w' = global_sim_ref w /\ log_level w' = log_level w.
Proof.
  intros HB Hfuel. induction x as [|b x IH]; intros w Hj Ho.
  - exists [], [], w. simpl. rewrite !app_nil_r. unfold ret. split_and!; try done.
    constructor.
  - destruct (trials_spec N fuel 0 b j o HB Hfuel 25 [] w Hj Ho)
      as (vs & objs & w1 & Htr & Hlen & Hblk & Hheap & Hg & Hout & Hlv).
    rewrite app_nil_l in Htr.
    set (w2 := mkWorld (py_random w1) (global_sim_ref w1) (heap w1) (log_level w1)
                       (log_out w1) (stdout w1 ++ [row E b vs]) (history w1)).
    destruct (IH w2) as (zs & blocks & w' & Hsw & Hall & Hheap' & Hout' & Hg' & Hlv').
    { simpl. by rewrite Hg. }
    { simpl. rewrite Hheap. by rewrite lookup_app_l, Ho by (by eapply lookup_lt_Some). }
    exists (vs :: zs), (objs :: blocks), w'. split_and!.
    + rewrite sweep_cons. unfold mbind at 1. rewrite Htr.
      unfold mbind, print. exact Hsw.
    + by constructor.
    + rewrite Hheap'. simpl. rewrite Hheap. by rewrite <- (assoc_L (++)).
    + rewrite Hout'. simpl. rewrite Hout. by rewrite <- (assoc_L (++)).
    + rewrite Hg'. simpl. by rewrite Hg.
    + rewrite Hlv'. simpl. by rewrite Hlv.
Qed.

Lemma main_unfold fuel (w : world E) :
  main E fuel w
  = let r := fst (simulator_rng E (Some "mg1") (seed E 13579)) in
    match run fuel ThisSim 10 (queue_of E r 1.2 0 0.8 None) with
    | Finished tr s =>
        (print E header ;;; sweep E fuel (linspace 0.1 3.0 10)) (demo_world E w tr s)
    | Raised tr e =>
        Raises e
          (mkWorld (snd (simulator_rng E (Some "mg1") (seed E 13579)))
                   (Some (length (heap w)))
                   (heap w ++ [mkObj (rng_after E r) (queue_of E r 1.2 0 0.8 None)])
                   DEBUG (log_out w) (stdout w) (history w))
    | OutOfFuel => Timeout
    end.
Proof.
  unfold main, mbind, setLevel, random_seed, new_simulator, bind_global_sim,
    mg1, sim_run, demo_world. simpl.
  destruct (simulator_rng E (Some "mg1") (seed E 13579)) as [r py]. simpl.
  rewrite lookup_snoc, insert_snoc, mg1_init_fresh. simpl.
  rewrite lookup_snoc. simpl.
  unfold resolve_global. simpl. rewrite Nat.eqb_refl.
  destruct (run _ _ _ _) as [tr s|tr e|]; try done.
  unfold after_run. simpl. by rewrite insert_snoc.
Qed.

End SweepFacts.

(** ** Samples, log records and the arrival process along a run *)

Lemma advance_reach g s0 n : forall tr s,
  reach g s0 tr s -> reach g s0 (advance n g tr s).1 (advance n g tr s).2.
Proof.
  induction n as [|n IH]; intros tr s Hr; simpl; [done|].
  destruct (step g s) as [l s'| |e] eqn:Hs; try done.
  apply IH. by econstructor.
Qed.

Lemma length_omap_filter {A B} (f : A -> option B) (c : A -> bool) (l : list A) :
  (forall x, x ∈ l -> is_Some (f x) <-> c x = true) ->
  length (omap f l) = length (List.filter c l).
Proof.
  induction l as [|x l IH]; [done|]. intros Hfc.
  assert (length (omap f l) = length (List.filter c l)) as Hl
    by (apply IH; intros y Hy; apply Hfc; by right).
  pose proof (Hfc x (list_elem_of_here _ _)) as Hx. simpl.
  destruct (f x) as [y|], (c x); simpl; [f_equal; exact Hl| | |exact Hl].
  - destruct Hx as [Hx _]. by specialize (Hx (mk_is_Some _ _ eq_refl)).
  - destruct Hx as [_ Hx]. by destruct (Hx eq_refl).
Qed.

(** One sample per release. *)
Lemma samples_length dc tr s :
  Hist dc tr s -> length (samples_of tr) = count is_release tr.
Proof.
  intros HH. unfold samples_of, count. apply length_omap_filter.
  intros l Hl. destruct l; simpl; try (split; [by intros []|done]).
  split; [done|]. intros _. apply fmap_is_Some. by eapply (hist_rel _ _ _ HH).
Qed.

(** What a log step puts into its record. *)
Lemma step_log g s p m s' :
  Inv s -> step g s = Step (LLog p m) s' ->
  lr_fmt m = arrive_fmt /\
  eval_now g GlobalSim s = Ok (lr_now m) /\
  lr_before m = num_in_system (server s) /\
  (lr_after m = (lr_before m + 1)%Z \/ lr_after m = (lr_before m - 1)%Z).
Proof.
  intros HI. unfold step.
  destruct (running s) as [q|] eqn:Hrun.
  - destruct (processes s !! q) as [pr|] eqn:Hpr; [|done].
    destruct (p_code pr) as [|st k] eqn:Hcode.
    + by destruct (method_body (p_method pr)).
    + destruct st as [fmt x delta| |sid| |mm]; simpl.
      * destruct (p_method pr) eqn:Hm.
        { destruct (running_generator s q pr _ _ HI Hpr Hcode Hm) as (n & Hn & _).
          by apply gen_phase in Hn as [_ ?]. }
        destruct (running_customer s q pr _ _ HI Hrun Hpr Hcode Hm) as (n & Hn & _).
        assert (fmt = arrive_fmt /\ x = GlobalSim /\ (delta = 1 \/ delta = -1)%Z)
          as (-> & -> & Hd).
        { destruct n as [|[|[|[|[|n]]]]]; unfold cust in Hn; simpl in Hn;
            simplify_eq; auto. by rewrite drop_nil in Hn. }
        destruct (eval_now g GlobalSim s) as [t|] eqn:Hev; simpl; [|done].
        intros [= <- <- <-]. simpl. split_and!; try done; try exact Hev.
        destruct Hd as [-> | ->]; [by left|by right].
      * destruct (acquire (now s) q (server s)) as [r granted]. by intros [= <- <-].
      * destruct (Qlt_le_dec _ _); [done|]. destruct sid; by intros [= <- <-].
      * destruct (release (now s) q (server s)) as [[r resumed]|]; simpl; [|done].
        by intros [= <- <-].
      * by intros [= <- <-].
  - by destruct (eventlist s) as [|[t q] evs].
Qed.

Lemma reach_logs g iat svt dc tr s :
  reach g (fresh_queue iat svt dc) tr s ->
  forall p m, LLog p m ∈ tr ->
    lr_fmt m = arrive_fmt /\
    (lr_after m = (lr_before m + 1)%Z \/ lr_after m = (lr_before m - 1)%Z) /\
    match g with
    | OtherSim c => lr_now m = c
    | _ => True
    end.
Proof.
  intros Hr. remember (fresh_queue iat svt dc) as s0 eqn:Hs0.
  induction Hr as [|tr s l s' Hr IH Hs]; intros p m Hin.
  - by apply elem_of_nil in Hin.
  - apply elem_of_app in Hin as [Hin|Hin]; [by apply (IH p m)|].
    apply list_elem_of_singleton in Hin as <-.
    subst s0. apply reach_fresh in Hr as [HI _].
    destruct (step_log _ _ _ _ _ HI Hs) as (Hf & Hnow & _ & Hd).
    split_and!; try done. destruct g; try done. simpl in Hnow. congruence.
Qed.

(** The arrival process never returns. *)
Lemma gen_never_returns g iat svt dc tr s :
  reach g (fresh_queue iat svt dc) tr s -> LReturn 0 ∉ tr.
Proof.
  intros Hr. remember (fresh_queue iat svt dc) as s0 eqn:Hs0.
  induction Hr as [|tr s l s' Hr IH Hs].
  - apply not_elem_of_nil.
  - rewrite elem_of_app, list_elem_of_singleton. intros [?| <-]; [by apply IH|].
    subst s0. apply reach_fresh in Hr as [HI HH].
    by apply (gen_labels _ _ _ _ _ _ HI HH Hs).
Qed.

(** * The statements of the specification *)

(** C1 (as amended).  A customer executes, in this order: log, acquire,
    sleep for one service draw, log, release, and nothing else: its own
    code records no time and no sample.  The server does: [acquire] and
    [release] are stamped with the clock at the call, the collector the
    server was built with (if any) holds what it held plus one sample per
    release so far, each the time of the release minus the time of the
    same process's acquire, and a process still in the system has its
    acquire time on record. *)
Theorem customer_protocol g iat svt dc tr s p pr :
  reach g (fresh_queue iat svt dc) tr s ->
  processes s !! p = Some pr ->
  p_method pr = m_customer ->
  actions p tr ++ (action_of_stmt <$> p_code pr)
    = [ALog arrive_fmt 1; AAcquire; ASleep Service; ALog arrive_fmt (-1); ARelease] /\
  collect (server s) = (fun xs => xs ++ samples_of tr) <$> dc /\
  length (samples_of tr) = count is_release tr /\
  (forall ta, (p, ta) ∈ arrivals (server s) -> acquire_time p tr = Some ta) /\
  (forall l s', step g s = Step l s' ->
     match l with
     | LAcquire _ t _ | LRelease _ t _ => t = now s
     | _ => True
     end).
Proof.
  intros Hr Hp Hm. destruct (reach_fresh _ _ _ _ _ _ Hr) as [HI HH].
  split_and!.
  - destruct (hist_acts _ _ _ HH p pr Hp) as [n Hn]. by rewrite Hm in Hn.
  - apply (hist_collect _ _ _ HH).
  - by eapply samples_length.
  - intros ta. apply (hist_arr _ _ _ HH).
  - intros l s' Hs. apply step_server in Hs. destruct l; try done; by destruct Hs.
Qed.

Lemma busy_run_reach :
  reach (OtherSim 10) (example_queue 1 3 (Some [])) busy_run.1 busy_run.2.
Proof. apply advance_reach. constructor. Qed.

Lemma customer_protocol_witness :
  reach (OtherSim 10) (example_queue 1 3 (Some [])) busy_run.1 busy_run.2 /\
  processes busy_run.2 !! 1 = Some (mkProcess m_customer []) /\
  actions 1 busy_run.1 ++ []
    = [ALog arrive_fmt 1; AAcquire; ASleep Service; ALog arrive_fmt (-1); ARelease] /\
  collect (server busy_run.2) = Some ([] ++ samples_of busy_run.1) /\
  length (samples_of busy_run.1) = count is_release busy_run.1.
Proof.
  split; [exact busy_run_reach|]. split; [reflexivity|].
  destruct (customer_protocol (OtherSim 10) _ _ _ busy_run.1 busy_run.2 1
              (mkProcess m_customer []) busy_run_reach eq_refl eq_refl)
    as (H1 & H2 & H3 & _).
  split; [exact H1|]. split; [exact H2|exact H3].
Defined.

(** C1 as stated fails: a customer that arrives at time 999.5 and is
    served for 0.8 is still in service when the run of 1000 time units
    stops; it was spawned, and no sample was recorded for it. *)
Lemma customer_without_sample :
  exists tr s,
    run 20 (OtherSim 10) 1000 (example_queue 999.5 0.8 (Some [])) = Finished tr s /\
    count is_spawn tr = 1 /\
    collect (server s) = Some [] /\
    in_service (server s) = [1].
Proof. eexists _, _. split; [vm_compute; reflexivity|]. by vm_compute. Qed.

(** C6.  Along every run of a queue, whatever the customers do: the
    occupancy count of the server is the number of acquire calls so far
    minus the number of release calls so far, it is never negative, it
    counts the processes in service and the processes waiting together,
    and with capacity 1 at most one process is in service. *)
Theorem server_occupancy g iat svt dc tr s :
  reach g (fresh_queue iat svt dc) tr s ->
  num_in_system (server s)
    = (Z.of_nat (count is_acquire tr) - Z.of_nat (count is_release tr))%Z /\
  (0 <= num_in_system (server s))%Z /\
  num_in_system (server s)
    = Z.of_nat (length (in_service (server s)) + length (waiting (server s))) /\
  capacity (server s) = 1 /\
  length (in_service (server s)) <= 1.
Proof.
  intros Hr. destruct (reach_fresh _ _ _ _ _ _ Hr) as [HI HH].
  pose proof (hist_count _ _ _ HH) as Hc. unfold num_in_system.
  split_and!.
  - lia.
  - lia.
  - f_equal. rewrite <- length_app, <- (inv_arr_perm s HI).
    unfold arr_pids. by rewrite length_fmap.
  - apply (inv_cap s HI).
  - apply (inv_srv s HI).
Qed.

Lemma server_occupancy_witness :
  reach (OtherSim 10) (example_queue 1 3 (Some [])) busy_run.1 busy_run.2 /\
  num_in_system (server busy_run.2)
    = (Z.of_nat (count is_acquire busy_run.1) - Z.of_nat (count is_release busy_run.1))%Z /\
  (0 <= num_in_system (server busy_run.2))%Z /\
  num_in_system (server busy_run.2)
    = Z.of_nat (length (in_service (server busy_run.2))
                + length (waiting (server busy_run.2))) /\
  capacity (server busy_run.2) = 1 /\
  length (in_service (server busy_run.2)) <= 1.
Proof.
  split; [exact busy_run_reach|].
  exact (server_occupancy _ _ _ _ _ _ busy_run_reach).
Defined.

(** The same run by evaluation: four acquires and one release so far,
    three processes in the system, one of them in service. *)
Example busy_run_counts :
  (num_in_system (server busy_run.2), count is_acquire busy_run.1,
   count is_release busy_run.1, in_service (server busy_run.2),
   waiting (server busy_run.2))
  = (3%Z, 4, 1, [2], [3; 4]).
Proof. vm_compute. reflexivity. Qed.

(** C8.  The arrival process is process 0 of every queue.  Along every
    run it never returns and is always either running or scheduled, so
    only the end of the run stops it; what it has done so far, followed
    by what is left of its current pass through the loop body, is a whole
    number of rounds "sleep for an inter-arrival draw, then spawn a
    customer"; a sleep takes the next draw of the inter-arrival stream
    and suspends the process; a spawn adds one customer process and
    leaves the arrival process running. *)
Theorem gen_arrivals_forever g iat svt dc tr s :
  reach g (fresh_queue iat svt dc) tr s ->
  (exists pr n, processes s !! 0 = Some pr /\ p_method pr = m_gen_arrivals /\
     actions 0 tr ++ (action_of_stmt <$> p_code pr)
       = mjoin (replicate n [ASleep InterArrival; AProcess m_customer])) /\
  (LReturn 0 ∉ tr) /\
  (running s = Some 0 \/ 0 ∈ ev_pids s) /\
  length (processes s) = S (count is_spawn tr) /\
  (forall l s', step g s = Step l s' ->
     match l with
     | LSpawn p m child =>
         p = 0 /\ m = m_customer /\ running s' = Some 0 /\
         length (processes s') = S (length (processes s))
     | LSleep 0 sid d =>
         sid = InterArrival /\
         d = draws (inter_arrival_time s) (pos (inter_arrival_time s)) /\
         running s' = None
     | _ => True
     end).
Proof.
  intros Hr. destruct (reach_fresh _ _ _ _ _ _ Hr) as [HI HH].
  split_and!.
  - destruct (gen_lookup _ _ _ HH) as (pr & Hpr & Hm).
    destruct (hist_acts _ _ _ HH 0 pr Hpr) as [n Hn]. rewrite Hm in Hn.
    by exists pr, n.
  - by eapply gen_never_returns.
  - apply (hist_alive _ _ _ HH).
  - apply (hist_spawned _ _ _ HH).
  - intros l s' Hs.
    pose proof (step_processes _ _ _ _ Hs) as Hsh.
    pose proof (step_sched _ _ _ _ Hs) as Hsc.
    pose proof (step_streams _ _ _ _ Hs) as Hst.
    destruct l as [| | |[|p] sid d| |p m child| |]; try done; simpl in *.
    + destruct Hsh as (Hrun & pr & st & k & Hpr & Hcode & Hact & _).
      destruct Hsc as (_ & Hrun' & _).
      destruct (running_code _ _ _ _ _ _ _ HI HH Hrun Hpr Hcode)
        as [(_ & _ & [[-> _]|[-> _]])|(Hne & _)]; simpl in Hact; simplify_eq.
      by destruct Hst as (-> & _).
    + destruct Hsh as (Hrun & -> & pr & k & Hpr & Hcode & Hps).
      destruct Hsc as (_ & -> & _).
      destruct (spawn_customer s p pr m k HI Hrun Hpr Hcode) as [-> Hm].
      apply (hist_gen _ _ _ HH p pr Hpr) in Hm as ->.
      split_and!; try done.
      rewrite Hps. unfold set_code. rewrite length_app, length_insert. simpl. lia.
Qed.

Lemma gen_arrivals_forever_witness :
  reach (OtherSim 10) (example_queue 1 3 (Some [])) busy_run.1 busy_run.2 /\
  (LReturn 0 ∉ busy_run.1) /\
  (running busy_run.2 = Some 0 \/ 0 ∈ ev_pids busy_run.2) /\
  length (processes busy_run.2) = S (count is_spawn busy_run.1).
Proof.
  split; [exact busy_run_reach|].
  destruct (gen_arrivals_forever _ _ _ _ _ _ busy_run_reach) as (_ & H2 & H3 & H4 & _).
  split; [exact H2|]. split; [exact H3|exact H4].
Defined.

(** What the arrival process of the example run has done after forty
    steps: five rounds, the sixth under way. *)
Example busy_run_generator :
  actions 0 busy_run.1
  = mjoin (replicate 5 [ASleep InterArrival; AProcess m_customer])
    /\ running busy_run.2 = Some 0 /\ length (processes busy_run.2) = 6.
Proof. vm_compute. done. Qed.

Lemma log_stmt_global s p pr fmt x d k :
  Inv s -> running s = Some p -> processes s !! p = Some pr ->
  p_code pr = SLogInfo fmt x d :: k ->
  fmt = arrive_fmt /\ x = GlobalSim /\ (d = 1 \/ d = -1)%Z /\ p_method pr = m_customer.
Proof.
  intros HI Hrun Hpr Hcode. destruct (p_method pr) eqn:Hm.
  - destruct (running_generator s p pr _ _ HI Hpr Hcode Hm) as (n & Hn & _).
    by apply gen_phase in Hn as [_ ?].
  - destruct (running_customer s p pr _ _ HI Hrun Hpr Hcode Hm) as (n & Hn & _).
    destruct n as [|[|[|[|[|n]]]]]; unfold cust in Hn; simpl in Hn;
      simplify_eq; auto. by rewrite drop_nil in Hn.
Qed.

(** C9.  Both log statements of [customer] take the clock from the
    module-global name [sim], not from [self.sim].  So in a run where no
    global [sim] is bound, a customer that comes to a log statement
    fails with NameError, whatever the logger's level, and [run] raises
    that error; and in a run
    where the global [sim] is another simulator, standing at time [c],
    every record a customer makes carries [c], not the clock of the
    simulator the customer runs in. *)
Theorem customer_reads_global_sim g iat svt dc tr s :
  reach g (fresh_queue iat svt dc) tr s ->
  (forall fmt x d, SLogInfo fmt x d ∈ body_code customer -> x = GlobalSim) /\
  (g = Unbound ->
     forall p pr fmt x d k,
       running s = Some p -> processes s !! p = Some pr ->
       p_code pr = SLogInfo fmt x d :: k ->
       step g s = Crash (NameError "sim") /\
       forall fuel until tr0,
         run_loop (S fuel) g until tr0 s = Raised tr0 (NameError "sim")) /\
  (forall c, g = OtherSim c ->
     (forall p m, LLog p m ∈ tr -> lr_now m = c) /\
     (forall p m s', step g s = Step (LLog p m) s' -> lr_now m = c)).
Proof.
  intros Hr. destruct (reach_fresh _ _ _ _ _ _ Hr) as [HI HH].
  split_and!.
  - intros fmt x d Hin. unfold customer in Hin. simpl in Hin.
    repeat (apply elem_of_cons in Hin as [Hin|Hin]; [by simplify_eq|]).
    by apply elem_of_nil in Hin.
  - intros -> p pr fmt x d k Hrun Hpr Hcode.
    destruct (log_stmt_global _ _ _ _ _ _ _ HI Hrun Hpr Hcode) as (_ & -> & _).
    assert (step Unbound s = Crash (NameError "sim")) as Hs
      by (unfold step; by rewrite Hrun, Hpr, Hcode).
    split; [done|]. intros fuel until tr0. rewrite run_loop_unfold, Hs.
    unfold pending. by rewrite Hrun.
  - intros c ->. split.
    + intros p m Hin. by destruct (reach_logs _ _ _ _ _ _ Hr p m Hin) as (_ & _ & ?).
    + intros p m s' Hs.
      destruct (step_log _ _ _ _ _ HI Hs) as (_ & Hnow & _). simpl in Hnow. congruence.
Qed.

Lemma customer_reads_global_sim_witness :
  reach (OtherSim 10) (example_queue 1 3 (Some [])) busy_run.1 busy_run.2 /\
  (forall p m, LLog p m ∈ busy_run.1 -> lr_now m = 10%Q) /\
  reach Unbound (example_queue 1 3 (Some []))
        (advance 7 Unbound [] (example_queue 1 3 (Some []))).1
        (advance 7 Unbound [] (example_queue 1 3 (Some []))).2 /\
  step Unbound (advance 7 Unbound [] (example_queue 1 3 (Some []))).2
  = Crash (NameError "sim").
Proof.
  split; [exact busy_run_reach|]. split.
  - destruct (customer_reads_global_sim _ _ _ _ _ _ busy_run_reach) as (_ & _ & H).
    by destruct (H 10%Q eq_refl).
  - assert (reach Unbound (example_queue 1 3 (Some []))
              (advance 7 Unbound [] (example_queue 1 3 (Some []))).1
              (advance 7 Unbound [] (example_queue 1 3 (Some []))).2) as Hr
      by (apply advance_reach; constructor).
    split; [exact Hr|].
    destruct (customer_reads_global_sim _ _ _ _ _ _ Hr) as (_ & H & _).
    eapply (H eq_refl 1 (mkProcess m_customer cust)); vm_compute; reflexivity.
Defined.

(** The first customer of the example run arrives at time 1 and leaves
    at time 4; both records carry 10, the clock of the global [sim]. *)
Example busy_run_first_records :
  omap (fun l => match l with LLog 1 m => Some m | _ => None end) busy_run.1
  = [mkLog arrive_fmt 10 0 1; mkLog arrive_fmt 10 3 2].
Proof. vm_compute. reflexivity. Qed.

(** C10.  The two log statements of [customer] have the same text,
    "customer arrives", and differ in the count they announce: plus one
    for the first, minus one for the second, which is the one right
    before [release].  So every record of every run has that text, and
    announces the count it read plus one or minus one. *)
Theorem both_messages_say_arrives g iat svt dc tr s :
  reach g (fresh_queue iat svt dc) tr s ->
  List.filter is_log (body_code customer)
    = [SLogInfo "%g: customer arrives (num_in_system=%d->%d)" GlobalSim 1;
       SLogInfo "%g: customer arrives (num_in_system=%d->%d)" GlobalSim (-1)] /\
  (forall p m, LLog p m ∈ tr ->
     lr_fmt m = "%g: customer arrives (num_in_system=%d->%d)" /\
     (lr_after m = (lr_before m + 1)%Z \/ lr_after m = (lr_before m - 1)%Z)) /\
  (forall p pr, processes s !! p = Some pr -> p_method pr = m_customer ->
     actions p tr ++ (action_of_stmt <$> p_code pr)
     = [ALog "%g: customer arrives (num_in_system=%d->%d)" 1; AAcquire;
        ASleep Service;
        ALog "%g: customer arrives (num_in_system=%d->%d)" (-1); ARelease]) /\
  (forall p m s', step g s = Step (LLog p m) s' ->
     lr_before m = num_in_system (server s)).
Proof.
  intros Hr. destruct (reach_fresh _ _ _ _ _ _ Hr) as [HI HH].
  split_and!.
  - reflexivity.
  - intros p m Hin. by destruct (reach_logs _ _ _ _ _ _ Hr p m Hin) as (? & ? & _).
  - intros p pr Hp Hm.
    destruct (hist_acts _ _ _ HH p pr Hp) as [n Hn]. by rewrite Hm in Hn.
  - intros p m s' Hs. by destruct (step_log _ _ _ _ _ HI Hs) as (_ & _ & ? & _).
Qed.

Lemma both_messages_say_arrives_witness :
  reach (OtherSim 10) (example_queue 1 3 (Some [])) busy_run.1 busy_run.2 /\
  (forall p m, LLog p m ∈ busy_run.1 ->
     lr_fmt m = "%g: customer arrives (num_in_system=%d->%d)" /\
     (lr_after m = (lr_before m + 1)%Z \/ lr_after m = (lr_before m - 1)%Z)).
Proof.
  split; [exact busy_run_reach|].
  by destruct (both_messages_say_arrives _ _ _ _ _ _ busy_run_reach) as (_ & H & _).
Defined.

(** ** The program entry *)

Section MainFacts.

Context (E : Externals).

(** The whole program, from start to end, when the externals behave. *)
Lemma main_spec N fuel (w : world E) :
  behaved E N -> 21 * N + 2 <= fuel ->
  exists tr s zs blocks w',
    reach ThisSim
      (queue_of E (fst (simulator_rng E (Some "mg1") (seed E 13579))) 1.2 0 0.8 None) tr s /\
    pending 10 s = false /\
    main E fuel w = Returns tt w' /\
    heap w'
    = heap w ++ mkObj (rng_after E (fst (simulator_rng E (Some "mg1") (seed E 13579))))
                      (stopped 10 s) :: mjoin blocks /\
    Forall3 (fun b z objs => length z = 25 /\ trial_block E 0 b z objs)
            (linspace 0.1 3.0 10) zs blocks /\
    stdout w' = stdout w ++ header :: zip_with (row E) (linspace 0.1 3.0 10) zs.
Proof.
  intros HB Hfuel. rewrite main_unfold. simpl.
  set (r := fst (simulator_rng E (Some "mg1") (seed E 13579))).
  destruct (run_finishes ThisSim 10
              (mkStream (Expon 1.2 (seed1 E r)) (expon E 1.2 (seed1 E r)) 0)
              (mkStream (TruncNorm 0 0.8 (seed2 E r)) (truncnorm E 0 0.8 (seed2 E r)) 0)
              None N fuel) as (tr & s & Hrun & Hreach & Hpend); simpl; auto.
  { apply (expon_nonneg E N HB). }
  { apply (truncnorm_nonneg E N HB). }
  { eapply Qle_trans; [|apply (arrivals_pass E N HB)]. by vm_compute. }
  unfold queue_of. rewrite Hrun.
  set (w1 := demo_world E w tr (stopped 10 s)).
  set (w2 := mkWorld (py_random w1) (global_sim_ref w1) (heap w1) (log_level w1)
                     (log_out w1) (stdout w1 ++ [header]) (history w1)).
  destruct (sweep_spec E N fuel (length (heap w))
              (mkObj (rng_after E r) (stopped 10 s)) HB Hfuel (linspace 0.1 3.0 10) w2)
    as (zs & blocks & w' & Hsw & Hall & Hheap & Hout & _).
  { done. }
  { unfold w2, w1, demo_world. simpl. apply lookup_snoc. }
  exists tr, s, zs, blocks, w'. split_and!; try done.
  - rewrite Hheap. unfold w2, w1, demo_world. simpl. by rewrite <- (assoc_L (++)).
  - rewrite Hout. unfold w2, w1, demo_world. simpl. by rewrite <- (assoc_L (++)).
Qed.

End MainFacts.

Lemma linspace_sweep :
  length (linspace 0.1 3.0 10) = 10 /\
  (exists x0, head (linspace 0.1 3.0 10) = Some x0 /\ (x0 == 0.1)%Q) /\
  last (linspace 0.1 3.0 10) = Some 3.0%Q /\
  Forall (fun d => (d == 29 # 90)%Q) (gaps (linspace 0.1 3.0 10)) /\
  Forall (fun b => (0.1 <= b)%Q /\ (b <= 3.0)%Q) (linspace 0.1 3.0 10).
Proof.
  split; [reflexivity|]. split; [eexists; split; [reflexivity|by vm_compute]|].
  split; [reflexivity|]. split.
  - repeat constructor; by vm_compute.
  - repeat constructor; by vm_compute.
Qed.

Lemma behaved_sparse : behaved sparse 3.
Proof.
  constructor; simpl.
  - intros _ _ _. by vm_compute.
  - intros _ _ _ _. by vm_compute.
  - intros _. by vm_compute.
  - intros [|x l]; eexists; reflexivity.
Qed.

(** C3.  The sweep takes 10 evenly spaced values of [b] from 0.1 to 3.0,
    both included.  When the externals behave, the program returns; for
    each [b] it has run exactly 25 trials, each on a simulator object of
    its own that is left at time 1000 with inter-arrival mean 1.2 and
    service bounds 0 and [b], and each giving the mean of the samples in
    its own collector; after the header line it has printed one row per
    [b]: [b] in the one-decimal format, then the mean of the 25 values,
    their 5th and their 95th percentile in the four-decimal format, with
    tabs between. *)
Theorem sweep_table E N fuel (w : world E) :
  behaved E N -> 21 * N + 2 <= fuel ->
  length (linspace 0.1 3.0 10) = 10 /\
  (exists x0, head (linspace 0.1 3.0 10) = Some x0 /\ (x0 == 0.1)%Q) /\
  last (linspace 0.1 3.0 10) = Some 3.0%Q /\
  Forall (fun d => (d == 29 # 90)%Q) (gaps (linspace 0.1 3.0 10)) /\
  header = "b" +:+ tab +:+ "mean" +:+ tab +:+ "low" +:+ tab +:+ "high" /\
  (forall b z, row E b z
     = fmt_1f E b +:+ tab +:+ fmt_4f E (np_mean E z) +:+ tab +:+
       fmt_4f E (np_percentile E z 5) +:+ tab +:+ fmt_4f E (np_percentile E z 95)) /\
  exists demo zs blocks w',
    main E fuel w = Returns tt w' /\
    heap w' = heap w ++ demo :: mjoin blocks /\
    Forall3 (fun b z objs => length z = 25 /\ trial_block E 0 b z objs)
            (linspace 0.1 3.0 10) zs blocks /\
    stdout w' = stdout w ++ header :: zip_with (row E) (linspace 0.1 3.0 10) zs.
Proof.
  intros HB Hfuel.
  destruct linspace_sweep as (H1 & H2 & H3 & H4 & _).
  split_and!; try done.
  destruct (main_spec E N fuel w HB Hfuel)
    as (tr & s & zs & blocks & w' & _ & _ & Hmain & Hheap & Hall & Hout).
  by eexists _, zs, blocks, w'.
Qed.

Lemma sweep_table_witness :
  behaved sparse 3 /\ 21 * 3 + 2 <= 65 /\
  exists demo zs blocks w',
    main sparse 65 (world0 sparse 0%Z) = Returns tt w' /\
    heap w' = heap (world0 sparse 0%Z) ++ demo :: mjoin blocks /\
    Forall3 (fun b z objs => length z = 25 /\ trial_block sparse 0 b z objs)
            (linspace 0.1 3.0 10) zs blocks /\
    stdout w' = stdout (world0 sparse 0%Z)
                ++ header :: zip_with (row sparse) (linspace 0.1 3.0 10) zs.
Proof.
  split; [exact behaved_sparse|]. split; [lia|].
  by destruct (sweep_table sparse 3 65 (world0 sparse 0%Z) behaved_sparse (le_n _))
    as (_ & _ & _ & _ & _ & _ & H).
Defined.

Lemma Forall3_join {A B C} (P : A -> B -> list C -> Prop) (R : A -> C -> Prop)
    (x : list A) (zs : list B) (blocks : list (list C)) :
  (forall a z objs, P a z objs -> Forall (R a) objs) ->
  Forall3 P x zs blocks ->
  Forall (fun o => exists a, a ∈ x /\ R a o) (mjoin blocks).
Proof.
  intros HPR. induction 1 as [|a z objs x zs blocks HP _ IH]; [constructor|].
  simpl. apply Forall_app. split.
  - apply (Forall_impl _ _ _ (HPR _ _ _ HP)). intros o Ho. exists a. split; [by left|done].
  - apply (Forall_impl _ _ _ IH). intros o (a' & Ha' & Ho). exists a'. split; [by right|done].
Qed.

(** C2 (as amended).  No run of the program collapses the bounds: when
    the externals behave, the demonstration run builds its queue with
    bounds 0 and 0.8, and every other simulator the program creates is
    one of a sweep trial, with bounds 0 and a [b] of the sweep, which is
    at least 0.1. *)
Theorem bounds_never_collapse E N fuel (w : world E) :
  behaved E N -> 21 * N + 2 <= fuel ->
  exists demo rest w',
    main E fuel w = Returns tt w' /\
    heap w' = heap w ++ demo :: rest /\
    (exists seed, dist (service_time (state demo)) = TruncNorm 0 0.8 seed) /\
    Forall (fun o => exists b seed,
              dist (service_time (state o)) = TruncNorm 0 b seed /\
              b ∈ linspace 0.1 3.0 10 /\ (0 < b)%Q /\ ~ (0 == b)%Q) rest.
Proof.
  intros HB Hfuel.
  destruct (main_spec E N fuel w HB Hfuel)
    as (tr & s & zs & blocks & w' & Hreach & _ & Hmain & Hheap & Hall & _).
  eexists _, (mjoin blocks), w'. split_and!; try done.
  - apply reach_streams in Hreach as [_ Hs]. simpl. rewrite Hs. simpl. eauto.
  - eapply Forall_impl.
    + eapply (Forall3_join _
                (fun b o => exists seed, dist (service_time (state o)) = TruncNorm 0 b seed)
                _ _ _ _ Hall).
    + intros o (b & Hb & seed & Hd). exists b, seed. split_and!; try done.
      * destruct linspace_sweep as (_ & _ & _ & _ & Hrange).
        rewrite Forall_forall in Hrange. destruct (Hrange b Hb) as [Hlo _].
        eapply Qlt_le_trans; [|exact Hlo]. by vm_compute.
      * destruct linspace_sweep as (_ & _ & _ & _ & Hrange).
        rewrite Forall_forall in Hrange. destruct (Hrange b Hb) as [Hlo _].
        intros Heq. rewrite <- Heq in Hlo. by vm_compute in Hlo.
  Unshelve.
  intros b z objs [_ Hblk]. unfold trial_block in Hblk.
  induction Hblk as [|v o vs objs [(_ & _ & Hs) _] _ IH]; constructor; done.
Qed.

Lemma bounds_never_collapse_witness :
  behaved sparse 3 /\ 21 * 3 + 2 <= 65 /\
  exists demo rest w',
    main sparse 65 (world0 sparse 0%Z) = Returns tt w' /\
    heap w' = heap (world0 sparse 0%Z) ++ demo :: rest /\
    (exists seed, dist (service_time (state demo)) = TruncNorm 0 0.8 seed) /\
    Forall (fun o => exists b seed,
              dist (service_time (state o)) = TruncNorm 0 b seed /\
              b ∈ linspace 0.1 3.0 10 /\ (0 < b)%Q /\ ~ (0 == b)%Q) rest.
Proof.
  split; [exact behaved_sparse|]. split; [lia|].
  exact (bounds_never_collapse sparse 3 65 (world0 sparse 0%Z) behaved_sparse (le_n _)).
Defined.

(** C2 as stated fails: in a run of the program, the sanity run has
    built its queue with bounds 0 and 0.8, which are not equal. *)
Lemma sanity_run_bounds :
  exists demo rest w' seed,
    main sparse 65 (world0 sparse 0%Z) = Returns tt w' /\
    heap w' = demo :: rest /\
    dist (service_time (state demo)) = TruncNorm 0 0.8 seed /\
    ~ (0 == 0.8)%Q.
Proof.
  destruct (main_spec sparse 3 65 (world0 sparse 0%Z) behaved_sparse (le_n _))
    as (tr & s & zs & blocks & w' & Hreach & _ & Hmain & Hheap & _).
  apply reach_streams in Hreach as [_ Hs].
  eexists _, _, w', _. split_and!; [exact Hmain|exact Hheap|exact Hs|by vm_compute].
Qed.

Lemma resolve_trial_global E (w : world E) py x :
  resolve_global E (length (heap w))
    (mkWorld py (global_sim_ref w) (heap w ++ [x])
             (log_level w) (log_out w) (stdout w) (history w))
  = trial_global E w.
Proof.
  unfold resolve_global, trial_global. simpl.
  destruct (global_sim_ref w) as [j|]; [|done].
  destruct (Nat.eqb_spec j (length (heap w))) as [->|Hne]; [done|].
  destruct (decide (j < length (heap w))) as [Hlt|Hge].
  - by rewrite lookup_app_l.
  - rewrite !lookup_ge_None_2; [done|lia|]. rewrite length_app. simpl. lia.
Qed.

(** C4.  A call [simrun(a, b)], made where the global [sim] is bound, no
    draw is negative and the [N]-th arrival is not before time 1000: it
    creates one simulator object, with a queue at clock 0, only the
    arrival process on it and an empty collector; it runs that simulator
    up to time 1000; the collector then holds the samples of that run,
    and the call passes on what [mean] gives on them.  The heap after
    the call is the heap before it with the one new object at its end:
    no object that was there (of any earlier call, say) is touched, and
    the new queue depends on nothing but the simulator's own random
    source and [a] and [b]. *)
Theorem simrun_fresh_and_isolated E fuel a b (w : world E) j o N :
  global_sim_ref w = Some j -> heap w !! j = Some o ->
  (forall m s k, (0 <= expon E m s k)%Q) ->
  (forall a b s k, (0 <= truncnorm E a b s k)%Q) ->
  (forall s, (1000 <= arrival_clock (expon E 1.2 s) N)%Q) ->
  21 * N + 2 <= fuel ->
  exists q tr s w',
    q = queue_of E (fst (simulator_rng E None (py_random w))) 1.2 a b (Some []) /\
    now q = 0%Q /\ collect (server q) = Some [] /\
    processes q = [mkProcess m_gen_arrivals (body_code gen_arrivals)] /\
    reach (OtherSim (now (state o))) q tr s /\ pending 1000 s = false /\
    collect (server s) = Some (samples_of tr) /\
    simrun E fuel a b w = lift_result (ds_mean E (samples_of tr)) w' /\
    heap w' = heap w ++ [mkObj (rng_after E (fst (simulator_rng E None (py_random w))))
                               (stopped 1000 s)] /\
    global_sim_ref w' = global_sim_ref w /\ stdout w' = stdout w.
Proof.
  intros Hj Ho Hexp Htn HN Hfuel.
  destruct (simrun_spec E fuel a b w j o N Hj Ho Hexp Htn HN Hfuel)
    as (tr & s & Hreach & Hpend & Hsim).
  eexists _, tr, s, _. split_and!; try done.
  destruct (reach_fresh _ _ _ _ _ _ Hreach) as [_ HH].
  by rewrite (hist_collect _ _ _ HH).
Qed.

Lemma simrun_fresh_and_isolated_witness :
  global_sim_ref (world1 sparse 0%Z) = Some 0 /\
  heap (world1 sparse 0%Z) !! 0 = Some (mkObj (E := sparse) 0%Z empty_simulator) /\
  21 * 3 + 2 <= 65 /\
  exists q tr s w',
    q = queue_of sparse (fst (simulator_rng sparse None (py_random (world1 sparse 0%Z))))
                 1.2 0 1 (Some []) /\
    now q = 0%Q /\ collect (server q) = Some [] /\
    processes q = [mkProcess m_gen_arrivals (body_code gen_arrivals)] /\
    reach (OtherSim (now (state (mkObj (E := sparse) 0%Z empty_simulator)))) q tr s /\
    pending 1000 s = false /\
    collect (server s) = Some (samples_of tr) /\
    simrun sparse 65 0 1 (world1 sparse 0%Z)
    = lift_result (ds_mean sparse (samples_of tr)) w' /\
    heap w' = heap (world1 sparse 0%Z)
              ++ [mkObj (rng_after sparse
                           (fst (simulator_rng sparse None (py_random (world1 sparse 0%Z)))))
                        (stopped 1000 s)] /\
    global_sim_ref w' = global_sim_ref (world1 sparse 0%Z) /\
    stdout w' = stdout (world1 sparse 0%Z).
Proof.
  split; [reflexivity|]. split; [reflexivity|]. split; [lia|].
  apply (simrun_fresh_and_isolated sparse 65 0 1 (world1 sparse 0%Z) 0 _ 3);
    [reflexivity|reflexivity| | | |lia].
  - apply (expon_nonneg sparse 3 behaved_sparse).
  - apply (truncnorm_nonneg sparse 3 behaved_sparse).
  - apply (arrivals_pass sparse 3 behaved_sparse).
Defined.

(** C5.  [simrun] has no guard for a trial without samples: when the
    run of the trial ends with an empty collector, the call passes on
    what [mean] gives on the empty series, be it a value or an error. *)
Theorem simrun_mean_of_nothing E fuel a b (w : world E) tr s :
  run fuel (trial_global E w) 1000
      (queue_of E (fst (simulator_rng E None (py_random w))) 1.2 a b (Some []))
  = Finished tr s ->
  collect (server s) = Some [] ->
  simrun E fuel a b w = lift_result (ds_mean E []) (world_after E None w tr s) /\
  (forall v, ds_mean E [] = Ok v ->
             simrun E fuel a b w = Returns v (world_after E None w tr s)) /\
  (forall e, ds_mean E [] = Err e ->
             simrun E fuel a b w = Raises e (world_after E None w tr s)).
Proof.
  intros Hrun Hc.
  assert (simrun E fuel a b w = lift_result (ds_mean E []) (world_after E None w tr s))
    as Hsim.
  { rewrite simrun_unfold. simpl. rewrite resolve_trial_global, Hrun, Hc. done. }
  split; [done|]. split; intros x Hx; rewrite Hsim, Hx; done.
Qed.

Lemma simrun_mean_of_nothing_witness :
  exists tr s,
    idle_trial = Finished tr s /\
    collect (server s) = Some [] /\
    simrun idle 5 0 1 (world0 idle 0%Z)
    = Raises (StatsError "mean of an empty series")
             (world_after idle None (world0 idle 0%Z) tr s).
Proof.
  destruct idle_trial as [tr s|tr e|] eqn:Hrun.
  - assert (collect (server s) = Some []) as Hc.
    { pose proof Hrun as Hrun'. vm_compute in Hrun'.
      injection Hrun' as <- <-. reflexivity. }
    exists tr, s. split; [reflexivity|]. split; [exact Hc|].
    destruct (simrun_mean_of_nothing idle 5 0 1 (world0 idle 0%Z) tr s Hrun Hc)
      as (_ & _ & H).
    apply H. reflexivity.
  - exfalso. vm_compute in Hrun. discriminate Hrun.
  - exfalso. vm_compute in Hrun. discriminate Hrun.
Defined.

(** C7.  [mg1.__init__] seeds the two streams with two successive draws
    below 2^32 from the random source of the simulator it is given, the
    inter-arrival stream with the first and the service stream with the
    second.  And the outcome of the program (what it prints and logs,
    every simulator step with its draws, in order, and the state it
    ends in) is the same whatever the process-wide random source held
    at the start: [random.seed(13579)] comes before its first use. *)
Theorem seeded_and_reproducible E :
  (forall (o : sim_object E) m a b dc,
     inter_arrival_time (state (mg1_init E o m a b dc))
       = mkStream (Expon m (seed1 E (the_rng o))) (expon E m (seed1 E (the_rng o))) 0 /\
     service_time (state (mg1_init E o m a b dc))
       = mkStream (TruncNorm a b (seed2 E (the_rng o)))
                  (truncnorm E a b (seed2 E (the_rng o))) 0 /\
     the_rng (mg1_init E o m a b dc) = rng_after E (the_rng o) /\
     (0 <= seed1 E (the_rng o) < 2 ^ 32)%Z /\
     (0 <= seed2 E (the_rng o) < 2 ^ 32)%Z) /\
  (forall fuel (r1 r2 : rng E), main E fuel (world0 E r1) = main E fuel (world0 E r2)).
Proof.
  split.
  - intros o m a b dc. unfold mg1_init, seed1, seed2, rng_after.
    pose proof (randrange_bound E (2 ^ 32) (the_rng o) eq_refl) as H1.
    pose proof (randrange_bound E (2 ^ 32)
                  (snd (randrange E (2 ^ 32) (the_rng o))) eq_refl) as H2.
    destruct (randrange E (2 ^ 32) (the_rng o)) as [s1 r1]. simpl in *.
    destruct (randrange E (2 ^ 32) r1) as [s2 r2]. simpl in *. done.
  - intros fuel r1 r2. by rewrite !main_unfold.
Qed.

(** A trial of the sparse externals by evaluation: customers arrive at
    times 400 and 800 and stay half a time unit each. *)
Example simrun_sparse :
  match simrun sparse 65 0 1 (world1 sparse 0%Z) with
  | Returns v w' => v = (1 # 2)%Q /\ system_times sparse 1 w' = [0.5%Q; 0.5%Q] /\
                    length (heap w') = 2
  | _ => False
  end.
Proof. vm_compute. done. Qed.

(** The same trial where no global [sim] is bound: the first customer
    fails at its first statement. *)
Example simrun_without_global :
  match simrun sparse 65 0 1 (world0 sparse 0%Z) with
  | Raises e _ => e = NameError "sim"
  | _ => False
  end.
Proof. vm_compute. done. Qed.

(** The whole program on the sparse externals by evaluation: 251
    simulators, the header and ten rows. *)
Example main_sparse :
  match main sparse 65 (world0 sparse 0%Z) with
  | Returns _ w' => length (heap w') = 251 /\ length (stdout w') = 11 /\
                    global_sim_ref w' = Some 0 /\ log_out w' = []
  | _ => False
  end.
Proof. vm_compute. done. Qed.

(** * Further properties of the queue *)

(** ** Failures of a run *)

(** The streams keep their sequences of draws. *)
Lemma reach_draws g s0 tr s :
  reach g s0 tr s ->
  draws (inter_arrival_time s) = draws (inter_arrival_time s0) /\
  draws (service_time s) = draws (service_time s0).
Proof.
  induction 1 as [|tr s l s' _ [IHi IHs] Hs]; [done|].
  apply step_streams in Hs.
  destruct l; try (destruct Hs as [-> ->]; done).
  destruct g0; destruct Hs as (_ & -> & ->); simpl; done.
Qed.

(** A run that raises stopped at a step that failed. *)
Lemma run_loop_raised g until s0 fuel : forall tr s tr' e,
  reach g s0 tr s ->
  run_loop fuel g until tr s = Raised tr' e ->
  exists s', reach g s0 tr' s' /\ step g s' = Crash e.
Proof.
  induction fuel as [|fuel IH]; intros tr s tr' e Hreach; rewrite run_loop_unfold;
    destruct (pending until s) eqn:Hpend; try done.
  destruct (step g s) as [l s'| |e'] eqn:Hs; [|done|].
  - apply IH. by econstructor.
  - intros [= <- <-]. eauto.
Qed.

(** Why a step of a run fails. *)
Lemma crash_cases g iat svt dc tr s e :
  reach g (fresh_queue iat svt dc) tr s -> step g s = Crash e ->
  (g = Unbound /\ e = NameError "sim") \/
  (e = ValueError "sleep: negative offset" /\
   exists k, (draws iat k < 0)%Q \/ (draws svt k < 0)%Q).
Proof.
  intros Hr Hs.
  destruct (reach_fresh _ _ _ _ _ _ Hr) as [HI _].
  destruct (reach_draws _ _ _ _ Hr) as [Hdi Hds]. simpl in Hdi, Hds.
  revert Hs. unfold step.
  destruct (running s) as [p|] eqn:Hrun'.
  - destruct (running_lookup s p HI Hrun') as [pr Hpr]. rewrite Hpr.
    destruct (p_code pr) as [|st k] eqn:Hcode.
    + by destruct (method_body (p_method pr)).
    + destruct st as [fmt x delta| |sid| |m]; simpl.
      * destruct x, g; simpl; try done. intros [= <-]. by left.
      * by destruct (acquire (now s) p (server s)) as [r granted].
      * destruct (Qlt_le_dec _ _) as [Hneg|_]; [|by destruct sid].
        intros [= <-]. right. split; [done|].
        destruct sid; simpl in Hneg; rewrite ?Hdi, ?Hds in Hneg; eauto.
      * by destruct (inv_release s p pr k HI Hrun' Hpr Hcode) as (r & resumed & -> & Hr').
      * done.
  - by destruct (eventlist s) as [|[t p] evs].
Qed.

(** The processes of the queue never misuse the server: a run can fail
    in two ways only, on the global name [sim] when it is not bound, and
    on a negative draw handed to [sleep]; it never fails on a release
    without acquire. *)
Theorem run_fails_only_on_name_or_draw fuel g until iat svt dc tr e :
  run fuel g until (fresh_queue iat svt dc) = Raised tr e ->
  (g = Unbound /\ e = NameError "sim") \/
  (e = ValueError "sleep: negative offset" /\
   exists k, (draws iat k < 0)%Q \/ (draws svt k < 0)%Q).
Proof.
  unfold run. intros Hrun.
  destruct (run_loop_raised _ _ _ _ _ _ _ _ (reach_nil g _) Hrun) as (s & Hr & Hs).
  by eapply crash_cases.
Qed.

Lemma run_fails_only_on_name_or_draw_witness :
  run 20 Unbound 1000 (example_queue 1 3 (Some []))
  = Raised (advance 7 Unbound [] (example_queue 1 3 (Some []))).1 (NameError "sim") /\
  ((Unbound = Unbound /\ NameError "sim" = NameError "sim") \/
   (NameError "sim" = ValueError "sleep: negative offset" /\
    exists k, ((fun _ => 1) k < 0)%Q \/ ((fun _ : nat => 3) k < 0)%Q)).
Proof.
  assert (run 20 Unbound 1000 (example_queue 1 3 (Some []))
          = Raised (advance 7 Unbound [] (example_queue 1 3 (Some []))).1
                   (NameError "sim")) as Hrun by (vm_compute; reflexivity).
  split; [exact Hrun|].
  exact (run_fails_only_on_name_or_draw _ _ _ _ _ _ _ _ Hrun).
Defined.

(** ** Time *)

Lemma schedule_sorted t p evs :
  StronglySorted earlier evs -> StronglySorted earlier (schedule t p evs).
Proof.
  induction 1 as [|[t' p'] rest Hs IH Hall]; simpl.
  - repeat constructor.
  - destruct (Qlt_le_dec t t') as [Hlt|Hle].
    + constructor; [by constructor|]. constructor.
      * by apply Qlt_le_weak.
      * eapply Forall_impl; [exact Hall|]. intros e He. unfold earlier in *. simpl in *.
        eapply Qle_trans; [by apply Qlt_le_weak|exact He].
    + constructor; [exact IH|]. apply Forall_forall. intros e He.
      apply elem_of_schedule_event in He as [->|He]; [exact Hle|].
      rewrite Forall_forall in Hall. by apply Hall.
Qed.

Lemma step_sleep_nonneg g s p sid d s' :
  step g s = Step (LSleep p sid d) s' -> (0 <= d)%Q.
Proof.
  unfold step. destruct (running s) as [q|].
  - destruct (processes s !! q) as [pr|]; [|done].
    destruct (p_code pr) as [|st k].
    + by destruct (method_body (p_method pr)).
    + destruct st as [fmt x delta| |sid'| |m]; simpl.
      * by destruct (eval_now g x s).
      * by destruct (acquire (now s) q (server s)).
      * destruct (Qlt_le_dec _ _) as [|Hle]; [done|].
        destruct sid'; simpl; intros [= _ _ <- _]; exact Hle.
      * by destruct (release (now s) q (server s)) as [[]|].
      * done.
  - by destruct (eventlist s) as [|[]].
Qed.

Lemma Qle_plus_nonneg (a d : Q) : (0 <= d)%Q -> (a <= a + d)%Q.
Proof.
  intros Hd. rewrite <- (Qplus_0_r a) at 1. by apply Qplus_le_r.
Qed.

(** A step keeps time in order, and does not turn the clock back. *)
Lemma step_mono g s l s' :
  Mono s -> step g s = Step l s' -> Mono s' /\ (now s <= now s')%Q.
Proof.
  intros [Hsort Hfut Harr] Hs.
  pose proof (step_sched _ _ _ _ Hs) as Hsc.
  pose proof (step_server _ _ _ _ Hs) as Hsv.
  assert (forall p, StronglySorted earlier (schedule (now s) p (eventlist s)) /\
            forall t' q, (t', q) ∈ schedule (now s) p (eventlist s) -> (now s <= t')%Q)
    as Hnow.
  { intros p. split; [by apply schedule_sorted|].
    intros t' q. rewrite elem_of_schedule_event. intros [[= -> _]|Hin].
    - apply Qle_refl.
    - by eapply Hfut. }
  destruct l; simpl in *.
  - destruct Hsc as (evs & Hev & Hev' & _ & Hnow'). rewrite Hev in *.
    apply StronglySorted_inv in Hsort as [Hsort Hall].
    split; [|rewrite Hnow'; eapply Hfut; by left].
    constructor; rewrite ?Hev', ?Hnow', ?Hsv; try done.
    + intros t' q Hin. rewrite Forall_forall in Hall. by apply (Hall _ Hin).
    + intros q ta Hin. eapply Qle_trans; [by eapply Harr|]. eapply Hfut. by left.
  - destruct Hsc as (Hnow' & Hev' & _). split; [|rewrite Hnow'; apply Qle_refl].
    constructor; rewrite ?Hev', ?Hnow', ?Hsv; done.
  - destruct Hsc as (Hnow' & Hev' & _). destruct Hsv as (-> & Harr' & _).
    split; [|rewrite Hnow'; apply Qle_refl].
    constructor; rewrite ?Hev', ?Hnow', ?Harr'; try done.
    intros q ta. rewrite elem_of_app, list_elem_of_singleton.
    intros [Hin|[= _ ->]]; [by eapply Harr|apply Qle_refl].
  - destruct Hsc as (Hnow' & _ & Hev'). pose proof (step_sleep_nonneg _ _ _ _ _ _ Hs) as Hd.
    split; [|rewrite Hnow'; apply Qle_refl].
    constructor; rewrite ?Hev', ?Hnow', ?Hsv; try done.
    + by apply schedule_sorted.
    + intros t' q. rewrite elem_of_schedule_event. intros [[= -> _]|Hin].
      * by apply Qle_plus_nonneg.
      * by eapply Hfut.
  - destruct Hsc as (Hnow' & _ & Hev'). destruct Hsv as (_ & _ & _ & ta & _ & Harr' & _).
    split; [|rewrite Hnow'; apply Qle_refl].
    constructor; rewrite ?Hev', ?Hnow', ?Harr'.
    + destruct resumed; [apply Hnow|done].
    + destruct resumed; [apply Hnow|done].
    + intros q ta'. unfold drop_arrival. rewrite list_elem_of_filter.
      intros [_ Hin]. by eapply Harr.
  - destruct Hsc as (Hnow' & _ & Hev'). split; [|rewrite Hnow'; apply Qle_refl].
    constructor; rewrite ?Hev', ?Hnow', ?Hsv; try done; apply Hnow.
  - destruct Hsc as (Hnow' & Hev' & _). split; [|rewrite Hnow'; apply Qle_refl].
    constructor; rewrite ?Hev', ?Hnow', ?Hsv; done.
  - destruct Hsc as (Hnow' & Hev' & _). split; [|rewrite Hnow'; apply Qle_refl].
    constructor; rewrite ?Hev', ?Hnow', ?Hsv; done.
Qed.

Lemma mono_fresh iat svt dc : Mono (fresh_queue iat svt dc).
Proof.
  constructor; simpl.
  - repeat constructor.
  - intros t p Hin. apply list_elem_of_singleton in Hin as [= -> _]. apply Qle_refl.
  - intros p ta Hin. by apply elem_of_nil in Hin.
Qed.

Lemma reach_mono g iat svt dc tr s :
  reach g (fresh_queue iat svt dc) tr s ->
  Mono s /\ (0 <= now s)%Q /\ Forall (fun x => (0 <= x)%Q) (samples_of tr).
Proof.
  intros Hr. remember (fresh_queue iat svt dc) as s0 eqn:Hs0.
  induction Hr as [|tr s l s' Hr IH Hs].
  - subst. split; [apply mono_fresh|]. split; [apply Qle_refl|constructor].
  - destruct IH as (HM & H0 & Hsam). subst s0.
    destruct (reach_fresh _ _ _ _ _ _ Hr) as [HI HH].
    destruct (step_mono _ _ _ _ HM Hs) as [HM' Hle].
    split; [done|]. split; [by eapply Qle_trans|].
    rewrite (samples_of_snoc _ _ (hist_rel _ _ _ HH)). apply Forall_app. split; [done|].
    destruct l; try constructor.
    pose proof (step_server _ _ _ _ Hs) as (-> & _ & _ & ta & Hta & _).
    apply arrival_of_elem in Hta. pose proof (mono_arrived _ HM _ _ Hta) as Hle'.
    apply (hist_arr _ _ _ HH) in Hta.
    rewrite (acquire_time_app _ _ _ _ Hta). simpl. constructor; [|constructor].
    unfold Qminus. by apply Qle_minus_iff in Hle'.
Qed.

(** Time along a run of a queue: the clock starts at 0 and never goes
    back, nothing is ever scheduled before the current time, and every
    system time that a release accounts for is non-negative. *)
Theorem time_moves_on g iat svt dc tr s :
  reach g (fresh_queue iat svt dc) tr s ->
  (0 <= now s)%Q /\
  (forall t p, (t, p) ∈ eventlist s -> (now s <= t)%Q) /\
  (forall l s', step g s = Step l s' -> (now s <= now s')%Q) /\
  Forall (fun x => (0 <= x)%Q) (samples_of tr).
Proof.
  intros Hr. destruct (reach_mono _ _ _ _ _ _ Hr) as (HM & H0 & Hsam).
  split_and!; try done.
  - apply (mono_future _ HM).
  - intros l s' Hs. by destruct (step_mono _ _ _ _ HM Hs).
Qed.

Lemma time_moves_on_witness :
  reach (OtherSim 10) (example_queue 1 3 (Some [])) busy_run.1 busy_run.2 /\
  (0 <= now busy_run.2)%Q /\
  Forall (fun x => (0 <= x)%Q) (samples_of busy_run.1).
Proof.
  split; [exact busy_run_reach|].
  destruct (time_moves_on _ _ _ _ _ _ busy_run_reach) as (H1 & _ & _ & H4).
  split; [exact H1|exact H4].
Defined.

(** ** Arrival times *)

Lemma arrivals_snoc di tr l s :
  (forall t, (t, 0) ∈ eventlist s ->
             t = arrival_clock di (pos (inter_arrival_time s))) ->
  (running s = Some 0 -> now s = arrival_clock di (pos (inter_arrival_time s))) ->
  draws (inter_arrival_time s) = di ->
  (forall pr, processes s !! 0 = Some pr ->
     pos (inter_arrival_time s)
     = count is_spawn tr + (if is_spawn l then 1 else 0)
       + match p_code pr with [_] => 1 | _ => 0 end) ->
  Arrivals di (tr ++ [l]) s.
Proof.
  intros H1 H2 H3 H4. constructor; try done.
  intros pr Hpr. rewrite count_snoc. by apply H4.
Qed.

Lemma step_arrivals dc g di s tr l s' :
  Inv s -> Hist dc tr s -> Arrivals di tr s ->
  step g s = Step l s' -> Arrivals di (tr ++ [l]) s'.
Proof.
  intros HI HH HA Hs.
  pose proof (step_sched _ _ _ _ Hs) as Hsc.
  pose proof (step_streams _ _ _ _ Hs) as Hst.
  pose proof (step_processes _ _ _ _ Hs) as Hsh.
  pose proof (step_server _ _ _ _ Hs) as Hsv.
  destruct (gen_lookup _ _ _ HH) as (gpr & Hgpr & Hgm).
  destruct HA as [Tev Trun Tiat Tpos].
  assert (forall p pr k pr', p <> 0 ->
            set_code p pr k (processes s) !! 0 = Some pr' -> pr' = gpr) as Hkeep.
  { intros p pr k pr' Hne Hl. apply set_code_lookup in Hl as [[? _]|[_ Hl]]; [done|].
    by pose proof (eq_trans (eq_sym Hl) Hgpr) as [= ->]. }
  destruct l; simpl in *.
  - destruct Hsc as (evs & Hev & Hev' & Hrun' & Hnow'). destruct Hst as [Hi Hv].
    destruct Hsh as (Hrun & Hps & _).
    apply arrivals_snoc; simpl; rewrite ?Nat.add_0_r, ?Hi, ?Hv, ?Hev', ?Hrun', ?Hnow', ?Hps; try done.
    + intros t' Hin. apply Tev. rewrite Hev. by right.
    + intros [= ->]. apply Tev. rewrite Hev. by left.
  - destruct Hsc as (Hnow' & Hev' & Hrun'). destruct Hst as [Hi Hv].
    destruct Hsh as (Hrun & pr & st & k & Hpr & Hcode & Hact & Hps).
    destruct (running_code _ _ _ _ _ _ _ HI HH Hrun Hpr Hcode)
      as [(-> & _ & [[-> _]|[-> _]])|(Hne & _)]; try done.
    apply arrivals_snoc; simpl; rewrite ?Nat.add_0_r, ?Hi, ?Hv, ?Hev', ?Hrun', ?Hnow', ?Hps; try done.
    intros pr' Hl. apply (Hkeep _ _ _ _ Hne) in Hl as ->. by apply Tpos.
  - destruct Hsc as (Hnow' & Hev' & Hrun'). destruct Hst as [Hi Hv].
    destruct Hsh as (Hrun & pr & st & k & Hpr & Hcode & Hact & Hps).
    destruct (running_code _ _ _ _ _ _ _ HI HH Hrun Hpr Hcode)
      as [(-> & _ & [[-> _]|[-> _]])|(Hne & _)]; try done.
    apply arrivals_snoc; simpl; rewrite ?Nat.add_0_r, ?Hi, ?Hv, ?Hev', ?Hrun', ?Hnow', ?Hps; try done.
    + destruct granted; [|done]. intros [= ->]. done.
    + intros pr' Hl. apply (Hkeep _ _ _ _ Hne) in Hl as ->. by apply Tpos.
  - destruct Hsc as (Hnow' & Hrun' & Hev').
    destruct Hsh as (Hrun & pr & st & k & Hpr & Hcode & Hact & Hps).
    destruct (inv_run s HI p Hrun) as [_ Hnev].
    destruct (running_code _ _ _ _ _ _ _ HI HH Hrun Hpr Hcode)
      as [(-> & _ & [[-> ->]|[-> _]])|(Hne & _ & Hg)]; simpl in Hact; simplify_eq.
    + destruct Hst as (-> & Hi & Hv).
      apply arrivals_snoc; simpl; rewrite ?Nat.add_0_r, ?Hi, ?Hv, ?Hev', ?Hrun', ?Hnow', ?Hps; simpl; try done.
      * intros t. rewrite elem_of_schedule_event. intros [[= ->]|Hin].
        -- by rewrite Trun.
        -- exfalso. apply Hnev. unfold ev_pids. apply list_elem_of_fmap. by exists (t, 0).
      * intros pr' Hl. apply set_code_lookup in Hl as [[_ ->]|[? _]]; [|done].
        simpl. rewrite (Tpos _ Hpr), Hcode. simpl. lia.
    + destruct st; simpl in Hact; simplify_eq. destruct Hst as (-> & Hv & Hi).
      apply arrivals_snoc; simpl; rewrite ?Nat.add_0_r, ?Hi, ?Hv, ?Hev', ?Hrun', ?Hnow', ?Hps; simpl; try done.
      * intros t. rewrite elem_of_schedule_event. intros [[= _ Hz]|Hin]; [congruence|].
        by apply Tev.
      * intros pr' Hl. apply (Hkeep _ _ _ _ Hne) in Hl as ->. by apply Tpos.
  - destruct Hsc as (Hnow' & Hrun' & Hev'). destruct Hst as [Hi Hv].
    destruct Hsv as (_ & _ & Hres & _).
    destruct Hsh as (Hrun & pr & st & k & Hpr & Hcode & Hact & Hps).
    destruct (running_code _ _ _ _ _ _ _ HI HH Hrun Hpr Hcode)
      as [(-> & _ & [[-> _]|[-> _]])|(Hne & _)]; try done.
    apply arrivals_snoc; simpl; rewrite ?Nat.add_0_r, ?Hi, ?Hv, ?Hev', ?Hrun', ?Hnow', ?Hps; try done.
    + destruct resumed as [w|]; [|done].
      intros t'. rewrite elem_of_schedule_event. intros [[= _ <-]|?]; [|by apply Tev].
      exfalso. apply (gen_not_in_system _ _ _ HI HH), waiting_in_arrivals; [done|].
      destruct (waiting (server s)); simplify_eq/=. by left.
    + intros pr' Hl. apply (Hkeep _ _ _ _ Hne) in Hl as ->. by apply Tpos.
  - destruct Hsc as (Hnow' & Hrun' & Hev'). destruct Hst as [Hi Hv].
    destruct Hsh as (Hrun & -> & pr & k & Hpr & Hcode & Hps).
    destruct (running_code _ _ _ _ _ _ _ HI HH Hrun Hpr Hcode)
      as [(-> & _ & [[? _]|[? ->]])|(Hne & _ & ?)]; simplify_eq.
    apply arrivals_snoc; simpl; rewrite ?Nat.add_0_r, ?Hi, ?Hv, ?Hev', ?Hrun', ?Hnow', ?Hps; try done.
    + intros t'. rewrite elem_of_schedule_event. intros [[= _ Hz]|?]; [|by apply Tev].
      pose proof (hist_spawned _ _ _ HH). lia.
    + intros pr'. rewrite lookup_app_l.
      2:{ unfold set_code. rewrite length_insert. by eapply lookup_lt_Some. }
      intros Hl. apply set_code_lookup in Hl as [[_ ->]|[? _]]; [|done].
      simpl. rewrite (Tpos _ Hpr), Hcode. simpl. lia.
  - destruct Hsc as (Hnow' & Hev' & Hrun'). destruct Hst as [Hi Hv].
    destruct Hsh as (Hrun & pr & Hpr & Hcode & Hm & Hps).
    pose proof (proj1 (hist_gen _ _ _ HH p pr Hpr) Hm) as ->. simplify_eq.
    apply arrivals_snoc; simpl; rewrite ?Nat.add_0_r, ?Hi, ?Hv, ?Hev', ?Hrun', ?Hnow', ?Hps; try done.
    intros pr' Hl. apply set_code_lookup in Hl as [[_ ->]|[? _]]; [|done].
    simpl. rewrite (Tpos _ Hpr), Hcode. simpl. lia.
  - destruct Hsc as (Hnow' & Hev' & Hrun'). destruct Hst as [Hi Hv].
    destruct Hsh as (Hrun & Hps & _).
    apply arrivals_snoc; simpl; rewrite ?Nat.add_0_r, ?Hi, ?Hv, ?Hev', ?Hrun', ?Hnow', ?Hps; done.
Qed.

Lemma arrivals_fresh iat svt dc :
  pos iat = 0 -> Arrivals (draws iat) [] (fresh_queue iat svt dc).
Proof.
  intros Hpos. constructor; simpl; try done.
  - intros t Hin. apply list_elem_of_singleton in Hin. rewrite Hpos. simpl. congruence.
  - intros pr [= <-]. simpl. by rewrite Hpos.
Qed.

Lemma reach_arrivals g iat svt dc tr s :
  pos iat = 0 -> reach g (fresh_queue iat svt dc) tr s -> Arrivals (draws iat) tr s.
Proof.
  intros Hpos Hr. remember (fresh_queue iat svt dc) as s0 eqn:Hs0.
  induction Hr as [|tr s l s' Hr IH Hs]; subst.
  - by apply arrivals_fresh.
  - destruct (reach_fresh _ _ _ _ _ _ Hr) as [HI HH].
    eapply step_arrivals; eauto.
Qed.

(** [gen_arrivals] spawns the customers at the arrival times of its
    stream: the [k]-th customer, which is process [k], is spawned when
    the clock shows the sum of the first [k] inter-arrival draws, and
    [k] draws have been taken from the stream by then. *)
Theorem customers_arrive_on_schedule g iat svt dc tr s p m child s' :
  pos iat = 0 ->
  reach g (fresh_queue iat svt dc) tr s ->
  step g s = Step (LSpawn p m child) s' ->
  p = 0 /\ m = m_customer /\
  child = S (count is_spawn tr) /\
  pos (inter_arrival_time s) = child /\
  now s = arrival_clock (draws iat) child.
Proof.
  intros Hpos Hr Hs.
  destruct (reach_fresh _ _ _ _ _ _ Hr) as [HI HH].
  pose proof (reach_arrivals _ _ _ _ _ _ Hpos Hr) as HA.
  pose proof (step_processes _ _ _ _ Hs) as (Hrun & -> & pr & k & Hpr & Hcode & _).
  destruct (running_code _ _ _ _ _ _ _ HI HH Hrun Hpr Hcode)
    as [(-> & _ & [[? _]|[? ->]])|(Hne & _ & ?)]; simplify_eq.
  pose proof (arr_pos _ _ _ HA _ Hpr) as Hp. rewrite Hcode in Hp. simpl in Hp.
  pose proof (hist_spawned _ _ _ HH) as Hlen.
  split_and!; try done; try lia.
  rewrite (arr_running _ _ _ HA Hrun). f_equal. lia.
Qed.

Lemma customers_arrive_on_schedule_witness :
  let g := OtherSim 10 in
  let q := example_queue 1 3 (Some []) in
  let tr := (advance 11 g [] q).1 in
  let s := (advance 11 g [] q).2 in
  reach g q tr s /\
  exists s', step g s = Step (LSpawn 0 m_customer 2) s' /\
             2 = S (count is_spawn tr) /\
             now s = arrival_clock (fun _ => 1%Q) 2.
Proof.
  intros g q tr s.
  assert (reach g q tr s) as Hr by (apply advance_reach; constructor).
  split; [exact Hr|].
  assert (exists s', step g s = Step (LSpawn 0 m_customer 2) s') as [s' Hs].
  { eexists. vm_compute. reflexivity. }
  exists s'. split; [exact Hs|].
  pose proof (fun Hp => customers_arrive_on_schedule g _ _ _ tr s 0 m_customer 2 s' Hp Hr Hs)
    as H.
  destruct (H eq_refl) as (_ & _ & H3 & _ & H5).
  split; [exact H3|exact H5].
Defined.

(** ** The use of the two streams *)

Lemma sleeps_snoc g tr l :
  sleeps g (tr ++ [l]) = sleeps g tr ++ sleeps g [l].
Proof. unfold sleeps. by rewrite omap_app. Qed.

Lemma draws_from_snoc d k n :
  draws_from d k (S n) = draws_from d k n ++ [d (k + n)].
Proof.
  unfold draws_from. replace (S n) with (n + 1) by lia.
  by rewrite seq_app, fmap_app.
Qed.

Lemma reach_sleeps g s0 tr s :
  reach g s0 tr s ->
  (pos (inter_arrival_time s)
   = pos (inter_arrival_time s0) + length (sleeps InterArrival tr) /\
   sleeps InterArrival tr
   = draws_from (draws (inter_arrival_time s0)) (pos (inter_arrival_time s0))
                (length (sleeps InterArrival tr))) /\
  (pos (service_time s) = pos (service_time s0) + length (sleeps Service tr) /\
   sleeps Service tr
   = draws_from (draws (service_time s0)) (pos (service_time s0))
                (length (sleeps Service tr))).
Proof.
  induction 1 as [|tr s l s' Hr [[IHi IHis] [IHs IHss]] Hs]; [by rewrite !Nat.add_0_r|].
  destruct (reach_draws _ _ _ _ Hr) as [Hdi Hds].
  apply step_streams in Hs. rewrite !sleeps_snoc, !length_app.
  destruct l as [| | |p sid d| | | |]; simpl;
    try (destruct Hs as [-> ->]; rewrite !Nat.add_0_r, !app_nil_r; done).
  destruct sid; destruct Hs as (-> & -> & ->); simpl;
    rewrite !Nat.add_0_r, !app_nil_r; (split; split; try done; try lia).
  - rewrite Nat.add_1_r, draws_from_snoc, <- IHis. by rewrite Hdi, IHi.
  - rewrite Nat.add_1_r, draws_from_snoc, <- IHss. by rewrite Hds, IHs.
Qed.

Lemma reach_sleepers g iat svt dc tr s :
  reach g (fresh_queue iat svt dc) tr s ->
  forall p sid d, LSleep p sid d ∈ tr ->
    (p = 0 /\ sid = InterArrival) \/ (p <> 0 /\ sid = Service).
Proof.
  intros Hr. remember (fresh_queue iat svt dc) as s0 eqn:Hs0.
  induction Hr as [|tr s l s' Hr IH Hs]; intros p sid d Hin.
  - by apply elem_of_nil in Hin.
  - apply elem_of_app in Hin as [Hin|Hin]; [by apply (IH p sid d)|].
    apply list_elem_of_singleton in Hin as <-. subst s0.
    destruct (reach_fresh _ _ _ _ _ _ Hr) as [HI HH].
    pose proof (step_processes _ _ _ _ Hs) as (Hrun & pr & st & k & Hpr & Hcode & Hact & _).
    simpl in Hrun, Hpr, Hact.
    destruct (running_code _ _ _ _ _ _ _ HI HH Hrun Hpr Hcode)
      as [(-> & _ & [[-> ->]|[-> _]])|(Hne & _ & Hg)]; simpl in Hact; simplify_eq.
    + by left.
    + right. destruct st; simpl in Hact; simplify_eq. done.
Qed.

(** Every sleep is one draw, taken in order: the sleeps of the arrival
    process are the inter-arrival stream's draws from where the stream
    stood when the queue was built, one by one and none skipped, and the
    sleeps of the customers are the service stream's in the same way.
    The arrival process never draws a service time and no customer draws
    an inter-arrival time. *)
Theorem every_sleep_is_the_next_draw g iat svt dc tr s :
  reach g (fresh_queue iat svt dc) tr s ->
  sleeps InterArrival tr
  = draws_from (draws iat) (pos iat) (length (sleeps InterArrival tr)) /\
  pos (inter_arrival_time s) = pos iat + length (sleeps InterArrival tr) /\
  sleeps Service tr
  = draws_from (draws svt) (pos svt) (length (sleeps Service tr)) /\
  pos (service_time s) = pos svt + length (sleeps Service tr) /\
  (forall p sid d, LSleep p sid d ∈ tr ->
     (p = 0 /\ sid = InterArrival) \/ (p <> 0 /\ sid = Service)).
Proof.
  intros Hr. destruct (reach_sleeps _ _ _ _ Hr) as [[H1 H2] [H3 H4]]. simpl in *.
  split_and!; try done. by eapply reach_sleepers.
Qed.

Lemma every_sleep_is_the_next_draw_witness :
  reach (OtherSim 10) (example_queue 1 3 (Some [])) busy_run.1 busy_run.2 /\
  sleeps Service busy_run.1
  = draws_from (fun _ => 3%Q) 0 (length (sleeps Service busy_run.1)) /\
  pos (service_time busy_run.2) = 0 + length (sleeps Service busy_run.1).
Proof.
  split; [exact busy_run_reach|].
  destruct (every_sleep_is_the_next_draw _ _ _ _ _ _ busy_run_reach)
    as (_ & _ & H3 & H4 & _).
  split; [exact H3|exact H4].
Defined.

(** ** What the program logs *)

Section LogFacts.

Context (E : Externals).

Lemma emitted_warning tr : emitted WARNING tr = [].
Proof. reflexivity. Qed.

(** A trial at level WARNING logs nothing, however it ends. *)
Lemma simrun_quiet fuel a b (w : world E) :
  log_level w = WARNING ->
  match simrun E fuel a b w with
  | Returns _ w' | Raises _ w' => log_out w' = log_out w /\ log_level w' = WARNING
  | Timeout => True
  end.
Proof.
  intros Hlv. rewrite simrun_unfold. simpl.
  destruct (run _ _ _ _) as [tr s|tr e|]; simpl; try done.
  unfold lift_result, world_after.
  destruct (ds_mean E _); simpl; rewrite Hlv, emitted_warning, app_nil_r; done.
Qed.

Lemma trials_quiet fuel a b n : forall z (w : world E),
  log_level w = WARNING ->
  match trials E fuel n a b z w with
  | Returns _ w' | Raises _ w' => log_out w' = log_out w /\ log_level w' = WARNING
  | Timeout => True
  end.
Proof.
  induction n as [|n IH]; intros z w Hlv; simpl; [done|].
  unfold mbind. pose proof (simrun_quiet fuel a b w Hlv) as Hq.
  destruct (simrun E fuel a b w) as [v w1|e w1|]; try done.
  destruct Hq as [Ho Hl]. specialize (IH (z ++ [v]) w1 Hl).
  destruct (trials E fuel n a b (z ++ [v]) w1) as [zs w2|e w2|]; try done;
    destruct IH as [-> ->]; done.
Qed.

Lemma sweep_quiet fuel x : forall w : world E,
  log_level w = WARNING ->
  match sweep E fuel x w with
  | Returns _ w' | Raises _ w' => log_out w' = log_out w /\ log_level w' = WARNING
  | Timeout => True
  end.
Proof.
  induction x as [|b x IH]; intros w Hlv; [done|].
  rewrite sweep_cons. unfold mbind at 1.
  pose proof (trials_quiet fuel 0 b 25 [] w Hlv) as Hq.
  destruct (trials E fuel 25 0 b [] w) as [z w1|e w1|]; try done.
  destruct Hq as [Ho Hl]. unfold mbind, print.
  set (w2 := mkWorld _ _ _ _ _ _ _).
  specialize (IH w2 Hl).
  destruct (sweep E fuel x w2) as [u w3|e w3|]; try done;
    destruct IH as [-> ->]; done.
Qed.

(** Only the first run of the program logs.  When the program runs to
    its end, what the logger has passed on are the records of the run
    up to time 10, in order, and nothing from the 250 runs of the sweep:
    whatever the customers of the sweep do, the level is WARNING by
    then and stays there. *)
Theorem only_the_first_run_logs fuel (w w' : world E) :
  main E fuel w = Returns tt w' ->
  exists tr s,
    run fuel ThisSim 10
        (queue_of E (fst (simulator_rng E (Some "mg1") (seed E 13579))) 1.2 0 0.8 None)
    = Finished tr s /\
    log_out w' = log_out w ++ log_records tr /\
    log_level w' = WARNING.
Proof.
  rewrite main_unfold. cbv zeta.
  destruct (run _ _ _ _) as [tr s|tr e|]; try done.
  intros Hm. exists tr, s. split; [done|].
  unfold mbind, print in Hm.
  set (w2 := mkWorld _ _ _ _ _ _ _) in Hm.
  pose proof (sweep_quiet fuel (linspace 0.1 3.0 10) w2 eq_refl) as Hq.
  rewrite Hm in Hq. destruct Hq as [-> ->]. done.
Qed.

End LogFacts.


Lemma only_the_first_run_logs_witness :
  match main early 65 (world0 early 0%Z) with
  | Returns _ w' => log_out w' = [mkLog arrive_fmt 4 0 1; mkLog arrive_fmt 4.5 1 0]
  | _ => False
  end.
Proof.
  pose proof (only_the_first_run_logs early 65 (world0 early 0%Z)) as H.
  assert (returned (main early 65 (world0 early 0%Z)) = true) as Hret
    by (vm_compute; reflexivity).
  destruct (main early 65 (world0 early 0%Z)) as [[] w'|e w'|]; try done.
  destruct (H w' eq_refl) as (tr & s & Hrun & Hout & _).
  rewrite Hout. revert Hrun. vm_compute. intros [= <- _]. reflexivity.
Defined.

(** ** The stop time of a run *)

Lemma Qminus_nonneg_le (t ta : Q) : (0 <= ta)%Q -> (t - ta <= t)%Q.
Proof.
  intros H. unfold Qminus. rewrite <- (Qplus_0_r t) at 2.
  apply Qplus_le_r. apply (Qopp_le_compat 0 ta) in H. exact H.
Qed.

Lemma step_running g s l s' :
  step g s = Step l s' ->
  match l with
  | LWake _ _ => running s = None
  | _ => exists p, running s = Some p
  end.
Proof.
  intros Hs. pose proof (step_processes _ _ _ _ Hs) as Hsh.
  destruct l; simpl in *; try tauto; destruct Hsh as [Hrun _]; eauto.
Qed.

Lemma step_before dc g until tr s l s' :
  Inv s -> Hist dc tr s -> Mono s -> (0 <= now s)%Q ->
  Before until tr s -> pending until s = true ->
  step g s = Step l s' -> Before until (tr ++ [l]) s'.
Proof.
  intros HI HH HM H0 [Brun Blab Barr Bsam] Hpend Hs.
  pose proof (step_sched _ _ _ _ Hs) as Hsc.
  pose proof (step_server _ _ _ _ Hs) as Hsv.
  pose proof (step_running _ _ _ _ Hs) as Hrun.
  assert (match l with LWake _ _ => True | _ => (now s < until)%Q end) as Hlt.
  { destruct l; try done; destruct Hrun as [q Hq]; by eapply Brun. }
  constructor.
  - intros q Hq. destruct l; simpl in *.
    + destruct Hsc as (evs & Hev & _ & _ & ->). by eapply pending_wake.
    + destruct Hsc as (-> & _). done.
    + destruct Hsc as (-> & _). done.
    + destruct Hsc as (-> & _). done.
    + destruct Hsc as (-> & _). done.
    + destruct Hsc as (-> & _). done.
    + destruct Hsc as (-> & _). done.
    + destruct Hsc as (-> & _). done.
  - apply Forall_app. split; [done|]. constructor; [|constructor].
    unfold in_time. destruct l; simpl in *; try done.
    + destruct Hsc as (evs & Hev & _). split.
      * eapply Qle_trans; [exact H0|]. eapply (mono_future _ HM). rewrite Hev. by left.
      * by eapply pending_wake.
    + destruct Hsv as (-> & _). done.
    + destruct Hsv as (-> & _). done.
  - intros q ta. destruct l; simpl in *; try (rewrite Hsv; by apply Barr).
    + destruct Hsv as (-> & -> & _). rewrite elem_of_app, list_elem_of_singleton.
      intros [Hin|[= _ ->]]; [by eapply Barr|done].
    + destruct Hsv as (_ & _ & _ & ta' & _ & -> & _). unfold drop_arrival.
      rewrite list_elem_of_filter. intros [_ Hin]. by eapply Barr.
  - rewrite (samples_of_snoc _ _ (hist_rel _ _ _ HH)). apply Forall_app. split; [done|].
    destruct l; try constructor.
    destruct Hsv as (-> & _ & _ & ta & Hta & _).
    apply arrival_of_elem in Hta. pose proof (Barr _ _ Hta) as Hta0.
    apply (hist_arr _ _ _ HH) in Hta.
    rewrite (acquire_time_app _ _ _ _ Hta). simpl. constructor; [|constructor].
    eapply Qle_lt_trans; [by apply Qminus_nonneg_le|exact Hlt].
Qed.

Lemma run_loop_before g until iat svt dc fuel : forall tr s tr' s'',
  reach g (fresh_queue iat svt dc) tr s -> Before until tr s ->
  run_loop fuel g until tr s = Finished tr' s'' ->
  exists s', reach g (fresh_queue iat svt dc) tr' s' /\ Before until tr' s' /\
             pending until s' = false /\ s'' = stopped until s'.
Proof.
  induction fuel as [|fuel IH]; intros tr s tr' s'' Hreach HB; rewrite run_loop_unfold;
    destruct (pending until s) eqn:Hpend; try done;
    try (intros [= <- <-]; by eauto).
  destruct (step g s) as [l s'| |e] eqn:Hs; [| |done].
  - apply IH; [by econstructor|].
    destruct (reach_fresh _ _ _ _ _ _ Hreach) as [HI HH].
    destruct (reach_mono _ _ _ _ _ _ Hreach) as (HM & H0 & _).
    by eapply step_before.
  - intros Hfin. destruct (run_loop_sound g until _ (S fuel) tr s tr' s'' Hreach)
      as (s1 & _ & Hp1 & ->).
    { by rewrite run_loop_unfold, Hpend, Hs. }
    injection Hfin as <- Heq. exfalso.
    assert (pending until s = pending until s1) as Hsame.
    { rewrite Heq. unfold pending, stopped. simpl. done. }
    congruence.
Qed.

Lemma before_fresh until iat svt dc : Before until [] (fresh_queue iat svt dc).
Proof.
  constructor; simpl; try done.
  intros p ta Hin. by apply elem_of_nil in Hin.
Qed.

(** A run stops in time: when [run] returns, the clock shows the stop
    time, no process is running and every event left is at the stop
    time or later; everything the trace records, each wake, acquire and
    release, happened at a time from 0 up to but not including the stop
    time; and every system time collected lies from 0 up to but not
    including the stop time. *)
Theorem run_stops_in_time fuel g until iat svt dc tr s :
  run fuel g until (fresh_queue iat svt dc) = Finished tr s ->
  now s = until /\ running s = None /\
  (forall t p, (t, p) ∈ eventlist s -> (until <= t)%Q) /\
  Forall (in_time until) tr /\
  Forall (fun x => (0 <= x < until)%Q) (samples_of tr).
Proof.
  intros Hrun.
  destruct (run_loop_before g until iat svt dc fuel [] (fresh_queue iat svt dc) tr s)
    as (s' & Hr & HB & Hp & ->); [constructor|apply before_fresh|exact Hrun|].
  destruct (reach_mono _ _ _ _ _ _ Hr) as (HM & _ & Hnn).
  unfold stopped; simpl. unfold pending in Hp.
  destruct (running s') eqn:Hrs; [done|].
  split_and!; try done.
  - intros t p Hin. destruct (eventlist s') as [|[t0 p0] evs] eqn:Hev.
    { by apply elem_of_nil in Hin. }
    destruct (Qlt_le_dec t0 until) as [|Hle]; [done|].
    pose proof (mono_sorted _ HM) as Hsort. rewrite Hev in Hsort.
    apply StronglySorted_inv in Hsort as [_ Hall].
    apply elem_of_cons in Hin as [[= -> _]|Hin]; [done|].
    rewrite Forall_forall in Hall. eapply Qle_trans; [exact Hle|].
    apply (Hall _ Hin).
  - apply (before_labels _ _ _ HB).
  - pose proof (before_samples _ _ _ HB) as Hlt.
    rewrite Forall_forall in *. intros x Hx. split; [by apply Hnn|by apply Hlt].
Qed.

Lemma run_stops_in_time_witness :
  exists tr s,
    run 65 (OtherSim 10) 1000 (example_queue 400 0.5 (Some [])) = Finished tr s /\
    now s = 1000%Q /\
    Forall (fun x => (0 <= x < 1000)%Q) (samples_of tr).
Proof.
  assert (exists tr s, run 65 (OtherSim 10) 1000 (example_queue 400 0.5 (Some []))
                       = Finished tr s) as (tr & s & Hrun).
  { eexists _, _. vm_compute. reflexivity. }
  exists tr, s. split; [exact Hrun|].
  destruct (run_stops_in_time _ _ _ _ _ _ _ _ Hrun) as (H1 & _ & _ & _ & H5).
  split; [exact H1|exact H5].
Defined.

(** ** The clock in the log *)

Lemma log_times_snoc tr l :
  log_times (tr ++ [l])
  = log_times tr ++ match l with LLog _ m => [lr_now m] | _ => [] end.
Proof.
  unfold log_times, log_records. rewrite omap_app, fmap_app. f_equal. by destruct l.
Qed.

Lemma StronglySorted_snoc {A} (R : A -> A -> Prop) (l : list A) (x : A) :
  StronglySorted R l -> Forall (fun y => R y x) l -> StronglySorted R (l ++ [x]).
Proof.
  induction 1 as [|y l Hs IH Hall]; intros Hx; simpl.
  - repeat constructor.
  - apply Forall_cons in Hx as [Hyx Hx]. constructor; [by apply IH|].
    apply Forall_app. split; [done|]. by constructor.
Qed.

(** When the global [sim] is the simulator the queue runs in, as in the
    first run of the program, a customer's log record carries the
    simulator's clock at the moment of the call.  So the time stamps of
    the records of a run never decrease, and lie between 0 and the
    current time. *)
Theorem log_shows_own_clock iat svt dc tr s :
  reach ThisSim (fresh_queue iat svt dc) tr s ->
  (forall p m s', step ThisSim s = Step (LLog p m) s' -> lr_now m = now s) /\
  Forall (fun t => (0 <= t <= now s)%Q) (log_times tr) /\
  StronglySorted Qle (log_times tr).
Proof.
  intros Hr. split.
  { intros p m s' Hs. destruct (reach_fresh _ _ _ _ _ _ Hr) as [HI _].
    destruct (step_log _ _ _ _ _ HI Hs) as (_ & Hnow & _). simpl in Hnow. congruence. }
  remember (fresh_queue iat svt dc) as s0 eqn:Hs0.
  induction Hr as [|tr s l s' Hr IH Hs].
  - split; constructor.
  - destruct IH as [Hall Hsort]. subst s0.
    destruct (reach_fresh _ _ _ _ _ _ Hr) as [HI _].
    destruct (reach_mono _ _ _ _ _ _ Hr) as (HM & H0 & _).
    destruct (step_mono _ _ _ _ HM Hs) as [_ Hle].
    assert (Forall (fun t => (0 <= t <= now s')%Q) (log_times tr)) as Hall'.
    { eapply Forall_impl; [exact Hall|]. intros t [Ht0 Ht]. split; [done|].
      by eapply Qle_trans. }
    rewrite log_times_snoc. destruct l; rewrite ?app_nil_r; try done.
    destruct (step_log _ _ _ _ _ HI Hs) as (_ & Hnow & _). simpl in Hnow.
    injection Hnow as Hnow. split.
    + apply Forall_app. split; [done|]. constructor; [|constructor].
      rewrite <- Hnow. done.
    + apply StronglySorted_snoc; [done|]. rewrite <- Hnow.
      eapply Forall_impl; [exact Hall|]. by intros t [_ Ht].
Qed.

Lemma log_shows_own_clock_witness :
  let q := example_queue 1 3 None in
  reach ThisSim q (advance 40 ThisSim [] q).1 (advance 40 ThisSim [] q).2 /\
  log_times (advance 40 ThisSim [] q).1 = [1; 2; 3; 4; 4]%Q /\
  StronglySorted Qle (log_times (advance 40 ThisSim [] q).1).
Proof.
  intros q.
  assert (reach ThisSim q (advance 40 ThisSim [] q).1 (advance 40 ThisSim [] q).2) as Hr
    by (apply advance_reach; constructor).
  split; [exact Hr|]. split; [vm_compute; reflexivity|].
  by destruct (log_shows_own_clock _ _ _ _ _ Hr) as (_ & _ & H).
Defined.

(** ** The order of service *)

(** The server after a step that calls it. *)
Lemma step_queue g s l s' :
  step g s = Step l s' ->
  match l with
  | LAcquire p t granted => acquire (now s) p (server s) = (server s', granted)
  | LRelease p t resumed => release (now s) p (server s) = Ok (server s', resumed)
  | _ => server s' = server s
  end.
Proof.
  unfold step. destruct (running s) as [p|] eqn:Hrun.
  - destruct (processes s !! p) as [pr|] eqn:Hpr; [|done].
    destruct (p_code pr) as [|st k] eqn:Hcode.
    + destruct (method_body (p_method pr)); by intros [= <- <-].
    + destruct st as [fmt x delta| |sid| |m]; simpl.
      * destruct (eval_now g x s); simpl; [|done]. by intros [= <- <-].
      * destruct (acquire (now s) p (server s)) as [r granted] eqn:Ha. simpl.
        by intros [= <- <-].
      * destruct (Qlt_le_dec _ _); [done|]. destruct sid; by intros [= <- <-].
      * destruct (release (now s) p (server s)) as [[r resumed]|] eqn:Hrel; simpl; [|done].
        by intros [= <- <-].
      * by intros [= <- <-].
  - destruct (eventlist s) as [|[t p] evs]; [done|]. by intros [= <- <-].
Qed.

Lemma acquirers_snoc tr l :
  acquirers (tr ++ [l])
  = acquirers tr ++ match l with LAcquire p _ _ => [p] | _ => [] end.
Proof. unfold acquirers. rewrite omap_app. f_equal. by destruct l. Qed.

Lemma releasers_snoc tr l :
  releasers (tr ++ [l])
  = releasers tr ++ match l with LRelease p _ _ => [p] | _ => [] end.
Proof. unfold releasers. rewrite omap_app. f_equal. by destruct l. Qed.

Lemma acquirers_actions p tr : p ∈ acquirers tr -> AAcquire ∈ actions p tr.
Proof.
  unfold acquirers, actions. rewrite !list_elem_of_omap.
  intros (l & Hl & Hp). exists l. split; [done|].
  destruct l; simplify_eq. simpl. by rewrite Nat.eqb_refl.
Qed.

Lemma single_server (p : pid) (l : list pid) :
  length l <= 1 -> p ∈ l -> l = [p].
Proof.
  destruct l as [|q [|q' l]]; simpl; intros Hlen Hin; try lia.
  - by apply elem_of_nil in Hin.
  - by apply list_elem_of_singleton in Hin as ->.
Qed.

Lemma drop_pid_single p : drop_pid p [p] = [].
Proof.
  unfold drop_pid. rewrite filter_cons. by destruct (decide (p <> p)).
Qed.

Lemma step_fifo dc g tr s l s' :
  Inv s -> Hist dc tr s ->
  acquirers tr = releasers tr ++ in_service (server s) ++ waiting (server s) ->
  (in_service (server s) = [] -> waiting (server s) = []) ->
  NoDup (acquirers tr) ->
  step g s = Step l s' ->
  acquirers (tr ++ [l])
  = releasers (tr ++ [l]) ++ in_service (server s') ++ waiting (server s') /\
  (in_service (server s') = [] -> waiting (server s') = []) /\
  NoDup (acquirers (tr ++ [l])).
Proof.
  intros HI HH Hq Hwc Hnd Hs.
  pose proof (step_queue _ _ _ _ Hs) as Hsv.
  rewrite acquirers_snoc, releasers_snoc.
  destruct l; simpl in *; rewrite ?app_nil_r, ?Hsv; try done.
  - pose proof (step_processes _ _ _ _ Hs) as (Hrun & pr & st & k & Hpr & Hcode & Hact & _).
    simpl in Hrun, Hpr, Hact.
    assert (p ∉ acquirers tr) as Hnew.
    { intros Hin. apply acquirers_actions in Hin.
      destruct st; simpl in Hact; simplify_eq.
      destruct (running_code _ _ _ _ _ _ _ HI HH Hrun Hpr Hcode)
        as [(_ & _ & [[? _]|[? _]])|(_ & Hm & _)]; try done.
      destruct (running_customer s p pr _ _ HI Hrun Hpr Hcode Hm) as (n & Hn & _).
      destruct (hist_acts _ _ _ HH p pr Hpr) as [n' Hacts]. rewrite Hm, Hcode in Hacts.
      destruct n as [|[|[|[|[|n]]]]]; unfold cust in Hn; simpl in Hn; simplify_eq;
        try (by rewrite drop_nil in Hn).
      unfold script, cust in Hacts. simpl in Hacts.
      assert (length (actions p tr) = 1) as Hlen.
      { apply (f_equal length) in Hacts. rewrite length_app in Hacts.
        simpl in Hacts. lia. }
      destruct (actions p tr) as [|a [|a' acts]]; simpl in Hlen; try lia.
      simplify_eq/=. by apply list_elem_of_singleton in Hin. }
    unfold acquire in Hsv. rewrite (inv_cap s HI) in Hsv.
    destruct (in_service (server s)) as [|q srv] eqn:Hsrv; simpl in Hsv.
    + injection Hsv as <- <-. simpl. rewrite ?Hsrv. rewrite (Hwc eq_refl) in Hq |- *.
      simpl in Hq. rewrite app_nil_r in Hq. split_and!; try done.
      * by rewrite Hq.
      * rewrite Permutation_app_comm. simpl. by constructor.
    + pose proof (inv_srv s HI) as Hlen. rewrite ?Hsrv in Hlen. simpl in Hlen.
      destruct srv; [|simpl in Hlen; lia]. simpl in Hsv.
      injection Hsv as <- <-. simpl. rewrite ?Hsrv. split_and!; try done.
      * rewrite Hq. by rewrite <- !(assoc_L (++)).
      * rewrite Permutation_app_comm. simpl. by constructor.
  - unfold release in Hsv. destruct (member p _) eqn:Hmem; [|done].
    apply member_spec in Hmem.
    pose proof (single_server _ _ (inv_srv s HI) Hmem) as Hsrv.
    destruct (arrival_of p _) as [ta|]; [|done].
    rewrite Hsrv, drop_pid_single in Hsv. rewrite Hsrv in Hq.
    destruct (waiting (server s)) as [|w ws]; injection Hsv as <- <-; simpl.
    + split_and!; try done. rewrite Hq. by rewrite <- !(assoc_L (++)).
    + split_and!; try done. rewrite Hq. by rewrite <- !(assoc_L (++)).
Qed.

(** First come, first served.  The processes that called [acquire], in
    the order of their calls, are those that have called [release], in
    the order of their calls, then the one in service, then those
    waiting: customers leave in the order in which they came.  No
    process calls [acquire] twice, and nobody waits while the server is
    free. *)
Theorem first_come_first_served g iat svt dc tr s :
  reach g (fresh_queue iat svt dc) tr s ->
  acquirers tr = releasers tr ++ in_service (server s) ++ waiting (server s) /\
  NoDup (acquirers tr) /\
  (in_service (server s) = [] -> waiting (server s) = []).
Proof.
  intros Hr.
  enough (acquirers tr = releasers tr ++ in_service (server s) ++ waiting (server s) /\
          (in_service (server s) = [] -> waiting (server s) = []) /\
          NoDup (acquirers tr)) by tauto.
  remember (fresh_queue iat svt dc) as s0 eqn:Hs0.
  induction Hr as [|tr s l s' Hr IH Hs].
  - subst. simpl. split_and!; try done. constructor.
  - destruct IH as (Hq & Hwc & Hnd). subst s0.
    destruct (reach_fresh _ _ _ _ _ _ Hr) as [HI HH].
    by eapply step_fifo.
Qed.

Lemma first_come_first_served_witness :
  reach (OtherSim 10) (example_queue 1 3 (Some [])) busy_run.1 busy_run.2 /\
  acquirers busy_run.1
  = releasers busy_run.1 ++ in_service (server busy_run.2) ++ waiting (server busy_run.2) /\
  acquirers busy_run.1 = [1; 2; 3; 4] /\ releasers busy_run.1 = [1].
Proof.
  split; [exact busy_run_reach|].
  split; [by destruct (first_come_first_served _ _ _ _ _ _ busy_run_reach) as (H & _)|].
  split; vm_compute; reflexivity.
Defined.

(** ** The outcomes of a trial *)

Section TrialOutcomes.

Context (E : Externals).


End TrialOutcomes.

(** ** The outcomes of the program *)

Section ProgramOutcomes.

Context (E : Externals).

Lemma trial_global_bound (w : world E) :
  bound_global w -> exists c, trial_global E w = OtherSim c.
Proof.
  intros (j & o & Hj & Ho). unfold trial_global. rewrite Hj.
  pose proof (lookup_lt_Some _ _ _ Ho) as Hlt.
  destruct (Nat.eqb_spec j (length (heap w))) as [->|_]; [lia|].
  rewrite Ho. eauto.
Qed.

Lemma bound_global_app (w w' : world E) objs :
  bound_global w -> global_sim_ref w' = global_sim_ref w ->
  heap w' = heap w ++ objs -> bound_global w'.
Proof.
  intros (j & o & Hj & Ho) Hg Hh. exists j, o. rewrite Hg, Hh. split; [done|].
  rewrite lookup_app_l; [done|]. by eapply lookup_lt_Some.
Qed.

Lemma simrun_bound fuel a b (w : world E) :
  bound_global w ->
  match simrun E fuel a b w with
  | Returns _ w' =>
      global_sim_ref w' = global_sim_ref w /\ stdout w' = stdout w /\
      exists o, heap w' = heap w ++ [o]
  | Raises e w' => passed_on E e /\ stdout w' = stdout w
  | Timeout => True
  end.
Proof.
  intros HB. destruct (trial_global_bound w HB) as [c Hc].
  rewrite simrun_unfold. cbv zeta. rewrite resolve_trial_global, Hc.
  destruct (run _ _ _ _) as [tr s|tr e|] eqn:Hrun; [| |done].
  - unfold lift_result.
    destruct (ds_mean E _) as [v|e] eqn:Hmean; simpl.
    + split_and!; try done. eauto.
    + split; [|done]. right. eauto.
  - simpl. split; [|done]. unfold run, queue_of in Hrun.
    destruct (run_loop_raised _ _ _ _ _ _ _ _ (reach_nil _ _) Hrun) as (s' & Hr & Hs).
    destruct (crash_cases _ _ _ _ _ _ _ Hr Hs) as [[? _]|[-> _]]; [done|by left].
Qed.

Lemma trials_bound fuel a b n : forall z (w : world E),
  bound_global w ->
  match trials E fuel n a b z w with
  | Returns zs w' =>
      global_sim_ref w' = global_sim_ref w /\ stdout w' = stdout w /\
      length zs = length z + n /\
      exists objs, heap w' = heap w ++ objs /\ length objs = n
  | Raises e w' => passed_on E e /\ stdout w' = stdout w
  | Timeout => True
  end.
Proof.
  induction n as [|n IH]; intros z w HB; simpl.
  - split_and!; try done; try lia. exists []. by rewrite app_nil_r.
  - unfold mbind. pose proof (simrun_bound fuel a b w HB) as Hsim.
    destruct (simrun E fuel a b w) as [v w1|e w1|]; try done.
    destruct Hsim as (Hg & Hout & o & Hheap).
    specialize (IH (z ++ [v]) w1 (bound_global_app _ _ _ HB Hg Hheap)).
    destruct (trials E fuel n a b (z ++ [v]) w1) as [zs w2|e w2|]; try done.
    + destruct IH as (Hg' & Hout' & Hlen & objs & Hheap' & Hn).
      rewrite length_app in Hlen. simpl in Hlen.
      split_and!; try congruence; try lia.
      exists (o :: objs). rewrite Hheap', Hheap, <- (assoc_L (++)). simpl.
      split; [done|lia].
    + destruct IH as [He Hout']. split; [done|congruence].
Qed.

Lemma sweep_bound fuel x : forall w : world E,
  bound_global w ->
  match sweep E fuel x w with
  | Returns _ w' =>
      global_sim_ref w' = global_sim_ref w /\
      length (heap w') = length (heap w) + 25 * length x /\
      exists zs, length zs = length x /\ Forall (fun z => length z = 25) zs /\
                 stdout w' = stdout w ++ zip_with (row E) x zs
  | Raises e w' =>
      passed_on E e /\
      exists zs, length zs < length x /\ Forall (fun z => length z = 25) zs /\
                 stdout w' = stdout w ++ zip_with (row E) x zs
  | Timeout => True
  end.
Proof.
  induction x as [|b x IH]; intros w HB.
  - simpl. split_and!; try done; try lia. exists []. by rewrite app_nil_r.
  - rewrite sweep_cons. unfold mbind at 1.
    pose proof (trials_bound fuel 0 b 25 [] w HB) as Htr.
    destruct (trials E fuel 25 0 b [] w) as [z w1|e w1|]; try done.
    2:{ destruct Htr as [He Hout]. split; [done|]. exists []. simpl.
        split; [lia|]. split; [constructor|]. by rewrite app_nil_r. }
    destruct Htr as (Hg & Hout & Hlen & objs & Hheap & Hn). simpl in Hlen.
    unfold mbind, print.
    set (w2 := mkWorld _ _ _ _ _ _ _).
    assert (bound_global w2) as HB2 by (by eapply (bound_global_app w w2 objs)).
    specialize (IH w2 HB2).
    destruct (sweep E fuel x w2) as [u w3|e w3|]; try done.
    + destruct IH as (Hg' & Hh & zs & Hzs & Hall & Hout').
      split_and!.
      * by rewrite Hg'.
      * rewrite Hh. simpl. rewrite Hheap, length_app. lia.
      * exists (z :: zs). simpl. split; [lia|]. split; [by constructor|].
        rewrite Hout'. simpl. rewrite Hout. by rewrite <- (assoc_L (++)).
    + destruct IH as (He & zs & Hzs & Hall & Hout'). split; [done|].
      exists (z :: zs). simpl. split; [lia|]. split; [by constructor|].
      rewrite Hout'. simpl. rewrite Hout. by rewrite <- (assoc_L (++)).
Qed.

(** All the ways the program can end.  When it returns, it has printed
    the header and one row for each of the ten values of [b], each row
    from 25 trials, has created 251 simulators, and the global [sim] is
    still the first of them.  When it raises, the error comes from
    outside, a negative draw or the collector's [mean], and what it has
    printed is nothing, or the header and the rows of the values of [b]
    that were complete.  Its own code never fails: in particular no
    customer meets an unbound [sim], because the name is bound before
    the first run. *)
Theorem program_outcomes fuel (w : world E) :
  match main E fuel w with
  | Returns _ w' =>
      global_sim_ref w' = Some (length (heap w)) /\
      length (heap w') = length (heap w) + 251 /\
      exists zs, length zs = 10 /\ Forall (fun z => length z = 25) zs /\
                 stdout w' = stdout w ++ header :: zip_with (row E) (linspace 0.1 3.0 10) zs
  | Raises e w' =>
      passed_on E e /\
      (stdout w' = stdout w \/
       exists zs, length zs < 10 /\ Forall (fun z => length z = 25) zs /\
                  stdout w' = stdout w ++ header :: zip_with (row E) (linspace 0.1 3.0 10) zs)
  | Timeout => True
  end.
Proof.
  rewrite main_unfold. cbv zeta.
  destruct (run _ _ _ _) as [tr s|tr e|] eqn:Hrun; [| |done].
  - unfold mbind at 1. unfold print at 1.
    set (w2 := mkWorld _ _ _ _ _ _ _).
    assert (bound_global w2) as HB.
    { exists (length (heap w)). eexists. split; [done|]. simpl. apply lookup_snoc. }
    pose proof (sweep_bound fuel (linspace 0.1 3.0 10) w2 HB) as Hsw.
    destruct (sweep E fuel (linspace 0.1 3.0 10) w2) as [u w3|e w3|]; try done.
    + destruct Hsw as (Hg & Hh & zs & Hzs & Hall & Hout). split_and!.
      * by rewrite Hg.
      * rewrite Hh. simpl. rewrite length_app. simpl. lia.
      * exists zs. split; [done|]. split; [done|].
        rewrite Hout. simpl. by rewrite <- (assoc_L (++)).
    + destruct Hsw as (He & zs & Hzs & Hall & Hout). split; [done|]. right.
      exists zs. split; [done|]. split; [done|].
      rewrite Hout. simpl. by rewrite <- (assoc_L (++)).
  - split; [|by left]. unfold run, queue_of in Hrun.
    destruct (run_loop_raised _ _ _ _ _ _ _ _ (reach_nil _ _) Hrun) as (s' & Hr & Hs).
    destruct (crash_cases _ _ _ _ _ _ _ Hr Hs) as [[? _]|[-> _]]; [done|by left].
Qed.

End ProgramOutcomes.

(** ** System time and service time *)

Lemma sleeps_of_snoc p tr l :
  sleeps_of p (tr ++ [l])
  = sleeps_of p tr ++ match l with
                      | LSleep q _ d => if Nat.eqb q p then [d] else []
                      | _ => []
                      end.
Proof.
  unfold sleeps_of. rewrite omap_app. f_equal. destruct l; try done.
  simpl. by destruct (Nat.eqb _ _).
Qed.

Lemma sleeps_of_length p tr :
  length (sleeps_of p tr) = length (List.filter is_asleep (actions p tr)).
Proof.
  induction tr as [|l tr IH] using rev_ind; [done|].
  rewrite sleeps_of_snoc, actions_snoc, List.filter_app, !length_app, IH. f_equal.
  destruct l; simpl; destruct (Nat.eqb _ _); done.
Qed.

Lemma sleeps_of_valid dc tr s p d :
  Hist dc tr s -> d ∈ sleeps_of p tr -> p < length (processes s).
Proof.
  intros HH. unfold sleeps_of. rewrite list_elem_of_omap. intros (l & Hl & Hd).
  apply (hist_pids _ _ _ HH) in Hl. destruct l; try done. simpl in *.
  destruct (Nat.eqb_spec p0 p); [by subst|done].
Qed.

(** What a customer has done, by the code it has left. *)
Lemma customer_done dc tr s p pr n :
  Hist dc tr s -> processes s !! p = Some pr -> p_method pr = m_customer ->
  p_code pr = drop n cust ->
  actions p tr = take n (action_of_stmt <$> cust).
Proof.
  intros HH Hpr Hm Hcode. destruct (hist_acts _ _ _ HH p pr Hpr) as [n' Hacts].
  rewrite Hm, Hcode in Hacts. unfold script in Hacts. rewrite fmap_drop in Hacts.
  rewrite <- (take_drop n (action_of_stmt <$> cust)) in Hacts at 2.
  by apply app_inv_tail in Hacts.
Qed.

Lemma customer_sleeps dc tr s p pr n :
  Hist dc tr s -> processes s !! p = Some pr -> p_method pr = m_customer ->
  p_code pr = drop n cust ->
  length (sleeps_of p tr) = if Nat.leb n 2 then 0 else 1.
Proof.
  intros HH Hpr Hm Hcode.
  rewrite sleeps_of_length, (customer_done _ _ _ _ _ _ HH Hpr Hm Hcode).
  destruct n as [|[|[|[|[|n]]]]]; try reflexivity.
  by rewrite take_ge by (rewrite length_fmap; unfold cust; simpl; lia).
Qed.

Lemma not_slept dc tr s p pr n d :
  Hist dc tr s -> processes s !! p = Some pr -> p_method pr = m_customer ->
  p_code pr = drop n cust -> n <= 2 -> d ∉ sleeps_of p tr.
Proof.
  intros HH Hpr Hm Hcode Hn Hin.
  pose proof (customer_sleeps _ _ _ _ _ _ HH Hpr Hm Hcode) as Hlen.
  destruct (Nat.leb_spec n 2); [|lia].
  destruct (sleeps_of p tr); [by apply elem_of_nil in Hin|done].
Qed.

(** Who waits has not slept. *)
Lemma waiting_not_slept dc tr s w d :
  Inv s -> Hist dc tr s -> w ∈ waiting (server s) -> d ∉ sleeps_of w tr.
Proof.
  intros HI HH Hw.
  pose proof (waiting_in_arrivals _ _ HI Hw) as Harr.
  destruct (lookup_lt_is_Some_2 (processes s) w) as [pr Hpr];
    [by apply (inv_arr_valid s HI)|].
  pose proof (inv_procs s HI w pr Hpr) as Hok. unfold proc_ok in Hok.
  destruct (p_method pr) eqn:Hm; [tauto|].
  destruct Hok as (n & Hcode & Hph).
  assert (w ∉ in_service (server s)) as Hns.
  { pose proof (inv_arr_nodup s HI) as Hnd. rewrite (inv_arr_perm s HI) in Hnd.
    apply NoDup_app in Hnd as (_ & Hdis & _). intros Hin. by apply (Hdis w). }
  destruct n as [|[|[|[|[|[|n]]]]]]; try done;
    by eapply (not_slept _ _ _ _ _ _ _ HH Hpr Hm Hcode); lia.
Qed.

Lemma step_served dc g tr s l s' :
  Inv s -> Hist dc tr s -> Mono s -> Served tr s ->
  step g s = Step l s' -> Served (tr ++ [l]) s'.
Proof.
  intros HI HH HM HS Hs.
  pose proof (step_sched _ _ _ _ Hs) as Hsc.
  pose proof (step_server _ _ _ _ Hs) as Hsv.
  pose proof (step_processes _ _ _ _ Hs) as Hsh.
  intros p ta d. rewrite sleeps_of_snoc.
  destruct l; simpl in *; rewrite ?app_nil_r.
  - (* wake *)
    destruct Hsc as (evs & Hev & -> & -> & ->). rewrite Hsv. intros Hin Hd.
    destruct (HS p ta d Hin Hd) as [He _]. split.
    + intros t' Ht'. apply He. rewrite Hev. by right.
    + intros [= ->]. apply He. rewrite Hev. by left.
  - (* log *)
    destruct Hsc as (-> & -> & ->). rewrite Hsv. apply HS.
  - (* acquire *)
    destruct Hsc as (-> & -> & Hrun'). destruct Hsv as (-> & -> & _).
    destruct Hsh as (Hrun & pr & st & k & Hpr & Hcode & Hact & _).
    destruct st; simpl in Hact; simplify_eq.
    rewrite elem_of_app, list_elem_of_singleton. intros [Hin|[= -> ->]] Hd.
    + destruct (HS p ta d Hin Hd) as [He Hr]. split; [done|].
      intros Hp. apply Hr. rewrite Hrun' in Hp. destruct granted; congruence.
    + exfalso.
      destruct (running_code _ _ _ _ _ _ _ HI HH Hrun Hpr Hcode)
        as [(_ & _ & [[? _]|[? _]])|(_ & Hm & _)]; try done.
      destruct (running_customer s p0 pr _ _ HI Hrun Hpr Hcode Hm) as (n & Hn & _).
      pose proof (cust_phase _ _ _ Hn) as [_ ->]. rewrite <- Hcode in Hn.
      by eapply (not_slept _ _ _ _ _ 1 d HH Hpr Hm); [|lia|].
  - (* sleep *)
    destruct Hsc as (-> & -> & ->). rewrite Hsv.
    destruct Hsh as (Hrun & pr & st & k & Hpr & Hcode & Hact & _).
    destruct st; simpl in Hact; simplify_eq.
    destruct (inv_run s HI p0 Hrun) as [_ Hnev].
    intros Hin Hd. split; [|done].
    intros t'. rewrite elem_of_schedule_event. intros [[= -> ->]|Hold].
    + rewrite Nat.eqb_refl in Hd.
      apply elem_of_app in Hd as [Hd|Hd].
      * exfalso.
        destruct (running_code _ _ _ _ _ _ _ HI HH Hrun Hpr Hcode)
          as [(-> & _ & _)|(_ & Hm & _)].
        { apply (gen_not_in_system _ _ _ HI HH). unfold arr_pids.
          apply list_elem_of_fmap. by exists (0, ta). }
        destruct (running_customer s p0 pr _ _ HI Hrun Hpr Hcode Hm) as (n & Hn & _).
        pose proof (cust_phase _ _ _ Hn) as [_ ->]. rewrite <- Hcode in Hn.
        by eapply (not_slept _ _ _ _ _ 2 d HH Hpr Hm); [|lia|].
      * apply list_elem_of_singleton in Hd as ->.
        apply Qplus_le_l. by eapply (mono_arrived _ HM).
    + destruct (Nat.eqb_spec p0 p) as [->|Hne].
      * exfalso. apply Hnev. unfold ev_pids. apply list_elem_of_fmap. by exists (t', p).
      * rewrite app_nil_r in Hd. by apply (HS p ta d Hin Hd).
  - (* release *)
    destruct Hsc as (-> & -> & ->).
    destruct Hsv as (-> & Hsrv & -> & ta' & _ & -> & _).
    destruct Hsh as (Hrun & _).
    unfold drop_arrival. rewrite list_elem_of_filter. simpl. intros [Hne Hin] Hd.
    destruct (HS p ta d Hin Hd) as [He Hr]. split.
    + intros t'. destruct (head (waiting (server s))) as [w|] eqn:Hw; [|by apply He].
      rewrite elem_of_schedule_event. intros [[= -> ->]|Hold]; [|by apply He].
      exfalso. eapply (waiting_not_slept _ _ _ _ d HI HH); [|exact Hd].
      destruct (waiting (server s)); simplify_eq/=. by left.
    + intros Hp. rewrite Hrun in Hp. by simplify_eq.
  - (* spawn *)
    destruct Hsc as (-> & -> & ->). rewrite Hsv.
    destruct Hsh as (_ & -> & _).
    intros Hin Hd. destruct (HS p ta d Hin Hd) as [He Hr]. split; [|done].
    intros t'. rewrite elem_of_schedule_event. intros [[= -> ->]|Hold]; [|by apply He].
    exfalso. pose proof (sleeps_of_valid _ _ _ _ _ HH Hd). lia.
  - (* loop *)
    destruct Hsc as (-> & -> & ->). rewrite Hsv. apply HS.
  - (* return *)
    destruct Hsc as (-> & -> & ->). rewrite Hsv.
    intros Hin Hd. destruct (HS p ta d Hin Hd) as [He Hr]. by split.
Qed.

Lemma reach_served g iat svt dc tr s :
  reach g (fresh_queue iat svt dc) tr s -> Served tr s.
Proof.
  intros Hr. remember (fresh_queue iat svt dc) as s0 eqn:Hs0.
  induction Hr as [|tr s l s' Hr IH Hs].
  - subst. intros p ta d Hin. by apply elem_of_nil in Hin.
  - subst s0. destruct (reach_fresh _ _ _ _ _ _ Hr) as [HI HH].
    destruct (reach_mono _ _ _ _ _ _ Hr) as (HM & _).
    eapply step_served; eauto.
Qed.

Lemma reach_sleep_nonneg g s0 tr s :
  reach g s0 tr s -> forall p sid d, LSleep p sid d ∈ tr -> (0 <= d)%Q.
Proof.
  induction 1 as [|tr s l s' Hr IH Hs]; intros p sid d Hin.
  - by apply elem_of_nil in Hin.
  - apply elem_of_app in Hin as [Hin|Hin]; [by eapply IH|].
    apply list_elem_of_singleton in Hin as <-. by eapply step_sleep_nonneg.
Qed.

(** The system time of a customer covers its service time.  When a
    customer releases the server, it has called [acquire] once, at some
    time [ta], and has slept once, for its service draw [d], which is
    not negative; the time of the release is [ta + d] or later, so the
    sample that the release adds, the release time minus [ta], is at
    least [d]. *)
Theorem system_time_covers_service g iat svt dc tr s p t w s' :
  reach g (fresh_queue iat svt dc) tr s ->
  step g s = Step (LRelease p t w) s' ->
  exists ta d,
    acquire_time p tr = Some ta /\ sleeps_of p tr = [d] /\
    samples_of (tr ++ [LRelease p t w]) = samples_of tr ++ [(t - ta)%Q] /\
    (0 <= d)%Q /\ (d <= t - ta)%Q.
Proof.
  intros Hr Hs. destruct (reach_fresh _ _ _ _ _ _ Hr) as [HI HH].
  pose proof (reach_served _ _ _ _ _ _ Hr) as HS.
  pose proof (step_server _ _ _ _ Hs) as (-> & _ & _ & ta & Hta & _).
  pose proof (step_processes _ _ _ _ Hs) as (Hrun & pr & st & k & Hpr & Hcode & Hact & _).
  simpl in Hrun, Hpr, Hact. destruct st; simpl in Hact; simplify_eq.
  apply arrival_of_elem in Hta.
  pose proof (hist_arr _ _ _ HH _ _ Hta) as Hacq.
  destruct (running_code _ _ _ _ _ _ _ HI HH Hrun Hpr Hcode)
    as [(_ & _ & [[? _]|[? _]])|(_ & Hm & _)]; try done.
  destruct (running_customer s p pr _ _ HI Hrun Hpr Hcode Hm) as (n & Hn & _).
  pose proof (cust_phase _ _ _ Hn) as [_ ->]. rewrite <- Hcode in Hn.
  pose proof (customer_sleeps _ _ _ _ _ 4 HH Hpr Hm (eq_sym Hn)) as Hlen. simpl in Hlen.
  destruct (sleeps_of p tr) as [|d [|d' ds]] eqn:Hsl; try done.
  assert (d ∈ sleeps_of p tr) as Hd by (rewrite Hsl; by left).
  destruct (HS p ta d Hta Hd) as [_ Hnow]. specialize (Hnow Hrun).
  exists ta, d. split_and!; try done.
  - rewrite (samples_of_snoc _ _ (hist_rel _ _ _ HH)).
    by rewrite (acquire_time_app _ _ _ _ Hacq).
  - revert Hd. unfold sleeps_of. rewrite list_elem_of_omap. intros (l & Hl & Hd).
    destruct l; try done. destruct (Nat.eqb _ _); [|done]. simplify_eq.
    by eapply (reach_sleep_nonneg _ _ _ _ Hr).
  - apply (Qplus_le_l _ _ ta). unfold Qminus.
    rewrite <- Qplus_assoc, (Qplus_comm (- ta)), Qplus_opp_r, Qplus_0_r.
    by rewrite Qplus_comm.
Qed.

Lemma system_time_covers_service_witness :
  let g := OtherSim 10 in
  let q := example_queue 1 3 (Some []) in
  let tr := (advance 26 g [] q).1 in
  let s := (advance 26 g [] q).2 in
  reach g q tr s /\
  exists s', step g s = Step (LRelease 1 4 (Some 2)) s' /\
    exists ta d, acquire_time 1 tr = Some ta /\ sleeps_of 1 tr = [d] /\
                 (d <= 4 - ta)%Q.
Proof.
  intros g q tr s.
  assert (reach g q tr s) as Hr by (apply advance_reach; constructor).
  split; [exact Hr|].
  assert (exists s', step g s = Step (LRelease 1 4 (Some 2)) s') as [s' Hs].
  { eexists. vm_compute. reflexivity. }
  exists s'. split; [exact Hs|].
  destruct (system_time_covers_service g _ _ _ tr s 1 4 (Some 2) s' Hr Hs)
    as (ta & d & H1 & H2 & _ & _ & H5).
  exists ta, d. split; [exact H1|]. split; [exact H2|exact H5].
Defined.
